(** * Spinner factories of alive_progress/animations/spinners.py

    A shallow embedding of the spinner-composition layer and the proofs of
    its documented properties.

    - Python [int] is [Z], [Optional[int]] is [option Z], [str] is a list of
      characters, and [x or y] / [x and y] follow Python truthiness.
    - Python [float] is IEEE binary64, computed with the Standard Library's
      [SpecFloat] operations at precision 53.
    - A call either returns, raises, or never returns: [result].
    - A spinner instance is the closure state created by one call of an
      [inner_factory]; a running generator is the number of items it has
      taken from its source iterator. The mutable objects an instance owns
      (its ribbon, its players) live inside the instance state and are
      threaded through every step.
    - The last section, [Heap], puts these objects in a store, where two
      references can name one object, and relates it to the above. *)

From Stdlib Require Import ZArith List Ascii String Bool Lia SpecFloat.
From stdpp Require Import base option list strings gmap.

Set Warnings "-register-all".

Local Open Scope Z_scope.

(** ** Python values and control *)

Abbreviation str := (list ascii).

Definition len {A} (s : list A) : Z := Z.of_nat (List.length s).

Inductive exn :=
| ValueError
| TypeError
| IndexError
| ZeroDivisionError
| OverflowError.

Inductive result (A : Type) :=
| Return (a : A)
| Raise (e : exn)
| Hang.
Arguments Return {A} a.
Arguments Raise {A} e.
Arguments Hang {A}.

#[global] Instance result_ret : MRet result := fun _ a => Return a.
#[global] Instance result_bind : MBind result := fun _ _ k m =>
  match m with
  | Return a => k a
  | Raise e => Raise e
  | Hang => Hang
  end.

Fixpoint for_each {A B} (f : A -> result B) (l : list A) : result (list B) :=
  match l with
  | [] => Return []
  | x :: l' => y ← f x; ys ← for_each f l'; Return (y :: ys)
  end.

(** [s * n] where [s] holds one item, a character or the only member of a
    tuple: [n] items, none when [n] is not positive. The count must fit an
    index (a signed 64-bit [Py_ssize_t]), or the operation raises
    [OverflowError]. Memory is taken as unbounded: no [MemoryError]. *)
Definition index_sized (n : Z) : bool := (- 2 ^ 63 <=? n) && (n <? 2 ^ 63).

Definition times {A} (x : A) (n : Z) : result (list A) :=
  if index_sized n then Return (replicate (Z.to_nat n) x)
  else Raise OverflowError.

(** Truthiness of an [Optional[int]]: [None] and [0] are false. *)
Definition truthy (x : option Z) : bool :=
  match x with
  | Some z => negb (z =? 0)
  | None => false
  end.

(** [x or y] with [x : Optional[int]] and [y : int]. *)
Definition int_or (x : option Z) (y : Z) : Z :=
  if truthy x then default y x else y.

(** [x or y] on strings: the empty string is false. *)
Definition str_or (x : option str) (y : str) : str :=
  match x with
  | Some (c :: s) => c :: s
  | _ => y
  end.

(** ** Floating point: [float], [/], [*], [int()], [math.ceil] *)

Module PyFloat.

Definition prec : Z := 53.
Definition emax : Z := 1024.

Definition finite_or_overflow (f : spec_float) : result spec_float :=
  match f with
  | S754_infinity _ => Raise OverflowError
  | _ => Return f
  end.

(** [float(z)]: nearest double, [OverflowError] when out of range. *)
Definition of_int (z : Z) : result spec_float :=
  finite_or_overflow (binary_normalize prec emax z 0 false).

(** An integer as an exact, unrounded operand. *)
Definition exact (z : Z) : spec_float :=
  match z with
  | Z0 => S754_zero false
  | Zpos p => S754_finite false p 0
  | Zneg p => S754_finite true p 0
  end.

(** [a / b] on two ints: the correctly rounded quotient. *)
Definition int_true_div (a b : Z) : result spec_float :=
  if b =? 0 then Raise ZeroDivisionError
  else finite_or_overflow (SFdiv prec emax (exact a) (exact b)).

(** [x / b] with [x] a float and [b] an int: [b] is converted first, and
    a zero divisor is refused. *)
Definition div_int (x : spec_float) (b : Z) : result spec_float :=
  y ← of_int b;
  match y with
  | S754_zero _ => Raise ZeroDivisionError
  | _ => Return (SFdiv prec emax x y)
  end.

(** [a * x] with [a] an int and [x] a float; an overflow gives [inf]. *)
Definition int_mul (a : Z) (x : spec_float) : result spec_float :=
  y ← of_int a;
  Return (SFmul prec emax y x).

(** The value of a finite float is [numerator / denominator]. *)
Definition numerator (m : positive) (e : Z) : Z := Z.shiftl (Zpos m) (Z.max e 0).
Definition denominator (e : Z) : Z := Z.shiftl 1 (Z.max (- e) 0).

(** [int(x)]: truncation toward zero. *)
Definition trunc (x : spec_float) : result Z :=
  match x with
  | S754_zero _ => Return 0
  | S754_finite s m e =>
      let q := numerator m e / denominator e in
      Return (if s then - q else q)
  | S754_infinity _ => Raise OverflowError
  | S754_nan => Raise ValueError
  end.

(** [math.ceil(x)]. *)
Definition ceil (x : spec_float) : result Z :=
  match x with
  | S754_zero _ => Return 0
  | S754_finite s m e =>
      Return (if s then - (numerator m e / denominator e)
              else - ((- numerator m e) / denominator e))
  | S754_infinity _ => Raise OverflowError
  | S754_nan => Raise ValueError
  end.

Definition sign (x : spec_float) : bool :=
  match x with
  | S754_zero s | S754_infinity s | S754_finite s _ _ => s
  | S754_nan => false
  end.

Definition is_nan (x : spec_float) : bool :=
  match x with
  | S754_nan => true
  | _ => false
  end.

End PyFloat.

(** A number that is an [int] or a [float], as [ratio] is. *)
Inductive number :=
| Int (z : Z)
| Float (x : spec_float).

(** [a * r] with [a] an int. *)
Definition int_times (a : Z) (r : number) : result number :=
  match r with
  | Int z => Return (Int (a * z))
  | Float x => y ← PyFloat.int_mul a x; Return (Float y)
  end.

(** [int(r)]. *)
Definition int_of (r : number) : result Z :=
  match r with
  | Int z => Return z
  | Float x => PyFloat.trunc x
  end.

(** ** The utilities the factories import

    [repeating], [spinner_player] and the two sliding-window factories come
    from [alive_progress/animations/utils.py]. *)

Definition blank_cell : ascii := " "%char.

(** [text] cycled to exactly [n] cells; blanks when there is no text. *)
Definition fit (n : nat) (text : str) : str :=
  take n (mjoin (replicate n text) ++ replicate n blank_cell).

(** Modelled from the spec: the restart-wrap decorator [repeating(length)] of
    the utilities module. It leaves the wrapped function restartable (calling
    the instance again starts a new generator) and fixes every frame to
    exactly [length] cells; with no width given the frames pass unchanged.
    The spec does not say what fills a frame that is too short: the frame's
    own text is cycled here. *)
Definition repeating (length : option Z) (text : str) : str :=
  if truthy length then fit (Z.to_nat (default 0 length)) text else text.

(** Modelled from the spec: the ribbon built by the sliding-window factories
    of the utilities module, an endless producer of frames read through a
    window of [width] cells over a circular tape, the window moving by [step]
    cells per frame from [pos]. A tape cell is a content character or a hole
    through which the fixed background shows. *)
Record ribbon := {
  tape : list (option ascii);
  backdrop : str;
  width : Z;
  step : Z;
  pos : Z
}.

Definition cell (r : ribbon) (j : nat) : ascii :=
  match mjoin (tape r !! Z.to_nat ((pos r + Z.of_nat j) mod len (tape r))) with
  | Some c => c
  | None => default blank_cell (backdrop r !! (j mod List.length (backdrop r))%nat)
  end.

Definition ribbon_frame (r : ribbon) : str :=
  map (cell r) (seq 0 (Z.to_nat (width r))).

(** [next(infinite_ribbon)] *)
Definition ribbon_next (r : ribbon) : str * ribbon :=
  (ribbon_frame r,
   {| tape := tape r; backdrop := backdrop r; width := width r;
      step := step r; pos := pos r + step r |}).

(** Modelled from the spec: [static_sliding_window_factory(background, gap,
    contents, length, step, initial)]. The tape is, for every segment, [gap]
    cells of background followed by the segment: the background cells are
    part of the tape and move with it. *)
Definition static_sliding_window_factory
    (background : str) (gap : Z) (contents : list str)
    (length step initial : Z) : ribbon :=
  let adjusted := map Some (fit (Z.to_nat gap) background) in
  {| tape := mjoin (map (fun segment => adjusted ++ map Some segment) contents);
     backdrop := background; width := length; step := step; pos := initial |}.

(** Modelled from the spec: [overlay_sliding_window_factory], same signature.
    Only the segments are on the tape; between them the background shows,
    fixed in place under the window. *)
Definition overlay_sliding_window_factory
    (background : str) (gap : Z) (contents : list str)
    (length step initial : Z) : ribbon :=
  let adjusted := replicate (Z.to_nat gap) None in
  {| tape := mjoin (map (fun segment => adjusted ++ map Some segment) contents);
     backdrop := background; width := length; step := step; pos := initial |}.

(** ** Spinner instances *)

(** A running generator: how many items it has taken from its source. *)
Abbreviation gen := nat.

(** The closure of [scrolling_spinner_factory]'s [inner_spinner]. *)
Record scroll := {
  scroll_cycles : Z;
  infinite_ribbon : ribbon
}.

(** The [inner_spinner] returned by an [inner_factory], with the variables
    it closes over. A player is a spinner with its current generator. *)
Inductive spinner :=
| FrameSpinner (length_actual : option Z) (frames : list str)
| ScrollingSpinner (s : scroll)
| BouncingSpinner (length_actual : Z) (right_scroll left_scroll : scroll)
    (right_direction_size left_direction_size : Z)
| CompoundSpinner (length_actual : option Z) (cycles : Z)
    (players : list (spinner * gen)).

Abbreviation player := (spinner * gen)%type.

(** The [cycles] attribute. *)
Definition cycles (s : spinner) : Z :=
  match s with
  | FrameSpinner _ frames => len frames
  | ScrollingSpinner sc => scroll_cycles sc
  | BouncingSpinner _ _ _ rds lds => rds + lds
  | CompoundSpinner _ c _ => c
  end.

(** The [players] attribute, set on compound spinners only. *)
Definition players (s : spinner) : list player :=
  match s with
  | CompoundSpinner _ _ ps => ps
  | _ => []
  end.

(** What [next(g)] does on a generator [g] of a spinner. *)
Inductive outcome :=
| Yield (fill : str) (s : spinner) (g : gen)
| StopIteration (s : spinner)
| Stuck.

(** A loop [for _ in range(limit)] at iteration [g]. When the range is
    exhausted the generator stops; a player ([restart]) calls the spinner
    again, and spins forever if the new generator is empty too. *)
Definition counted (restart : bool) (limit : Z) (g : gen)
    (body : gen -> outcome) (stop : outcome) : outcome :=
  if Z.of_nat g <? limit then body g
  else if restart then (if 0 <? limit then body 0%nat else Stuck)
  else stop.

(** [next(infinite_ribbon)] inside a scrolling spinner: the frame, and the
    spinner with its ribbon moved on. *)
Definition scroll_fill (sc : scroll) : str :=
  (ribbon_next (infinite_ribbon sc)).1.

Definition scroll_advance (sc : scroll) : scroll :=
  {| scroll_cycles := scroll_cycles sc;
     infinite_ribbon := (ribbon_next (infinite_ribbon sc)).2 |}.

(** [for _ in range(cycles): yield next(infinite_ribbon)] *)
Definition scroll_body (sc : scroll) (i : gen) : outcome :=
  Yield (scroll_fill sc) (ScrollingSpinner (scroll_advance sc)) (S i).

(** The two loops of the bouncing [inner_spinner], flattened: item [k] of a
    run is frame [k] of [right_scroll()] while [k < right.cycles], then frame
    [k - right.cycles] of [left_scroll()]. A frame whose index within its
    pass is not below the direction size is taken and dropped. *)
Fixpoint bouncing_run (fuel : nat) (length_actual : Z) (rs ls : scroll)
    (rds lds : Z) (k : gen) : outcome :=
  let here r l := BouncingSpinner length_actual r l rds lds in
  match fuel with
  | O => StopIteration (here rs ls)
  | S fuel' =>
      let rc := Z.to_nat (scroll_cycles rs) in
      if (k <? rc)%nat then
        if Z.of_nat k <? rds
        then Yield (repeating (Some length_actual) (scroll_fill rs))
               (here (scroll_advance rs) ls) (S k)
        else bouncing_run fuel' length_actual (scroll_advance rs) ls rds lds (S k)
      else
        if Z.of_nat (k - rc) <? lds
        then Yield (repeating (Some length_actual) (scroll_fill ls))
               (here rs (scroll_advance ls)) (S k)
        else bouncing_run fuel' length_actual rs (scroll_advance ls) rds lds (S k)
  end.

Definition bouncing_next (length_actual : Z) (rs ls : scroll) (rds lds : Z)
    (k : gen) : outcome :=
  let total := (Z.to_nat (scroll_cycles rs) + Z.to_nat (scroll_cycles ls))%nat in
  bouncing_run (total - k) length_actual rs ls rds lds k.

(** [zip(..., *players)]: one frame from every player, in order. *)
Definition draw (play : spinner -> gen -> outcome) :=
  fix draw (ps : list player) : option (list str * list player) :=
    match ps with
    | [] => Some ([], [])
    | (s, g) :: ps' =>
        match play s g with
        | Yield fill s' g' =>
            match draw ps' with
            | Some (fills, ps'') => Some (fill :: fills, (s', g') :: ps'')
            | None => None
            end
        | _ => None
        end
    end.

(** [next] on a generator of spinner [s]. With [restart] the generator is
    the one held by [spinner_player(s)]:
    [while True: for c in spinner(): yield c]. *)
Fixpoint next (restart : bool) (s : spinner) (g : gen) {struct s} : outcome :=
  match s with
  | FrameSpinner length_actual frames =>
      (* yield from frames *)
      counted restart (len frames) g
        (fun i => match frames !! i with
                  | Some fill => Yield (repeating length_actual fill) s (S i)
                  | None => Stuck
                  end)
        (StopIteration s)
  | ScrollingSpinner sc =>
      counted restart (scroll_cycles sc) g (scroll_body sc) (StopIteration s)
  | BouncingSpinner length_actual rs ls rds lds =>
      match bouncing_next length_actual rs ls rds lds g with
      | StopIteration (BouncingSpinner _ rs' ls' _ _) =>
          if restart then
            match bouncing_next length_actual rs' ls' rds lds 0%nat with
            | StopIteration _ => Stuck
            | o => o
            end
          else StopIteration (BouncingSpinner length_actual rs' ls' rds lds)
      | o => o
      end
  | CompoundSpinner length_actual c ps =>
      (* for fills in zip(range(inner_spinner.cycles), *players):
             yield ''.join(fills[1:]) *)
      counted restart c g
        (fun i => match draw (next true) ps with
                  | Some (fills, ps') =>
                      Yield (repeating length_actual (mjoin fills))
                        (CompoundSpinner length_actual c ps') (S i)
                  | None => Stuck
                  end)
        (StopIteration s)
  end.

(** [spinner_player(spinner)] and [next(player)]. *)
Definition spinner_player (s : spinner) : player := (s, 0%nat).

Definition player_next (p : player) : option (str * player) :=
  match next true p.1 p.2 with
  | Yield fill s g => Some (fill, (s, g))
  | _ => None
  end.

(** ** Spinner factories *)

(** What a [*_spinner_factory] call returns: its [inner_factory], with the
    arguments it closes over after the defaults of the outer body. *)
Inductive factory :=
| FrameFactory (frames : list str)
| ScrollingFactory (chars : str) (length block : option Z) (background : str)
    (right hiding overlay : bool)
| BouncingFactory (right_chars : str) (length : Z) (block : option Z)
    (left_chars blank : str) (hiding : bool)
| CompoundFactory (spinner_factories : list factory)
| DelayedFactory (spinner_factory : factory) (copies offset : Z).

(** [frame_spinner_factory] over its [frames]: a single string is one frame per
    character; [frames[0]] raises on an empty sequence. *)
Definition frame_spinner_factory (frames : list str) : result factory :=
  let frames :=
    match frames with
    | [single] => map (fun c => [c]) single
    | _ => frames
    end in
  match frames with
  | [] => Raise IndexError
  | _ :: _ => Return (FrameFactory frames)
  end.

Definition scrolling_spinner_factory (chars : str) (length block : option Z)
    (background : option str) (right hiding overlay : bool) : factory :=
  ScrollingFactory chars length block (str_or background [blank_cell])
    right hiding overlay.

Definition bouncing_spinner_factory (right_chars : str) (length : Z)
    (block : option Z) (left_chars : option str) (blank : str)
    (hiding : bool) : factory :=
  BouncingFactory right_chars length block (str_or left_chars right_chars)
    blank hiding.

Definition compound_spinner_factory (spinner_factories : list factory) : factory :=
  CompoundFactory spinner_factories.

Definition delayed_spinner_factory (spinner_factory : factory)
    (copies offset : Z) : factory :=
  DelayedFactory spinner_factory copies offset.

(** The [natural] attribute of an [inner_factory]. *)
Fixpoint natural (f : factory) : Z :=
  match f with
  | FrameFactory frames => len (default [] (head frames))
  | ScrollingFactory chars length _ _ _ _ _ => int_or length (len chars)
  | BouncingFactory _ length _ _ _ _ => length
  | CompoundFactory fs => foldr (fun f acc => natural f + acc) 0 fs
  | DelayedFactory f copies _ => natural f * copies
  end.

(** *** Calls with keyword arguments *)

Inductive value :=
| VNone
| VInt (z : Z)
| VStr (s : str)
| VBool (b : bool).

Abbreviation arguments := (list (string * value)).

(** Keywords are bound by name; a name that is no parameter, or is bound
    already, is a [TypeError]. *)
Fixpoint bind_keywords (params : list string) (bound kwargs : arguments)
    : result arguments :=
  match kwargs with
  | [] => Return bound
  | (name, v) :: kwargs' =>
      if bool_decide (name ∈ params) && negb (bool_decide (name ∈ bound.*1))
      then bind_keywords params ((name, v) :: bound) kwargs'
      else Raise TypeError
  end.

(** Positional arguments go to the leading parameters. *)
Definition bind_arguments (params : list string) (args : list value)
    (kwargs : arguments) : result arguments :=
  if (List.length params <? List.length args)%nat then Raise TypeError
  else bind_keywords params (zip params args) kwargs.

Fixpoint argument (bound : arguments) (name : string) : option value :=
  match bound with
  | [] => None
  | (k, v) :: bound' =>
      if bool_decide (k = name) then Some v else argument bound' name
  end.

Definition scrolling_spinner_factory_params : list string :=
  ["chars"; "length"; "block"; "background"; "right"; "hiding"; "overlay"]%string.

(** A [bool] is an [int]: [True] is 1 and [False] is 0. *)
Definition optional_int (v : option value) : result (option Z) :=
  match v with
  | None | Some VNone => Return None
  | Some (VInt z) => Return (Some z)
  | Some (VBool b) => Return (Some (if b then 1 else 0))
  | Some (VStr _) => Raise TypeError
  end.

Definition optional_str (v : option value) : result (option str) :=
  match v with
  | None | Some VNone => Return None
  | Some (VStr s) => Return (Some s)
  | Some _ => Raise TypeError
  end.

(** The truth value of an argument. *)
Definition truth (v : value) : bool :=
  match v with
  | VNone => false
  | VInt z => negb (z =? 0)
  | VStr s => negb (bool_decide (s = []))
  | VBool b => b
  end.

(** A flag is only ever tested for truth, so any value will do; [d] is the
    default of the signature. *)
Definition bool_or (v : option value) (d : bool) : bool :=
  match v with
  | None => d
  | Some v => truth v
  end.

(** A call of [scrolling_spinner_factory] with the defaults of its
    signature; [chars] has none. The embedding is typed: [chars] and
    [background] are strings, [length] and [block] ints, and an argument of
    another type is refused here. *)
Definition call_scrolling_spinner_factory (args : list value)
    (kwargs : arguments) : result factory :=
  bound ← bind_arguments scrolling_spinner_factory_params args kwargs;
  chars ← match argument bound "chars" with
          | Some (VStr s) => Return s
          | _ => Raise TypeError
          end;
  length ← optional_int (argument bound "length");
  block ← optional_int (argument bound "block");
  background ← optional_str (argument bound "background");
  let right := bool_or (argument bound "right") true in
  let hiding := bool_or (argument bound "hiding") true in
  let overlay := bool_or (argument bound "overlay") false in
  Return (scrolling_spinner_factory chars length block background
            right hiding overlay).

Definition optional (z : option Z) : value :=
  match z with
  | Some z => VInt z
  | None => VNone
  end.

(** *** [scrolling_spinner_factory.inner_factory] *)

(** [float(length_actual) / length if length and length_actual else 1] *)
Definition ratio (length length_actual : option Z) : result number :=
  if truthy length && truthy length_actual then
    x ← PyFloat.of_int (default 0 length_actual);
    y ← PyFloat.div_int x (default 0 length);
    Return (Float y)
  else Return (Int 1).

(** [int((block or 0) * ratio) or len(chars)] *)
Definition block_size (block : option Z) (ratio : number) (chars : str)
    : result Z :=
  product ← int_times (int_or block 0) ratio;
  size ← int_of product;
  Return (if size =? 0 then len chars else size).

Definition gap (hiding : bool) (length_actual block_size : Z) : Z :=
  if hiding then length_actual else Z.max 0 (length_actual - block_size).

Definition initial (block : option Z) (right hiding : bool)
    (length_actual block_size : Z) : Z :=
  if hiding then 0
  else if right then
    (if truthy block then - block_size else Z.abs (length_actual - block_size))
  else 0.

(** [map(lambda c: c * block_size, reversed(chars) if right else chars)
    if block else (chars,)]. The [map] is lazy: its segments are made, and
    a repetition can fail, when the window factory reads them. *)
Definition contents (chars : str) (block : option Z) (right : bool)
    (block_size : Z) : result (list str) :=
  if truthy block then
    for_each (fun c => times c block_size)
      (if right then reverse chars else chars)
  else Return [chars].

Definition scrolling_inner_factory (chars : str) (length block : option Z)
    (background : str) (right hiding overlay : bool)
    (length_actual : option Z) : result scroll :=
  let natural := int_or length (len chars) in
  let step := if right then -1 else 1 in
  if truthy block && negb (truthy length_actual || truthy length)
  then Raise ValueError
  else
    ratio ← ratio length length_actual;
    let length_actual := int_or length_actual natural in
    block_size ← block_size block ratio chars;
    let gap := gap hiding length_actual block_size in
    let initial := initial block right hiding length_actual block_size in
    let window_impl :=
      if overlay then overlay_sliding_window_factory
      else static_sliding_window_factory in
    contents ← contents chars block right block_size;
    let infinite_ribbon :=
      window_impl background gap contents length_actual step initial in
    Return {| scroll_cycles := gap + block_size;
              infinite_ribbon := infinite_ribbon |}.

(** The inner factory of a called-for scrolling factory. *)
Definition scrolling_bind (f : factory) (length_actual : option Z)
    : result scroll :=
  match f with
  | ScrollingFactory chars length block background right_ hiding overlay =>
      scrolling_inner_factory chars length block background right_ hiding
        overlay length_actual
  | _ => Raise TypeError
  end.

(** *** [bouncing_spinner_factory.inner_factory] *)

(** [length_actual + block_size if hiding else abs(length_actual - block_size) or 1] *)
Definition direction_size (hiding : bool) (length_actual block_size : Z) : Z :=
  if hiding then length_actual + block_size
  else if Z.abs (length_actual - block_size) =? 0 then 1
  else Z.abs (length_actual - block_size).

(** [scrolling_spinner_factory(chars, length, block=block, blank=blank,
    right=right, hiding=hiding)(length_actual)] *)
Definition scroll_keywords (block : option Z) (blank : str)
    (right hiding : bool) : arguments :=
  [("block", optional block); ("blank", VStr blank);
   ("right", VBool right); ("hiding", VBool hiding)]%string.

Definition scroll_call (chars : str) (length : Z) (block : option Z)
    (blank : str) (right hiding : bool) (length_actual : option Z)
    : result scroll :=
  f ← call_scrolling_spinner_factory [VStr chars; VInt length]
        (scroll_keywords block blank right hiding);
  scrolling_bind f length_actual.

Definition bouncing_inner_factory (right_chars : str) (length : Z)
    (block : option Z) (left_chars blank : str) (hiding : bool)
    (length_actual : option Z) : result spinner :=
  right_scroll ←
    scroll_call right_chars length block blank true hiding length_actual;
  left_scroll ←
    scroll_call left_chars length block blank false hiding length_actual;
  ratio ← ratio (Some length) length_actual;
  let length_actual := int_or length_actual length in
  right_block_size ← block_size block ratio right_chars;
  left_block_size ← block_size block ratio left_chars;
  let right_direction_size := direction_size hiding length_actual right_block_size in
  let left_direction_size := direction_size hiding length_actual left_block_size in
  Return (BouncingSpinner length_actual right_scroll left_scroll
            right_direction_size left_direction_size).

(** *** [compound_spinner_factory.inner_factory] *)

(** [length_actual and int(math.ceil(length_actual / len(spinner_factories)))] *)
Definition each_length (length_actual : option Z) (n : Z) : result (option Z) :=
  if truthy length_actual then
    q ← PyFloat.int_true_div (default 0 length_actual) n;
    c ← PyFloat.ceil q;
    Return (Some c)
  else Return length_actual.

(** [max(spinners, key=op_cycles)]: the first spinner of greatest [cycles]. *)
Definition longest (spinners : list spinner) : result spinner :=
  match spinners with
  | [] => Raise ValueError
  | s :: rest =>
      Return (foldl (fun best x => if cycles best <? cycles x then x else best)
                s rest)
  end.

Definition compound_inner_factory
    (spinner_factories : list (option Z -> result spinner))
    (length_actual : option Z) : result spinner :=
  each_length ← each_length length_actual (len spinner_factories);
  spinners ← for_each (fun factory => factory each_length) spinner_factories;
  longest ← longest spinners;
  let players := map spinner_player spinners in
  Return (CompoundSpinner length_actual (cycles longest) players).

(** *** [delayed_spinner_factory.inner_factory] *)

(** [for _ in range(n): next(s)] *)
Fixpoint discard (n : nat) (s : player) : result player :=
  match n with
  | O => Return s
  | S n' =>
      match player_next s with
      | Some (_, s') => discard n' s'
      | None => Hang
      end
  end.

Definition enumerate {A} (l : list A) : list (nat * A) :=
  zip (seq 0 (List.length l)) l.

Definition copies_actual (natural copies : Z) (length_actual : option Z)
    : result Z :=
  if truthy length_actual then
    q ← PyFloat.int_true_div (default 0 length_actual) natural;
    PyFloat.ceil q
  else Return copies.

Definition with_players (s : spinner) (ps : list player) : spinner :=
  match s with
  | CompoundSpinner length_actual c _ => CompoundSpinner length_actual c ps
  | _ => s
  end.

Definition delayed_inner_factory
    (spinner_factory : option Z -> result spinner) (natural copies offset : Z)
    (length_actual : option Z) : result spinner :=
  copies_actual ← copies_actual natural copies length_actual;
  spinner_factories ← times spinner_factory copies_actual;
  result ← compound_inner_factory spinner_factories length_actual;
  shifted ← for_each (fun '(i, s) => discard (Z.to_nat (Z.of_nat i * offset)) s)
              (enumerate (players result));
  Return (with_players result shifted).

(** *** Calling a factory: [factory(length_actual)] *)

Fixpoint inner_factory (f : factory) : option Z -> result spinner :=
  match f with
  | FrameFactory frames =>
      fun length_actual => Return (FrameSpinner length_actual frames)
  | ScrollingFactory chars length block background right_ hiding overlay =>
      fun length_actual =>
        s ← scrolling_inner_factory chars length block background right_
              hiding overlay length_actual;
        Return (ScrollingSpinner s)
  | BouncingFactory right_chars length block left_chars blank hiding =>
      bouncing_inner_factory right_chars length block left_chars blank hiding
  | CompoundFactory spinner_factories =>
      compound_inner_factory (map inner_factory spinner_factories)
  | DelayedFactory spinner_factory copies offset =>
      delayed_inner_factory (inner_factory spinner_factory)
        (natural spinner_factory) copies offset
  end.

(** ** Observing a player *)

(** The frame a player yields at tick [t], counted from its present state. *)
Definition player_frame (p : player) (t : nat) : option str :=
  match discard t p with
  | Return p' => fst <$> player_next p'
  | _ => None
  end.

(** The frames of the first [n] ticks. *)
Fixpoint player_frames (n : nat) (p : player) : list str :=
  match n with
  | O => []
  | S n' =>
      match player_next p with
      | Some (fill, p') => fill :: player_frames n' p'
      | None => []
      end
  end.

(** ** Vocabulary of the statements *)

(** The ribbon after [t] frames. *)
Definition ribbon_at (r : ribbon) (t : Z) : ribbon :=
  {| tape := tape r; backdrop := backdrop r; width := width r;
     step := step r; pos := pos r + t * step r |}.

Definition scroll_at (sc : scroll) (t : Z) : scroll :=
  {| scroll_cycles := scroll_cycles sc;
     infinite_ribbon := ribbon_at (infinite_ribbon sc) t |}.

(** A spinner of factory [f] called with [length_actual] has [c] cycles and
    its restarted output repeats every [c] frames. *)
Definition plays_with_period (f : factory) (length_actual : option Z) (c : nat) :=
  exists s, inner_factory f length_actual = Return s /\
    cycles s = Z.of_nat c /\
    forall t, exists fill,
      player_frame (spinner_player s) t = Some fill /\
      player_frame (spinner_player s) (t + c) = Some fill.

Definition text (s : string) : str := list_ascii_of_string s.

(** [ceil(w / n)] in exact arithmetic. *)
Definition ceil_div (w n : Z) : Z := - ((- w) / n).

(** A player whose output repeats every [c] frames. *)
Definition periodic (p : player) (c : nat) : Prop :=
  forall t, player_frame p (t + c) = player_frame p t.

(** ** Doubles and block sizes *)

(** Doubles made from ints: normal, and of magnitude at least one. *)
Definition from_int (y : spec_float) : Prop :=
  match y with
  | S754_finite _ m e =>
      Zdigits2 (Z.pos m) = 53 /\ e <= 971 /\
      (-51 <= e \/ (m = 4503599627370496%positive /\ e = -52))
  | _ => False
  end.

(** The binade of a double: the exponent of the power of two above it. *)
Definition binade (y : spec_float) : Z :=
  match y with
  | S754_finite _ m e => Zdigits2 (Z.pos m) + e
  | _ => -1074
  end.

Definition is_finite (y : spec_float) : bool :=
  match y with
  | S754_zero _ | S754_finite _ _ _ => true
  | _ => false
  end.

(** The record [mrs] places the quotient [a / b]: [shr_m] is its integer
    part, [shr_r] says that the rest is at least one half, [shr_s] that it
    is neither nothing nor one half. *)
Definition places (mrs : shr_record) (a b : Z) : Prop :=
  let rest := a - shr_m mrs * b in
  0 <= rest < b /\
  shr_r mrs = (b <=? 2 * rest) /\
  shr_s mrs = negb (rest =? 0) && negb (2 * rest =? b).

(** The value of a double in units of [2^-scale]: a whole number for the
    doubles met here. *)
Definition scale : Z := 400.

Definition scaled (x : spec_float) : Z :=
  match x with
  | S754_finite _ m e => Z.pos m * 2 ^ (e + scale)
  | _ => 0
  end.

(** Positive doubles with a full mantissa and an exponent within [k]. *)
Definition normal (k : Z) (x : spec_float) : Prop :=
  match x with
  | S754_finite false m e => 2 ^ 52 <= Z.pos m < 2 ^ 53 /\ - k <= e <= k
  | _ => False
  end.

(** The block size a scrolling factory uses when it is called. *)
Definition used_block_size (chars : str) (length block la : option Z)
    : result Z :=
  r ← ratio length la;
  block_size block r chars.

(** [floor(block * ratio)] with [ratio = width / length], in exact
    arithmetic. *)
Definition exact_block_size (block length la : Z) : Z := block * la / length.

(** The floor of the value of a double. *)
Definition floor (x : spec_float) : option Z :=
  match x with
  | S754_zero _ => Some 0
  | S754_finite s m e =>
      Some ((if s then - PyFloat.numerator m e else PyFloat.numerator m e) / PyFloat.denominator e)
  | _ => None
  end.

(** The characters a bouncing factory scrolls leftward. *)
Definition bouncing_left_chars (f : factory) : option str :=
  match f with
  | BouncingFactory _ _ _ left_chars _ _ => Some left_chars
  | _ => None
  end.

(** ** Frame widths *)

Definition uniform (ws : list Z) : option Z :=
  match ws with
  | [] => None
  | w :: ws' => if forallb (Z.eqb w) ws' then Some w else None
  end.

(** The one length of all the frames a spinner yields, when there is one. *)
Fixpoint frame_width (s : spinner) : option Z :=
  match s with
  | FrameSpinner length_actual frames =>
      uniform (map (fun fill => len (repeating length_actual fill)) frames)
  | ScrollingSpinner sc =>
      Some (Z.of_nat (Z.to_nat (width (infinite_ribbon sc))))
  | BouncingSpinner length_actual rs ls _ _ =>
      if length_actual =? 0
      then uniform [Z.of_nat (Z.to_nat (width (infinite_ribbon rs)));
                    Z.of_nat (Z.to_nat (width (infinite_ribbon ls)))]
      else Some (Z.of_nat (Z.to_nat length_actual))
  | CompoundSpinner length_actual _ ps =>
      if truthy length_actual
      then Some (Z.of_nat (Z.to_nat (default 0 length_actual)))
      else (fix total (ps : list player) : option Z :=
              match ps with
              | [] => Some 0
              | (s, _) :: ps' =>
                  match frame_width s, total ps' with
                  | Some w, Some ws => Some (w + ws)
                  | _, _ => None
                  end
              end) ps
  end.

(** The width of the joined frames of some players. *)
Fixpoint total_width (ps : list player) : option Z :=
  match ps with
  | [] => Some 0
  | (s, _) :: ps' =>
      match frame_width s, total_width ps' with
      | Some w, Some ws => Some (w + ws)
      | _, _ => None
      end
  end.

(** Factories built from regular arguments: frames of one non-zero length,
    some characters to scroll, no negative [length] or [block], at least
    one factory to combine, at least one copy. *)
Fixpoint regular (f : factory) : Prop :=
  match f with
  | FrameFactory frames =>
      match frames with
      | [] => False
      | first :: _ => 1 <= len first /\ Forall (fun fill => len fill = len first) frames
      end
  | ScrollingFactory chars length block _ _ _ _ =>
      chars <> [] /\ 0 <= default 0 length /\ 0 <= default 0 block
  | BouncingFactory right_chars length block left_chars _ _ =>
      1 <= length
  | CompoundFactory fs =>
      fs <> [] /\
      (fix all (fs : list factory) : Prop :=
         match fs with
         | [] => True
         | f :: fs' => regular f /\ all fs'
         end) fs
  | DelayedFactory f copies _ => regular f /\ 1 <= copies
  end.

(** The width an instance is bound at. *)
Definition bound_width (f : factory) (length_actual : option Z) : Z :=
  int_or length_actual (natural f).

(** ** The objects of a running program

    The sections above treat a spinner as a value. In the program the state
    of a spinner is held by objects, which a call of an [inner_factory]
    creates: a scrolling spinner closes over its ribbon, the generator the
    window factory returns; a compound spinner closes over its [players],
    each a generator made by [spinner_player]. These objects change when a
    frame is taken, and all the generators obtained by calling one
    [inner_spinner] function work on the same ones. They live in a store,
    and an instance refers to them by location. What a factory closes over
    (strings, ints, flags, a tuple of factories) is immutable and remains a
    value. *)

Module Heap.

Abbreviation loc := nat.

Inductive object :=
| Ribbon (r : ribbon)
| Player (g : gen).

Abbreviation store := (gmap loc object).

(** A new object. *)
Definition alloc (o : object) (h : store) : loc * store :=
  let l := fresh (dom h) in (l, <[l := o]> h).

(** What a scrolling [inner_spinner] closes over: its [cycles] attribute
    and the variable [infinite_ribbon]. *)
Record closure := {
  closure_cycles : Z;
  closure_ribbon : loc
}.

(** The [inner_spinner] function an [inner_factory] returns. A player is an
    object holding the position of its current generator, with the spinner
    it plays, which never changes. *)
Inductive instance :=
| FrameInstance (length_actual : option Z) (frames : list str)
| ScrollingInstance (sc : closure)
| BouncingInstance (length_actual : Z) (right_scroll left_scroll : closure)
    (right_direction_size left_direction_size : Z)
| CompoundInstance (length_actual : option Z) (cycles : Z)
    (players : list (loc * instance)).

Abbreviation player := (loc * instance)%type.

Definition cycles (i : instance) : Z :=
  match i with
  | FrameInstance _ frames => len frames
  | ScrollingInstance sc => closure_cycles sc
  | BouncingInstance _ _ _ rds lds => rds + lds
  | CompoundInstance _ c _ => c
  end.

Definition players (i : instance) : list player :=
  match i with
  | CompoundInstance _ _ ps => ps
  | _ => []
  end.

(** What [next(g)] does on a generator [g] of an instance: a frame, with
    the generator moved on and the store as the call leaves it; or
    [StopIteration]; or no return. *)
Inductive outcome :=
| Yields (fill : str) (g : gen) (h : store)
| Stops (h : store)
| Sticks.

Definition counted (restart : bool) (limit : Z) (g : gen)
    (body : gen -> outcome) (stop : outcome) : outcome :=
  if Z.of_nat g <? limit then body g
  else if restart then (if 0 <? limit then body 0%nat else Sticks)
  else stop.

(** [next(infinite_ribbon)] on the ribbon at [l]. *)
Definition ribbon_step (l : loc) (h : store) : option (str * store) :=
  match h !! l with
  | Some (Ribbon r) =>
      Some ((ribbon_next r).1, <[l := Ribbon (ribbon_next r).2]> h)
  | _ => None
  end.

(** [for _ in range(cycles): yield next(infinite_ribbon)] *)
Definition scroll_body (sc : closure) (h : store) (k : gen) : outcome :=
  match ribbon_step (closure_ribbon sc) h with
  | Some (fill, h') => Yields fill (S k) h'
  | None => Sticks
  end.

(** The two loops of the bouncing [inner_spinner], flattened as above. *)
Fixpoint bouncing_run (fuel : nat) (length_actual : Z) (rs ls : closure)
    (rds lds : Z) (k : gen) (h : store) : outcome :=
  match fuel with
  | O => Stops h
  | S fuel' =>
      let rc := Z.to_nat (closure_cycles rs) in
      if (k <? rc)%nat then
        match ribbon_step (closure_ribbon rs) h with
        | Some (fill, h') =>
            if Z.of_nat k <? rds
            then Yields (repeating (Some length_actual) fill) (S k) h'
            else bouncing_run fuel' length_actual rs ls rds lds (S k) h'
        | None => Sticks
        end
      else
        match ribbon_step (closure_ribbon ls) h with
        | Some (fill, h') =>
            if Z.of_nat (k - rc) <? lds
            then Yields (repeating (Some length_actual) fill) (S k) h'
            else bouncing_run fuel' length_actual rs ls rds lds (S k) h'
        | None => Sticks
        end
  end.

Definition bouncing_next (length_actual : Z) (rs ls : closure) (rds lds : Z)
    (k : gen) (h : store) : outcome :=
  let total :=
    (Z.to_nat (closure_cycles rs) + Z.to_nat (closure_cycles ls))%nat in
  bouncing_run (total - k) length_actual rs ls rds lds k h.

(** [zip(..., *players)]: [next] on every player object, in order. *)
Definition draw (play : instance -> gen -> store -> outcome) :=
  fix draw (ps : list player) (h : store) : option (list str * store) :=
    match ps with
    | [] => Some ([], h)
    | (l, i) :: ps' =>
        match h !! l with
        | Some (Player g) =>
            match play i g h with
            | Yields fill g' h' =>
                match draw ps' (<[l := Player g']> h') with
                | Some (fills, h'') => Some (fill :: fills, h'')
                | None => None
                end
            | _ => None
            end
        | _ => None
        end
    end.

(** [next] on a generator of instance [i], at position [g]; with [restart]
    the generator is a player's. *)
Fixpoint next (restart : bool) (i : instance) (g : gen) (h : store)
    {struct i} : outcome :=
  match i with
  | FrameInstance length_actual frames =>
      counted restart (len frames) g
        (fun k => match frames !! k with
                  | Some fill => Yields (repeating length_actual fill) (S k) h
                  | None => Sticks
                  end)
        (Stops h)
  | ScrollingInstance sc =>
      counted restart (closure_cycles sc) g (scroll_body sc h) (Stops h)
  | BouncingInstance length_actual rs ls rds lds =>
      match bouncing_next length_actual rs ls rds lds g h with
      | Stops h' =>
          if restart then
            match bouncing_next length_actual rs ls rds lds 0%nat h' with
            | Stops _ => Sticks
            | o => o
            end
          else Stops h'
      | o => o
      end
  | CompoundInstance length_actual c ps =>
      counted restart c g
        (fun k => match draw (next true) ps h with
                  | Some (fills, h') =>
                      Yields (repeating length_actual (mjoin fills)) (S k) h'
                  | None => Sticks
                  end)
        (Stops h)
  end.

(** [spinner_player(x)]: a new generator object, not started. *)
Definition spinner_player (x : instance) (h : store) : player * store :=
  let '(l, h') := alloc (Player 0%nat) h in ((l, x), h').

(** [next(p)] on a player. *)
Definition player_next (p : player) (h : store) : option (str * store) :=
  match h !! p.1 with
  | Some (Player g) =>
      match next true p.2 g h with
      | Yields fill g' h' => Some (fill, <[p.1 := Player g']> h')
      | _ => None
      end
  | _ => None
  end.

(** *** Calling a factory *)

Fixpoint for_each {A B} (f : A -> store -> result (B * store)) (l : list A)
    (h : store) : result (list B * store) :=
  match l with
  | [] => Return ([], h)
  | x :: l' =>
      '(y, h) ← f x h;
      '(ys, h) ← for_each f l' h;
      Return (y :: ys, h)
  end.

(** The call of [window_impl] returns a new ribbon object; the closure
    refers to it. *)
Definition window (s : scroll) (h : store) : closure * store :=
  let '(l, h') := alloc (Ribbon (infinite_ribbon s)) h in
  ({| closure_cycles := scroll_cycles s; closure_ribbon := l |}, h').

(** The inner factory of a called-for scrolling factory: what it computes
    is as above, and nothing is read from the store. *)
Definition scrolling_bind (f : factory) (length_actual : option Z)
    (h : store) : result (closure * store) :=
  match f with
  | ScrollingFactory chars length block background right_ hiding overlay =>
      s ← scrolling_inner_factory chars length block background right_ hiding
            overlay length_actual;
      Return (window s h)
  | _ => Raise TypeError
  end.

Definition scroll_call (chars : str) (length : Z) (block : option Z)
    (blank : str) (right hiding : bool) (length_actual : option Z)
    (h : store) : result (closure * store) :=
  f ← call_scrolling_spinner_factory [VStr chars; VInt length]
        (scroll_keywords block blank right hiding);
  scrolling_bind f length_actual h.

Definition bouncing_inner_factory (right_chars : str) (length : Z)
    (block : option Z) (left_chars blank : str) (hiding : bool)
    (length_actual : option Z) (h : store) : result (instance * store) :=
  '(right_scroll, h) ←
    scroll_call right_chars length block blank true hiding length_actual h;
  '(left_scroll, h) ←
    scroll_call left_chars length block blank false hiding length_actual h;
  ratio ← ratio (Some length) length_actual;
  let length_actual := int_or length_actual length in
  right_block_size ← block_size block ratio right_chars;
  left_block_size ← block_size block ratio left_chars;
  let right_direction_size := direction_size hiding length_actual right_block_size in
  let left_direction_size := direction_size hiding length_actual left_block_size in
  Return (BouncingInstance length_actual right_scroll left_scroll
            right_direction_size left_direction_size, h).

(** [max(spinners, key=op_cycles)] *)
Definition longest (spinners : list instance) : result instance :=
  match spinners with
  | [] => Raise ValueError
  | s :: rest =>
      Return (foldl (fun best x => if cycles best <? cycles x then x else best)
                s rest)
  end.

(** [[spinner_player(x) for x in spinners]] *)
Fixpoint spinner_players (spinners : list instance) (h : store)
    : list player * store :=
  match spinners with
  | [] => ([], h)
  | x :: spinners' =>
      let '(p, h) := spinner_player x h in
      let '(ps, h) := spinner_players spinners' h in
      (p :: ps, h)
  end.

Definition compound_inner_factory
    (spinner_factories : list (option Z -> store -> result (instance * store)))
    (length_actual : option Z) (h : store) : result (instance * store) :=
  each_length ← each_length length_actual (len spinner_factories);
  '(spinners, h) ← for_each (fun factory => factory each_length)
                     spinner_factories h;
  longest ← longest spinners;
  let '(players, h) := spinner_players spinners h in
  Return (CompoundInstance length_actual (cycles longest) players, h).

(** [for _ in range(n): next(s)] *)
Fixpoint discard (n : nat) (s : player) (h : store) : result store :=
  match n with
  | O => Return h
  | S n' =>
      match player_next s h with
      | Some (_, h') => discard n' s h'
      | None => Hang
      end
  end.

(** [for i, s in enumerate(result.players): ...] *)
Fixpoint for_players (f : nat * player -> store -> result store)
    (l : list (nat * player)) (h : store) : result store :=
  match l with
  | [] => Return h
  | x :: l' => h ← f x h; for_players f l' h
  end.

(** The players are moved on in place: the instance returned is the
    compound one. *)
Definition delayed_inner_factory
    (spinner_factory : option Z -> store -> result (instance * store))
    (natural copies offset : Z) (length_actual : option Z) (h : store)
    : result (instance * store) :=
  copies_actual ← copies_actual natural copies length_actual;
  spinner_factories ← times spinner_factory copies_actual;
  '(result, h) ← compound_inner_factory spinner_factories length_actual h;
  h ← for_players (fun '(i, s) => discard (Z.to_nat (Z.of_nat i * offset)) s)
        (enumerate (players result)) h;
  Return (result, h).

(** [factory(length_actual)] in store [h]: the instance, and the store with
    the objects made for it. *)
Fixpoint inner_factory (f : factory)
    : option Z -> store -> result (instance * store) :=
  match f with
  | FrameFactory frames =>
      fun length_actual h => Return (FrameInstance length_actual frames, h)
  | ScrollingFactory _ _ _ _ _ _ _ =>
      fun length_actual h =>
        '(sc, h) ← scrolling_bind f length_actual h;
        Return (ScrollingInstance sc, h)
  | BouncingFactory right_chars length block left_chars blank hiding =>
      bouncing_inner_factory right_chars length block left_chars blank hiding
  | CompoundFactory spinner_factories =>
      compound_inner_factory (map inner_factory spinner_factories)
  | DelayedFactory spinner_factory copies offset =>
      delayed_inner_factory (inner_factory spinner_factory)
        (natural spinner_factory) copies offset
  end.

(** *** Generators of the program *)

(** A generator the program holds: made by calling an instance, or by
    [spinner_player] on it ([restarts]); its position is [None] once it has
    stopped. *)
Record generator := {
  of_instance : instance;
  restarts : bool;
  position : option gen
}.

Definition generator_of (restart : bool) (i : instance) : generator :=
  {| of_instance := i; restarts := restart; position := Some 0%nat |}.

(** [next(a)]: a frame, or [None] for [StopIteration]; no result at all
    when the call never returns. *)
Definition generator_next (a : generator) (h : store)
    : option (option str * generator * store) :=
  match position a with
  | None => Some (None, a, h)
  | Some g =>
      match next (restarts a) (of_instance a) g h with
      | Yields fill g' h' =>
          Some (Some fill,
                {| of_instance := of_instance a; restarts := restarts a;
                   position := Some g' |}, h')
      | Stops h' =>
          Some (None,
                {| of_instance := of_instance a; restarts := restarts a;
                   position := None |}, h')
      | Sticks => None
      end
  end.

(** A schedule of [next] calls on two generators, [true] for the first;
    the log pairs each call with what it gave. *)
Fixpoint play (schedule : list bool) (a b : generator) (h : store)
    : option (list (bool * option str)) :=
  match schedule with
  | [] => Some []
  | first :: schedule' =>
      '(o, c, h') ← generator_next (if first then a else b) h;
      log ← play schedule' (if first then c else a) (if first then b else c) h';
      Some ((first, o) :: log)
  end.

(** *** Instances as values *)

(** The objects an instance refers to. *)
Fixpoint footprint (i : instance) : list loc :=
  match i with
  | FrameInstance _ _ => []
  | ScrollingInstance sc => [closure_ribbon sc]
  | BouncingInstance _ rs ls _ _ => [closure_ribbon rs; closure_ribbon ls]
  | CompoundInstance _ _ ps =>
      (fix all (ps : list player) : list loc :=
         match ps with
         | [] => []
         | (l, i) :: ps' => l :: footprint i ++ all ps'
         end) ps
  end.

Definition scroll_of (h : store) (sc : closure) : option scroll :=
  match h !! closure_ribbon sc with
  | Some (Ribbon r) =>
      Some {| scroll_cycles := closure_cycles sc; infinite_ribbon := r |}
  | _ => None
  end.

(** The spinner of the sections above that an instance is in store [h]:
    its objects read off the store. *)
Fixpoint spinner_of (h : store) (i : instance) : option spinner :=
  match i with
  | FrameInstance length_actual frames => Some (FrameSpinner length_actual frames)
  | ScrollingInstance sc => ScrollingSpinner <$> scroll_of h sc
  | BouncingInstance length_actual rs ls rds lds =>
      rs' ← scroll_of h rs;
      ls' ← scroll_of h ls;
      Some (BouncingSpinner length_actual rs' ls' rds lds)
  | CompoundInstance length_actual c ps =>
      ps' ← (fix all (ps : list player) : option (list (spinner * gen)) :=
               match ps with
               | [] => Some []
               | (l, i) :: ps' =>
                   match h !! l with
                   | Some (Player g) =>
                       s ← spinner_of h i;
                       rest ← all ps';
                       Some ((s, g) :: rest)
                   | _ => None
                   end
               end) ps;
      Some (CompoundSpinner length_actual c ps')
  end.

(** The same, on the players of a compound instance. *)
Fixpoint footprints (ps : list player) : list loc :=
  match ps with
  | [] => []
  | (l, i) :: ps' => l :: footprint i ++ footprints ps'
  end.

Fixpoint players_of (h : store) (ps : list player)
    : option (list (spinner * gen)) :=
  match ps with
  | [] => Some []
  | (l, i) :: ps' =>
      match h !! l with
      | Some (Player g) =>
          s ← spinner_of h i;
          rest ← players_of h ps';
          Some ((s, g) :: rest)
      | _ => None
      end
  end.

(** Store [h'] is [h] but for the objects at [locs]. *)
Definition outside (locs : list loc) (h h' : store) : Prop :=
  forall l, l ∉ locs -> h' !! l = h !! l.

End Heap.

(** A step leaves the objects outside [locs] as they were. *)
Definition keeps (locs : list Heap.loc) (h : Heap.store) (o : Heap.outcome)
    : Prop :=
  match o with
  | Heap.Yields _ _ h' | Heap.Stops h' => Heap.outside locs h h'
  | Heap.Sticks => True
  end.

(** A step on an instance against the step on the spinner it is: the same
    frame, the same position, and the instance is then the spinner left. *)
Definition same_outcome (i : Heap.instance) (o : outcome) (o' : Heap.outcome)
    : Prop :=
  match o, o' with
  | Yield fill s g, Heap.Yields fill' g' h' =>
      fill' = fill /\ g' = g /\ Heap.spinner_of h' i = Some s
  | StopIteration s, Heap.Stops h' => Heap.spinner_of h' i = Some s
  | Stuck, Heap.Sticks => True
  | _, _ => False
  end.

(** A call of a factory in store [h] against the call above: the same
    error, or an instance that is the spinner returned, made of objects
    that are new and each referred to once, the objects of [h] being left
    as they were. *)
Definition same_result (h : Heap.store) (r : result spinner)
    (r' : result (Heap.instance * Heap.store)) : Prop :=
  match r, r' with
  | Return s, Return (i, h') =>
      Heap.spinner_of h' i = Some s /\
      NoDup (Heap.footprint i) /\
      (forall l, l ∈ Heap.footprint i -> h !! l = None) /\
      h ⊆ h'
  | Raise e, Raise e' => e' = e
  | Hang, Hang => True
  | _, _ => False
  end.

Definition same_factory (F : option Z -> result spinner)
    (F' : option Z -> Heap.store -> result (Heap.instance * Heap.store))
    : Prop :=
  forall la h, same_result h (F la) (F' la h).

(** ** Factories inside factories *)

(** Does a factory have a bouncing factory inside? *)
Fixpoint uses_bouncing (f : factory) : bool :=
  match f with
  | BouncingFactory _ _ _ _ _ _ => true
  | CompoundFactory fs => existsb uses_bouncing fs
  | DelayedFactory f _ _ => uses_bouncing f
  | _ => false
  end.
(** ** Elementary facts *)

Lemma bind_Return {A B} (m : result A) (k : A -> result B) (b : B) :
  (x ← m; k x) = Return b -> exists a, m = Return a /\ k a = Return b.
Proof. destruct m as [a| |]; simpl; intros H; try discriminate. eauto. Qed.

Lemma bind_Raise {A B} (m : result A) (k : A -> result B) (e : exn) :
  (x ← m; k x) = Raise e ->
  m = Raise e \/ exists a, m = Return a /\ k a = Raise e.
Proof.
  destruct m as [a|e'|]; simpl; intros H.
  - right. eauto.
  - left. by injection H as ->.
  - discriminate H.
Qed.

Ltac bind_inv H :=
  let a := fresh "a" in
  let Ha := fresh "H" a in
  apply bind_Return in H; destruct H as (a & Ha & H).

Lemma truthy_spec (x : option Z) :
  truthy x = true <-> exists z, x = Some z /\ z <> 0.
Proof.
  destruct x as [z|]; simpl.
  - rewrite negb_true_iff, Z.eqb_neq. split; [eauto | intros (? & [= <-] & ?); done].
  - split; [done | intros (? & [=] & _)].
Qed.

Lemma int_or_truthy (x : option Z) (y z : Z) :
  x = Some z -> z <> 0 -> int_or x y = z.
Proof.
  intros -> Hz. unfold int_or. simpl.
  destruct (Z.eqb_spec z 0); simpl; [lia | done].
Qed.

Lemma int_or_falsy (x : option Z) (y : Z) :
  truthy x = false -> int_or x y = y.
Proof. unfold int_or. by intros ->. Qed.


Lemma len_app {A} (l k : list A) : len (l ++ k) = len l + len k.
Proof. unfold len. rewrite length_app. lia. Qed.

Lemma times_Return {A} (x : A) (n : Z) (l : list A) :
  times x n = Return l ->
  index_sized n = true /\ l = replicate (Z.to_nat n) x.
Proof. unfold times. destruct (index_sized n); [|done]. by intros [= <-]. Qed.


Lemma for_each_Return {A B} (f : A -> result B) (l : list A) (r : list B) :
  for_each f l = Return r <-> Forall2 (fun x y => f x = Return y) l r.
Proof.
  revert r. induction l as [|x l IH]; intros r; simpl.
  - split; [intros [= <-]; constructor | by inversion 1].
  - split.
    + intros H. bind_inv H. bind_inv H. injection H as <-.
      constructor; [done | by apply IH].
    + inversion 1 as [|? y ? r' Hx Hl]; subst.
      rewrite Hx; simpl. apply IH in Hl. rewrite Hl. done.
Qed.

(** ** Players restart their spinner *)

Lemma bouncing_run_stop fuel la rs ls rds lds k s' :
  bouncing_run fuel la rs ls rds lds k = StopIteration s' ->
  exists rs' ls', s' = BouncingSpinner la rs' ls' rds lds.
Proof.
  revert rs ls k. induction fuel as [|fuel IH]; intros rs ls k; simpl.
  - intros [= <-]. eauto.
  - repeat case_match; try done; eauto.
Qed.

(** [next] on a player is [next] on its current generator and, when that one
    is exhausted, on a fresh generator of the spinner as it then is; a
    spinner that yields nothing keeps the player spinning forever. *)
Lemma next_restart (s : spinner) (g : gen) :
  next true s g =
  match next false s g with
  | Yield fill s' g' => Yield fill s' g'
  | StopIteration s' =>
      match next false s' 0%nat with
      | Yield fill s'' g' => Yield fill s'' g'
      | _ => Stuck
      end
  | Stuck => Stuck
  end.
Proof.
  destruct s as [la frames|sc|la rs ls rds lds|la c ps].
  - simpl. unfold counted. destruct (Z.ltb_spec (Z.of_nat g) (len frames)).
    + by repeat case_match.
    + simpl. unfold counted. change (Z.of_nat 0) with 0.
      destruct (Z.ltb_spec 0 (len frames)); simpl; [|done].
      by repeat case_match.
  - simpl. unfold counted. destruct (Z.ltb_spec (Z.of_nat g) (scroll_cycles sc)).
    + done.
    + simpl. unfold counted. change (Z.of_nat 0) with 0.
      destruct (Z.ltb_spec 0 (scroll_cycles sc)); simpl; [|done].
      done.
  - cbn [next].
    destruct (bouncing_next la rs ls rds lds g) as [fill s' g'|s'|] eqn:E; [done| |done].
    apply bouncing_run_stop in E as (rs' & ls' & ->). cbn [next].
    destruct (bouncing_next la rs' ls' rds lds 0%nat) as [fill s'' g'|s''|] eqn:E';
      [done| |done].
    by apply bouncing_run_stop in E' as (rs'' & ls'' & ->).
  - simpl. unfold counted. destruct (Z.ltb_spec (Z.of_nat g) c).
    + by repeat case_match.
    + simpl. unfold counted. change (Z.of_nat 0) with 0.
      destruct (Z.ltb_spec 0 c); simpl; [|done].
      by repeat case_match.
Qed.

(** ** Signs of floating-point results *)

Import PyFloat.

Lemma binary_round_aux_sign s m e l :
  is_nan (binary_round_aux prec emax s m e l) = false ->
  sign (binary_round_aux prec emax s m e l) = s.
Proof.
  unfold binary_round_aux.
  destruct (shr_fexp prec emax m e l) as [mrs' e'].
  destruct (shr_fexp prec emax _ e' loc_Exact) as [mrs'' e''].
  destruct (shr_m mrs''); [done| |done].
  by destruct (e'' <=? emax - prec).
Qed.

Lemma of_int_sign z x :
  of_int z = Return x -> is_nan x = false -> sign x = (z <? 0).
Proof.
  unfold of_int, binary_normalize, binary_round.
  destruct z as [|p|p]; simpl.
  - by intros [= <-].
  - destruct (shl_align p 0 _) as [mz ez].
    pose proof (binary_round_aux_sign false (Z.pos mz) ez loc_Exact) as H.
    destruct (binary_round_aux prec emax false (Z.pos mz) ez loc_Exact);
      simpl; intros [= <-]; auto.
  - destruct (shl_align p 0 _) as [mz ez].
    pose proof (binary_round_aux_sign true (Z.pos mz) ez loc_Exact) as H.
    destruct (binary_round_aux prec emax true (Z.pos mz) ez loc_Exact);
      simpl; intros [= <-]; auto.
Qed.

Lemma SFdiv_sign x y :
  is_nan (SFdiv prec emax x y) = false ->
  sign (SFdiv prec emax x y) = xorb (sign x) (sign y).
Proof.
  destruct x as [sx|sx| |sx mx ex], y as [sy|sy| |sy my ey]; simpl; try done.
  destruct (SFdiv_core_binary prec emax (Z.pos mx) ex (Z.pos my) ey) as [[mz ez] lz].
  apply binary_round_aux_sign.
Qed.

Lemma SFmul_sign x y :
  is_nan (SFmul prec emax x y) = false ->
  sign (SFmul prec emax x y) = xorb (sign x) (sign y).
Proof.
  destruct x as [sx|sx| |sx mx ex], y as [sy|sy| |sy my ey]; simpl; try done.
  apply binary_round_aux_sign.
Qed.

Lemma SFdiv_nan_l y : SFdiv prec emax S754_nan y = S754_nan.
Proof. by destruct y. Qed.

Lemma SFmul_nan_l y : SFmul prec emax S754_nan y = S754_nan.
Proof. by destruct y. Qed.

Lemma SFmul_nan_r x : SFmul prec emax x S754_nan = S754_nan.
Proof. by destruct x. Qed.

Lemma SFdiv_nan_r x : SFdiv prec emax x S754_nan = S754_nan.
Proof. by destruct x. Qed.

Lemma numerator_pos m e : 0 < numerator m e.
Proof.
  unfold numerator. rewrite Z.shiftl_mul_pow2 by lia.
  apply Z.mul_pos_pos; [lia|]. apply Z.pow_pos_nonneg; lia.
Qed.

Lemma denominator_pos e : 0 < denominator e.
Proof.
  unfold denominator. rewrite Z.shiftl_mul_pow2 by lia.
  rewrite Z.mul_1_l. apply Z.pow_pos_nonneg; lia.
Qed.

Lemma trunc_Return x n :
  trunc x = Return n -> is_nan x = false /\ (sign x = false -> 0 <= n).
Proof.
  destruct x as [s|s| |s m e]; simpl; try done.
  - intros [= <-]. split; [done | lia].
  - intros [= <-]. split; [done|]. intros ->.
    apply Z.div_pos; [pose proof (numerator_pos m e); lia | apply denominator_pos].
Qed.

Lemma ceil_Return x n :
  ceil x = Return n -> is_nan x = false /\ (sign x = false -> 0 <= n).
Proof.
  destruct x as [s|s| |s m e]; simpl; try done.
  - intros [= <-]. split; [done | lia].
  - intros [= <-]. split; [done|]. intros ->.
    pose proof (numerator_pos m e). pose proof (denominator_pos e).
    assert (- numerator m e / denominator e <= 0); [|lia].
    apply Z.div_le_upper_bound; lia.
Qed.

Lemma finite_or_overflow_Return x y :
  finite_or_overflow x = Return y -> y = x.
Proof. destruct x; simpl; by intros [= <-]. Qed.

(** [math.ceil(a / b)] of non-negative ints is not negative. *)
Lemma ceil_true_div_nonneg a b q c :
  0 <= a -> 0 <= b ->
  int_true_div a b = Return q -> ceil q = Return c -> 0 <= c.
Proof.
  intros Ha Hb Hq Hc. apply ceil_Return in Hc as [Hnan Hc]. apply Hc.
  unfold int_true_div in Hq. destruct (b =? 0); [done|].
  apply finite_or_overflow_Return in Hq as ->.
  rewrite SFdiv_sign by done.
  destruct a, b; simpl; try done; lia.
Qed.

Lemma each_length_nonneg la n each :
  0 <= default 0 la -> 0 <= n ->
  each_length la n = Return each -> 0 <= default 0 each.
Proof.
  unfold each_length. intros Hla Hn H.
  destruct (truthy la); [|by injection H as <-].
  bind_inv H. bind_inv H. injection H as <-. simpl.
  by apply (ceil_true_div_nonneg _ _ _ _ Hla Hn Ha).
Qed.

(** With nothing negative, [int((block or 0) * ratio)] is not negative. *)
Lemma ratio_sign length la r :
  0 <= default 0 length -> 0 <= default 0 la ->
  ratio length la = Return r ->
  match r with
  | Int z => z = 1
  | Float x => is_nan x = false -> sign x = false
  end.
Proof.
  unfold ratio. intros Hl Hla H.
  destruct (truthy length && truthy la); [|by injection H as <-].
  bind_inv H. bind_inv H. injection H as <-.
  unfold div_int in Ha0. bind_inv Ha0.
  assert (a0 = SFdiv prec emax a a1) as -> by (destruct a1; by simplify_eq).
  intros Hnan. rewrite SFdiv_sign by done.
  assert (is_nan a = false) as Hna.
  { destruct a; try done; by rewrite SFdiv_nan_l in Hnan. }
  assert (is_nan a1 = false) as Hna1.
  { destruct a1; try done; by rewrite SFdiv_nan_r in Hnan. }
  rewrite (of_int_sign _ _ Ha Hna), (of_int_sign _ _ Ha1 Hna1).
  destruct (Z.ltb_spec (default 0 la) 0), (Z.ltb_spec (default 0 length) 0);
    simpl; try done; lia.
Qed.

Lemma block_size_pos block r chars bs length la :
  chars <> [] -> 0 <= default 0 block ->
  0 <= default 0 length -> 0 <= default 0 la ->
  ratio length la = Return r ->
  block_size block r chars = Return bs -> 1 <= bs.
Proof.
  intros Hc Hb Hl Hla Hr H. unfold block_size in H.
  bind_inv H. bind_inv H. injection H as <-.
  assert (0 <= int_or block 0) as Hb'.
  { unfold int_or. destruct (truthy block); lia. }
  assert (0 <= a0) as Hn.
  { pose proof (ratio_sign _ _ _ Hl Hla Hr) as Hs.
    destruct r as [z|x]; simpl in Ha.
    - injection Ha as <-. simpl in Ha0. injection Ha0 as <-. subst. lia.
    - bind_inv Ha. injection Ha as <-. simpl in Ha0.
      apply trunc_Return in Ha0 as [Hnan Hn]. apply Hn.
      unfold int_mul in Ha1. bind_inv Ha1. injection Ha1 as <-.
      rewrite SFmul_sign by done.
      assert (is_nan a = false) as Hna.
      { destruct a; try done; by rewrite SFmul_nan_l in Hnan. }
      assert (is_nan x = false) as Hnx.
      { destruct x; try done; by rewrite SFmul_nan_r in Hnan. }
      rewrite (of_int_sign _ _ Ha Hna), (Hs Hnx).
      by destruct (Z.ltb_spec (int_or block 0) 0); [lia|]. }
  destruct (Z.eqb_spec a0 0); [|lia].
  destruct chars; [done|]. unfold len; simpl. lia.
Qed.

(** ** Rounding to double precision *)

Lemma fexp_double e : fexp prec emax e = Z.max (e - 53) (-1074).
Proof. reflexivity. Qed.

Lemma digits2_pos_size p : digits2_pos p = Pos.size p.
Proof. induction p as [p IH|p IH|]; simpl; by rewrite ?IH. Qed.

Lemma Zdigits2_log2 m : 0 < m -> Zdigits2 m = Z.log2 m + 1.
Proof.
  destruct m as [|p|p]; try lia. intros _. simpl.
  rewrite digits2_pos_size. destruct p as [p|p|]; simpl; lia.
Qed.

Lemma Zdigits2_nonneg m : 0 <= Zdigits2 m.
Proof. destruct m; simpl; lia. Qed.

Lemma Zdigits2_bounds m :
  0 < m -> 2 ^ (Zdigits2 m - 1) <= m < 2 ^ Zdigits2 m.
Proof.
  intros Hm. rewrite Zdigits2_log2 by done.
  replace (Z.log2 m + 1 - 1) with (Z.log2 m) by lia.
  replace (Z.log2 m + 1) with (Z.succ (Z.log2 m)) by lia.
  by apply Z.log2_spec.
Qed.

Lemma Zdigits2_unique m k :
  2 ^ (k - 1) <= m < 2 ^ k -> 1 <= k -> Zdigits2 m = k.
Proof.
  intros Hm Hk. assert (0 < m).
  { pose proof (Z.pow_pos_nonneg 2 (k - 1)). lia. }
  rewrite Zdigits2_log2 by done.
  rewrite (Z.log2_unique m (k - 1)); [lia | lia |].
  by replace (Z.succ (k - 1)) with k by lia.
Qed.

Lemma Zdigits2_le m k : 0 <= m < 2 ^ k -> 0 <= k -> Zdigits2 m <= k.
Proof.
  intros [Hm Hlt] Hk. destruct (Z.eq_dec m 0) as [->|]; [done|].
  destruct (Zdigits2_bounds m ltac:(lia)) as [Hlo _].
  destruct (Z.le_gt_cases (Zdigits2 m) k) as [|Hgt]; [done|].
  assert (2 ^ k <= 2 ^ (Zdigits2 m - 1)) by (apply Z.pow_le_mono_r; lia). lia.
Qed.

Lemma Zdigits2_shift m n :
  0 <= m -> 0 <= n -> Zdigits2 (m / 2 ^ n) = Z.max 0 (Zdigits2 m - n).
Proof.
  intros Hm Hn. destruct (Z.eq_dec m 0) as [->|Hne].
  { rewrite Z.div_0_l by (pose proof (Z.pow_pos_nonneg 2 n); lia). simpl. lia. }
  destruct (Zdigits2_bounds m ltac:(lia)) as [Hlo Hhi].
  set (d := Zdigits2 m) in *.
  assert (0 < 2 ^ n) by (apply Z.pow_pos_nonneg; lia).
  destruct (Z.le_gt_cases d n) as [Hdn|Hdn].
  - rewrite Z.div_small; [simpl; lia|]. split; [lia|].
    assert (2 ^ d <= 2 ^ n) by (apply Z.pow_le_mono_r; lia). lia.
  - rewrite Z.max_r by lia. apply Zdigits2_unique; [|lia]. split.
    + apply Z.div_le_lower_bound; [done|].
      rewrite <- Z.pow_add_r by lia. by replace (n + (d - n - 1)) with (d - 1) by lia.
    + apply Z.div_lt_upper_bound; [done|].
      rewrite <- Z.pow_add_r by lia. by replace (n + (d - n)) with d by lia.
Qed.

Lemma shr_1_m mrs : 0 <= shr_m mrs -> shr_m (shr_1 mrs) = shr_m mrs / 2.
Proof.
  destruct mrs as [m r s]. cbn [shr_m]. intros Hm.
  destruct m as [|[p|p|]|p]; cbn [shr_1 shr_m]; try lia; try done.
  - rewrite Pos2Z.inj_xI. apply Z.div_unique with 1; lia.
  - rewrite Pos2Z.inj_xO. apply Z.div_unique with 0; lia.
Qed.

Lemma iter_pos_shr_1 p mrs :
  0 <= shr_m mrs ->
  shr_m (SpecFloat.iter_pos shr_1 p mrs) = shr_m mrs / 2 ^ Z.pos p.
Proof.
  revert mrs. induction p as [p IH|p IH|]; intros mrs Hm; cbn [SpecFloat.iter_pos].
  - assert (0 <= shr_m (shr_1 mrs)) as H1
      by (rewrite shr_1_m by done; apply Z.div_pos; lia).
    assert (0 <= shr_m (SpecFloat.iter_pos shr_1 p (shr_1 mrs))) as H2
      by (rewrite IH by done; apply Z.div_pos; [done | apply Z.pow_pos_nonneg; lia]).
    rewrite IH, IH, shr_1_m by done.
    rewrite !Z.div_div by (try apply Z.pow_pos_nonneg; lia).
    f_equal. change 2 with (2 ^ 1) at 1. rewrite <- !Z.pow_add_r by lia.
    f_equal. lia.
  - assert (0 <= shr_m (SpecFloat.iter_pos shr_1 p mrs)) as H2
      by (rewrite IH by done; apply Z.div_pos; [done | apply Z.pow_pos_nonneg; lia]).
    rewrite IH, IH by done.
    rewrite !Z.div_div by (try apply Z.pow_pos_nonneg; lia).
    f_equal. rewrite <- Z.pow_add_r by lia. f_equal. lia.
  - by rewrite shr_1_m.
Qed.

Lemma shr_record_of_loc_m m l : shr_m (shr_record_of_loc m l) = m.
Proof. by destruct l as [|[]]. Qed.

(** [shr_fexp] brings a mantissa to at most 53 bits by dropping low bits. *)
Lemma shr_fexp_spec m e l mrs e' :
  0 <= m ->
  shr_fexp prec emax m e l = (mrs, e') ->
  let n := Z.max (Zdigits2 m + e - 53) (-1074) - e in
  (n <= 0 -> e' = e /\ shr_m mrs = m) /\
  (0 < n -> e' = e + n /\ shr_m mrs = m / 2 ^ n).
Proof.
  intros Hm. unfold shr_fexp, shr. rewrite fexp_double.
  destruct (Z.max (Zdigits2 m + e - 53) (-1074) - e) as [|p|p] eqn:En;
    intros [= <- <-]; simpl; (split; [intros ?|intros ?]); try lia.
  - by rewrite shr_record_of_loc_m.
  - split; [done|]. rewrite iter_pos_shr_1; by rewrite shr_record_of_loc_m.
  - by rewrite shr_record_of_loc_m.
Qed.

Lemma round_nearest_even_cases m l :
  round_nearest_even m l = m \/ round_nearest_even m l = m + 1.
Proof. destruct l as [|[]]; simpl; auto. destruct (Z.even m); auto. Qed.

(** [binary_round_aux] in arithmetic terms: drop bits down to precision,
    round up or not, drop one more bit if rounding carried. *)
Lemma binary_round_aux_spec s m e l :
  0 <= m ->
  exists m1 m2 e1 e2,
    e1 = Z.max e (Z.max (Zdigits2 m + e - 53) (-1074)) /\
    (m1 = m / 2 ^ (e1 - e) \/ m1 = m / 2 ^ (e1 - e) + 1) /\
    e2 = Z.max e1 (Z.max (Zdigits2 m1 + e1 - 53) (-1074)) /\
    m2 = m1 / 2 ^ (e2 - e1) /\
    binary_round_aux prec emax s m e l =
    match m2 with
    | Z0 => S754_zero s
    | Zpos p => if e2 <=? 971 then S754_finite s p e2 else S754_infinity s
    | Zneg _ => S754_nan
    end.
Proof.
  intros Hm. unfold binary_round_aux.
  destruct (shr_fexp prec emax m e l) as [mrs' e1] eqn:E1.
  destruct (shr_fexp prec emax
              (round_nearest_even (shr_m mrs') (loc_of_shr_record mrs')) e1 loc_Exact)
    as [mrs'' e2] eqn:E2.
  apply shr_fexp_spec in E1; [|done].
  assert (e1 = Z.max e (Z.max (Zdigits2 m + e - 53) (-1074)) /\
          shr_m mrs' = m / 2 ^ (e1 - e)) as [He1 Hm1].
  { destruct E1 as [E1a E1b].
    destruct (Z.le_gt_cases (Z.max (Zdigits2 m + e - 53) (-1074) - e) 0) as [Hn|Hn].
    - destruct (E1a Hn) as [-> ->]. split; [lia|].
      by rewrite Z.sub_diag, Z.pow_0_r, Z.div_1_r.
    - destruct (E1b Hn) as [-> ->]. split; [lia|]. do 2 f_equal. lia. }
  set (m1 := round_nearest_even (shr_m mrs') (loc_of_shr_record mrs')) in *.
  assert (0 <= shr_m mrs') as Hm1pos.
  { rewrite Hm1. apply Z.div_pos; [done|]. apply Z.pow_pos_nonneg; lia. }
  assert (0 <= m1) as Hm1'.
  { destruct (round_nearest_even_cases (shr_m mrs') (loc_of_shr_record mrs'));
      unfold m1; lia. }
  apply shr_fexp_spec in E2; [|done].
  assert (e2 = Z.max e1 (Z.max (Zdigits2 m1 + e1 - 53) (-1074)) /\
          shr_m mrs'' = m1 / 2 ^ (e2 - e1)) as [He2 Hm2].
  { destruct E2 as [E2a E2b].
    destruct (Z.le_gt_cases (Z.max (Zdigits2 m1 + e1 - 53) (-1074) - e1) 0) as [Hn|Hn].
    - destruct (E2a Hn) as [-> ->]. split; [lia|].
      by rewrite Z.sub_diag, Z.pow_0_r, Z.div_1_r.
    - destruct (E2b Hn) as [-> ->]. split; [lia|]. do 2 f_equal. lia. }
  exists m1, (shr_m mrs''), e1, e2. split; [done|]. split.
  { rewrite <- Hm1. apply round_nearest_even_cases. }
  split; [done|]. split; [done|]. done.
Qed.


Lemma Zdigits2_succ m : 0 <= m -> Zdigits2 (m + 1) <= Zdigits2 m + 1.
Proof.
  intros Hm. destruct (Z.eq_dec m 0) as [->|]; [done|].
  destruct (Zdigits2_bounds m ltac:(lia)) as [_ Hhi].
  pose proof (Zdigits2_nonneg m).
  apply Zdigits2_le; [|lia]. split; [lia|].
  rewrite Z.pow_add_r, Z.pow_1_r by lia. lia.
Qed.

(** Below the top binade nothing overflows. *)
Lemma binary_round_aux_no_overflow s m e l :
  0 <= m -> Zdigits2 m + e <= 1023 -> e <= 971 ->
  match binary_round_aux prec emax s m e l with
  | S754_zero _ | S754_finite _ _ _ => True
  | _ => False
  end.
Proof.
  intros Hm Hd He.
  destruct (binary_round_aux_spec s m e l Hm)
    as (m1 & m2 & e1 & e2 & He1 & Hm1 & He2 & Hm2 & ->).
  assert (0 < 2 ^ (e1 - e)) by (apply Z.pow_pos_nonneg; lia).
  assert (0 <= m / 2 ^ (e1 - e)) as Hq by (by apply Z.div_pos).
  pose proof (Zdigits2_shift m (e1 - e) Hm ltac:(lia)) as Hs.
  assert (Zdigits2 m1 <= Z.max 0 (Zdigits2 m - (e1 - e)) + 1) as Hd1.
  { destruct Hm1 as [-> | ->]; [lia|].
    etrans; [by apply Zdigits2_succ|]. lia. }
  assert (0 <= m2).
  { rewrite Hm2. apply Z.div_pos; [lia | apply Z.pow_pos_nonneg; lia]. }
  destruct m2; [done| |lia].
  destruct (Z.leb_spec e2 971); [done|]. lia.
Qed.

Lemma Zdigits2_ge m k : 2 ^ (k - 1) <= m -> 1 <= k -> k <= Zdigits2 m.
Proof.
  intros Hm Hk. assert (0 < m) by (pose proof (Z.pow_pos_nonneg 2 (k - 1)); lia).
  destruct (Zdigits2_bounds m ltac:(done)) as [_ Hhi].
  destruct (Z.le_gt_cases k (Zdigits2 m)) as [|Hlt]; [done|].
  assert (2 ^ Zdigits2 m <= 2 ^ (k - 1))
    by (apply Z.pow_le_mono_r; pose proof (Zdigits2_nonneg m); lia).
  lia.
Qed.

(** A 53-bit mantissa in range is kept as it is. *)
Lemma binary_round_aux_exact s p e :
  Zdigits2 (Z.pos p) = 53 -> -1074 <= e <= 971 ->
  binary_round_aux prec emax s (Z.pos p) e loc_Exact = S754_finite s p e.
Proof.
  intros Hd He. unfold binary_round_aux, shr_fexp.
  rewrite Hd, fexp_double.
  replace (Z.max (53 + e - 53) (-1074) - e) with 0 by lia.
  cbn [shr shr_record_of_loc loc_of_shr_record shr_m round_nearest_even].
  rewrite Hd, fexp_double.
  replace (Z.max (53 + e - 53) (-1074) - e) with 0 by lia.
  cbn [shr shr_record_of_loc shr_m].
  change (emax - prec) with 971. by destruct (Z.leb_spec e 971); [|lia].
Qed.

(** Twice a 53-bit mantissa, one binade lower, is that mantissa. *)
Lemma binary_round_aux_double s p e :
  Zdigits2 (Z.pos p) = 53 -> -1073 <= e <= 971 ->
  binary_round_aux prec emax s (Z.pos p~0) (e - 1) loc_Exact = S754_finite s p e.
Proof.
  intros Hd He. unfold binary_round_aux, shr_fexp.
  assert (Zdigits2 (Z.pos p~0) = 54) as Hd'.
  { simpl in *. rewrite Pos2Z.inj_succ. lia. }
  rewrite Hd', fexp_double.
  replace (Z.max (54 + (e - 1) - 53) (-1074) - (e - 1)) with 1 by lia.
  cbn [shr SpecFloat.iter_pos shr_1 shr_record_of_loc loc_of_shr_record shr_m
       round_nearest_even orb].
  rewrite Hd, fexp_double.
  replace (Z.max (53 + (e - 1 + 1) - 53) (-1074) - (e - 1 + 1)) with 0 by lia.
  cbn [shr shr_record_of_loc shr_m].
  change (emax - prec) with 971. replace (e - 1 + 1) with e by lia.
  by destruct (Z.leb_spec e 971); [|lia].
Qed.

Lemma Pos_iter_xO p k : Z.pos (Pos.iter xO p k) = Z.pos p * 2 ^ Z.pos k.
Proof.
  induction k as [|k IH] using Pos.peano_ind.
  - simpl. lia.
  - rewrite Pos.iter_succ, Pos2Z.inj_xO, IH, Pos2Z.inj_succ, Z.pow_succ_r by lia.
    lia.
Qed.


Lemma of_int_from_int z y :
  of_int z = Return y -> z <> 0 -> from_int y /\ sign y = (z <? 0).
Proof.
  intros H Hz.
  assert (exists (s : bool) p,
            y = binary_round prec emax s p 0 /\
            (forall s', y <> S754_infinity s') /\
            (z <? 0) = s)
    as (s & p & Hy & Hfin & Hs).
  { unfold of_int, binary_normalize in H.
    destruct z as [|p|p]; [done| |].
    - exists false, p.
      destruct (binary_round prec emax false p 0); simpl in H; try done;
        injection H as <-; repeat split; done.
    - exists true, p.
      destruct (binary_round prec emax true p 0); simpl in H; try done;
        injection H as <-; repeat split; done. }
  rewrite Hs. clear H Hz Hs. unfold binary_round in Hy.
  rewrite fexp_double in Hy.
  pose proof (Zdigits2_bounds (Z.pos p) ltac:(lia)) as [Hlo Hhi].
  set (d := Zdigits2 (Z.pos p)) in *.
  assert (1 <= d) by (unfold d; simpl; lia).
  change (Z.pos (digits2_pos p)) with d in Hy.
  replace (Z.max (d + 0 - 53) (-1074)) with (d - 53) in Hy by lia.
  unfold shl_align in Hy.
  destruct (d - 53 - 0) as [|k|k] eqn:Ek.
  - (* exactly 53 bits *)
    rewrite binary_round_aux_exact in Hy by (fold d; lia).
    subst y. cbn [from_int sign]. fold d. split; [|done]. repeat split; lia.
  - (* more than 53 bits: the low ones are rounded away *)
    destruct (binary_round_aux_spec s (Z.pos p) 0 loc_Exact ltac:(lia))
      as (m1 & m2 & e1 & e2 & He1 & Hm1 & He2 & Hm2 & Hr).
    fold d in He1. replace e1 with (d - 53) in * by lia.
    replace (d - 53 - 0) with (d - 53) in * by lia.
    pose proof (Zdigits2_shift (Z.pos p) (d - 53) ltac:(lia) ltac:(lia)) as Hd1.
    fold d in Hd1. replace (Z.max 0 (d - (d - 53))) with 53 in Hd1 by lia.
    set (q := Z.pos p / 2 ^ (d - 53)) in *.
    assert (0 < q) as Hq.
    { destruct (Z.le_gt_cases q 0); [|done].
      assert (0 <= q) by (apply Z.div_pos; [lia | apply Z.pow_pos_nonneg; lia]).
      assert (q = 0) as E by lia. by rewrite E in Hd1. }
    destruct (Zdigits2_bounds q Hq) as [Hqlo Hqhi]. rewrite Hd1 in Hqlo, Hqhi.
    assert (Zdigits2 m1 = 53 \/ (Zdigits2 m1 = 54 /\ m1 = 2 ^ 53)) as Hdm1.
    { destruct Hm1 as [-> | ->]; [by left|].
      destruct (Z.eq_dec (q + 1) (2 ^ 53)) as [E|E].
      - right. split; [|done]. rewrite E. done.
      - left. apply Zdigits2_unique; lia. }
    assert (Zdigits2 m2 = 53 /\ e2 = d - 53 + (Zdigits2 m1 - 53) /\ 0 < m2)
      as (Hdm2 & He2' & Hm2pos).
    { destruct Hdm1 as [Hd53 | [Hd54 ->]].
      - rewrite Hd53 in He2. replace e2 with (d - 53) in * by lia.
        rewrite Z.sub_diag, Z.pow_0_r, Z.div_1_r in Hm2. subst m2. lia.
      - change (Zdigits2 (2 ^ 53)) with 54 in *.
        replace e2 with (d - 53 + 1) in * by lia.
        replace (d - 53 + 1 - (d - 53)) with 1 in Hm2 by lia.
        subst m2. split; [done | split; [lia | done]]. }
    destruct m2 as [|p2|p2]; [lia| |lia].
    rewrite Hr in Hy. destruct (Z.leb_spec e2 971).
    + subst y. cbn [from_int sign]. split; [|done]. repeat split; lia.
    + by destruct (Hfin s).
  - (* fewer than 53 bits: shifted up, exact *)
    assert (Z.pos k = 53 - d) as Hk by lia.
    assert (Zdigits2 (Z.pos (Pos.iter xO p k)) = 53) as Hdk.
    { rewrite Pos_iter_xO, Hk. apply Zdigits2_unique; [|lia]. split.
      - replace (53 - 1) with ((d - 1) + (53 - d)) by lia.
        rewrite Z.pow_add_r by lia. apply Z.mul_le_mono_nonneg_r; [|done].
        apply Z.pow_nonneg; lia.
      - replace 53 with (d + (53 - d)) at 2 by lia.
        rewrite Z.pow_add_r by lia. apply Z.mul_lt_mono_pos_r; [|done].
        apply Z.pow_pos_nonneg; lia. }
    rewrite binary_round_aux_exact in Hy by (done || lia).
    subst y. cbn [from_int sign]. split; [|done]. split; [done|]. split; [lia|].
    destruct (Z.eq_dec d 1) as [Hd1|]; [right | left; lia].
    split; [|lia].
    assert (Z.pos p = 1) as Hp by (rewrite Hd1 in Hhi, Hlo; simpl in *; lia).
    assert (k = 52%positive) as -> by lia.
    assert (p = 1%positive) as -> by lia. done.
Qed.

(** Dividing a double made from an int by another one neither overflows
    nor gives NaN. *)
Lemma SFdiv_from_int x y :
  from_int x -> from_int y ->
  match SFdiv prec emax x y with
  | S754_zero _ | S754_finite _ _ _ => True
  | _ => False
  end.
Proof.
  destruct x as [| | |sx mx ex]; try done.
  destruct y as [| | |sy my ey]; try done.
  intros (Hdx & Hex & Hlx) (Hdy & Hey & Hly). cbn [SFdiv].
  unfold SFdiv_core_binary. rewrite Hdx, Hdy, fexp_double.
  replace (53 + ex - (53 + ey) - 53) with (ex - ey - 53) by lia.
  set (e' := Z.min (Z.max (ex - ey - 53) (-1074)) (ex - ey)).
  set (s := ex - ey - e').
  assert (0 <= s) as Hs by (unfold s, e'; lia).
  set (m' := match s with
             | 0 => Z.pos mx
             | Z.pos _ => Z.shiftl (Z.pos mx) s
             | Z.neg _ => 0
             end).
  assert (m' = Z.pos mx * 2 ^ s) as Hm'.
  { unfold m'. destruct s as [|k|k] eqn:Es; [lia| |lia].
    by rewrite Z.shiftl_mul_pow2. }
  destruct (Z.div_eucl m' (Z.pos my)) as [q r] eqn:Ediv.
  assert (q = m' / Z.pos my) as Hq by (unfold Z.div; by rewrite Ediv).
  assert (r = m' mod Z.pos my) as Hr by (unfold Z.modulo; by rewrite Ediv).
  destruct (Zdigits2_bounds (Z.pos mx) ltac:(lia)) as [Hxlo Hxhi].
  destruct (Zdigits2_bounds (Z.pos my) ltac:(lia)) as [Hylo Hyhi].
  rewrite Hdx in Hxlo, Hxhi. rewrite Hdy in Hylo, Hyhi.
  assert (0 < 2 ^ s) as H2s by (apply Z.pow_pos_nonneg; lia).
  assert (0 <= q) as Hq0.
  { rewrite Hq. apply Z.div_pos; [|lia]. rewrite Hm'. lia. }
  destruct Hly as [Hly | [-> ->]].
  - (* the divisor is at least two *)
    apply binary_round_aux_no_overflow; [done| |unfold e'; lia].
    assert (Zdigits2 q <= s + 1) as Hdq.
    { apply Zdigits2_le; [|lia]. split; [done|]. rewrite Hq.
      apply Z.div_lt_upper_bound; [lia|]. rewrite Hm'.
      rewrite Z.pow_add_r, Z.pow_1_r by lia.
      change (2 ^ (53 - 1)) with (2 ^ 52) in Hylo.
      change (2 ^ 53) with (2 ^ 52 * 2) in Hxhi. nia. }
    unfold s in Hdq. lia.
  - (* the divisor is one *)
    assert (e' = ex - 1) as He' by (unfold e'; lia).
    assert (s = 53) as Hs53 by (unfold s; lia).
    rewrite Hs53 in Hm'.
    assert (q = Z.pos mx~0 /\ r = 0) as [-> ->].
    { rewrite Hq, Hr, Hm'. change (2 ^ 53) with (2 * 4503599627370496).
      rewrite Z.mul_assoc. rewrite Z.div_mul, Z.mod_mul by lia. split; lia. }
    rewrite He'. change (new_location 4503599627370496 0) with loc_Exact.
    rewrite binary_round_aux_double by (done || lia). done.
Qed.




(** Rounding goes up by one binade at most. *)
Lemma binary_round_aux_binade s m e l :
  0 <= m ->
  binade (binary_round_aux prec emax s m e l)
  <= Z.max (Zdigits2 m + e + 1) (-1073).
Proof.
  intros Hm.
  destruct (binary_round_aux_spec s m e l Hm)
    as (m1 & m2 & e1 & e2 & He1 & Hm1 & He2 & Hm2 & ->).
  assert (0 < 2 ^ (e1 - e)) by (apply Z.pow_pos_nonneg; lia).
  assert (0 <= m / 2 ^ (e1 - e)) as Hq by (by apply Z.div_pos).
  pose proof (Zdigits2_shift m (e1 - e) Hm ltac:(lia)) as Hs.
  pose proof (Zdigits2_nonneg m) as Hdm.
  assert (0 <= m1) as Hm1pos by lia.
  assert (Zdigits2 m1 + e1 <= Z.max (Zdigits2 m + e + 1) (-1073)) as Hd1.
  { destruct (Z.eq_dec (m / 2 ^ (e1 - e)) 0) as [E0|E0].
    - rewrite E0 in Hs, Hm1. simpl in Hs.
      assert (Zdigits2 m1 <= 1).
      { destruct Hm1 as [-> | ->]; simpl; lia. }
      destruct (Z.eq_dec m 0) as [->|Hm0]; [simpl in *; lia|].
      assert (1 <= Zdigits2 m).
      { destruct m; simpl; lia. }
      lia.
    - assert (1 <= Zdigits2 (m / 2 ^ (e1 - e))).
      { destruct (m / 2 ^ (e1 - e)); simpl; lia. }
      assert (Zdigits2 m1 <= Zdigits2 (m / 2 ^ (e1 - e)) + 1).
      { destruct Hm1 as [-> | ->]; [lia | by apply Zdigits2_succ]. }
      lia. }
  pose proof (Zdigits2_shift m1 (e2 - e1) Hm1pos ltac:(lia)) as Hs2.
  rewrite <- Hm2 in Hs2.
  destruct m2 as [|p2|p2]; cbn [binade]; try lia.
  destruct (e2 <=? 971); cbn [binade]; [|lia].
  assert (1 <= Zdigits2 (Z.pos p2)) by (cbn; lia). lia.
Qed.

(** [float(z)] exists when [z] has fewer than 1023 bits. *)
Lemma of_int_small z k :
  Z.abs z < 2 ^ k -> 0 <= k <= 1022 ->
  exists y, of_int z = Return y /\ is_finite y = true /\ binade y <= k + 1.
Proof.
  intros Hz Hk. unfold of_int, binary_normalize.
  assert (forall s p, Z.pos p < 2 ^ k ->
            exists y, finite_or_overflow (binary_round prec emax s p 0) = Return y /\
                      is_finite y = true /\ binade y <= k + 1) as Hp.
  { intros s p Hp. unfold binary_round. rewrite fexp_double.
    pose proof (Zdigits2_le (Z.pos p) k ltac:(lia) ltac:(lia)) as Hd.
    pose proof (Zdigits2_bounds (Z.pos p) ltac:(lia)) as [Hlo Hhi].
    set (d := Zdigits2 (Z.pos p)) in *.
    assert (1 <= d) by (unfold d; simpl; lia).
    change (Z.pos (digits2_pos p)) with d.
    replace (Z.max (d + 0 - 53) (-1074)) with (d - 53) by lia.
    unfold shl_align. destruct (d - 53 - 0) as [|j|j] eqn:Ej.
    - rewrite binary_round_aux_exact by (fold d; lia).
      eexists. split; [done|]. split; [done|]. cbn [binade]. fold d. lia.
    - pose proof (binary_round_aux_no_overflow s (Z.pos p) 0 loc_Exact
                    ltac:(lia) ltac:(fold d; lia) ltac:(lia)) as Hno.
      pose proof (binary_round_aux_binade s (Z.pos p) 0 loc_Exact ltac:(lia)) as Hb.
      fold d in Hb.
      destruct (binary_round_aux prec emax s (Z.pos p) 0 loc_Exact); try done;
        (eexists; split; [done|]; split; [done|]; cbn [binade] in *; lia).
    - assert (Z.pos j = 53 - d) as Hj by lia.
      assert (Zdigits2 (Z.pos (Pos.iter xO p j)) = 53) as Hdj.
      { rewrite Pos_iter_xO, Hj. apply Zdigits2_unique; [|lia]. split.
        - replace (53 - 1) with ((d - 1) + (53 - d)) by lia.
          rewrite Z.pow_add_r by lia. apply Z.mul_le_mono_nonneg_r; [|done].
          apply Z.pow_nonneg; lia.
        - replace 53 with (d + (53 - d)) at 2 by lia.
          rewrite Z.pow_add_r by lia. apply Z.mul_lt_mono_pos_r; [|done].
          apply Z.pow_pos_nonneg; lia. }
      rewrite binary_round_aux_exact by (done || lia).
      eexists. split; [done|]. split; [done|]. cbn [binade]. rewrite Hdj. lia. }
  destruct z as [|p|p].
  - eexists. split; [done|]. split; [done|]. cbn [binade]. lia.
  - apply Hp. lia.
  - apply Hp. lia.
Qed.

Lemma from_int_binade y : from_int y -> 1 <= binade y /\ is_finite y = true.
Proof.
  destruct y as [| | |s m e]; try done. intros (Hd & He & Hl).
  cbn [binade is_finite]. lia.
Qed.

(** A quotient by a double made from an int stays within one binade of the
    dividend. *)
Lemma SFdiv_from_int_binade x y :
  from_int x -> from_int y ->
  binade (SFdiv prec emax x y) <= binade x + 1.
Proof.
  destruct x as [| | |sx mx ex]; try done.
  destruct y as [| | |sy my ey]; try done.
  intros (Hdx & Hex & Hlx) (Hdy & Hey & Hly). cbn [SFdiv].
  unfold SFdiv_core_binary. rewrite Hdx, Hdy, fexp_double.
  replace (53 + ex - (53 + ey) - 53) with (ex - ey - 53) by lia.
  set (e' := Z.min (Z.max (ex - ey - 53) (-1074)) (ex - ey)).
  set (s := ex - ey - e').
  assert (0 <= s) as Hs by (unfold s, e'; lia).
  set (m' := match s with
             | 0 => Z.pos mx
             | Z.pos _ => Z.shiftl (Z.pos mx) s
             | Z.neg _ => 0
             end).
  assert (m' = Z.pos mx * 2 ^ s) as Hm'.
  { unfold m'. destruct s as [|k|k] eqn:Es; [lia| |lia].
    by rewrite Z.shiftl_mul_pow2. }
  destruct (Z.div_eucl m' (Z.pos my)) as [q r] eqn:Ediv.
  assert (q = m' / Z.pos my) as Hq by (unfold Z.div; by rewrite Ediv).
  destruct (Zdigits2_bounds (Z.pos mx) ltac:(lia)) as [Hxlo Hxhi].
  destruct (Zdigits2_bounds (Z.pos my) ltac:(lia)) as [Hylo Hyhi].
  rewrite Hdx in Hxlo, Hxhi. rewrite Hdy in Hylo, Hyhi.
  assert (0 < 2 ^ s) as H2s by (apply Z.pow_pos_nonneg; lia).
  assert (0 <= q) as Hq0.
  { rewrite Hq. apply Z.div_pos; [|lia]. rewrite Hm'. lia. }
  assert (Zdigits2 q <= s + 1) as Hdq.
  { apply Zdigits2_le; [|lia]. split; [done|]. rewrite Hq.
    apply Z.div_lt_upper_bound; [lia|]. rewrite Hm'.
    rewrite Z.pow_add_r, Z.pow_1_r by lia.
    change (2 ^ (53 - 1)) with (2 ^ 52) in Hylo.
    change (2 ^ 53) with (2 ^ 52 * 2) in Hxhi. nia. }
  etrans; [by apply binary_round_aux_binade|].
  cbn [binade]. rewrite Hdx. unfold s in Hdq.
  destruct Hlx as [Hlx | [_ ->]]; destruct Hly as [Hly | [_ ->]]; lia.
Qed.

Lemma Zdigits2_mul a b :
  0 < a -> 0 < b -> Zdigits2 (a * b) <= Zdigits2 a + Zdigits2 b.
Proof.
  intros Ha Hb.
  destruct (Zdigits2_bounds a Ha) as [_ Hahi].
  destruct (Zdigits2_bounds b Hb) as [_ Hbhi].
  pose proof (Zdigits2_nonneg a). pose proof (Zdigits2_nonneg b).
  apply Zdigits2_le; [|lia]. rewrite Z.pow_add_r by lia. nia.
Qed.

(** A product well below the top binade is finite. *)
Lemma SFmul_small x y :
  is_finite x = true -> is_finite y = true ->
  binade x + binade y <= 973 ->
  is_finite (SFmul prec emax x y) = true.
Proof.
  destruct x as [sx| | |sx mx ex], y as [sy| | |sy my ey]; try done.
  intros _ _. cbn [binade SFmul]. intros Hb.
  pose proof (Zdigits2_mul (Z.pos mx) (Z.pos my) ltac:(lia) ltac:(lia)) as Hd.
  assert (1 <= Zdigits2 (Z.pos mx)) by (cbn; lia).
  assert (1 <= Zdigits2 (Z.pos my)) by (cbn; lia).
  change (Z.pos (mx * my)) with (Z.pos mx * Z.pos my).
  pose proof (binary_round_aux_no_overflow (xorb sx sy) (Z.pos mx * Z.pos my)
                (ex + ey) loc_Exact ltac:(lia) ltac:(lia) ltac:(lia)) as Hno.
  by destruct (binary_round_aux _ _ _ _ _ _).
Qed.

Lemma of_int_outcome z :
  of_int z = Raise OverflowError \/
  exists y, of_int z = Return y /\ is_finite y = true /\
            (z <> 0 -> from_int y) /\ (z = 0 -> y = S754_zero false).
Proof.
  destruct (of_int z) as [y|e|] eqn:E.
  - right. exists y. split; [done|].
    destruct (Z.eq_dec z 0) as [->|Hz].
    + injection E as <-. by repeat split.
    + destruct (of_int_from_int z y E Hz) as [Hy _].
      split; [by destruct (from_int_binade y Hy)|]. by split.
  - left. unfold of_int in E.
    destruct (binary_normalize prec emax z 0 false); simpl in E; by simplify_eq.
  - unfold of_int in E.
    destruct (binary_normalize prec emax z 0 false); simpl in E; by simplify_eq.
Qed.

(** [ratio] is the int 1, or a finite double, or an overflow. *)
Lemma ratio_outcome length la :
  match ratio length la with
  | Return (Int z) => z = 1 /\ truthy length && truthy la = false
  | Return (Float y) =>
      truthy length && truthy la = true /\ is_finite y = true /\
      forall k, Z.abs (default 0 la) < 2 ^ k -> 0 <= k <= 1022 ->
                binade y <= k + 2
  | Raise e => e = OverflowError /\ truthy length && truthy la = true
  | Hang => False
  end.
Proof.
  unfold ratio. destruct (truthy length && truthy la) eqn:E; [|done].
  apply andb_true_iff in E as [(l & -> & Hl)%truthy_spec (a & -> & Ha)%truthy_spec].
  simpl default.
  destruct (of_int_outcome a) as [-> | (x & Hx & _ & Hfx & _)]; [done|].
  rewrite Hx. simpl. unfold div_int.
  destruct (of_int_outcome l) as [-> | (y & Hy & _ & Hfy & _)]; [done|].
  rewrite Hy. simpl. specialize (Hfx Ha). specialize (Hfy Hl).
  pose proof (SFdiv_from_int x y Hfx Hfy) as Hfin.
  destruct y as [| | |sy my ey]; try done. simpl.
  split; [done|]. split; [by destruct (SFdiv _ _ _ _)|].
  intros k Hk Hk2.
  destruct (of_int_small a k Hk Hk2) as (x' & Hx' & _ & Hbx).
  rewrite Hx in Hx'. injection Hx' as <-.
  pose proof (SFdiv_from_int_binade x (S754_finite sy my ey) Hfx Hfy). lia.
Qed.



Lemma block_size_small block r chars k :
  match r with
  | Int _ => True
  | Float y => is_finite y = true /\ binade y <= k + 2
  end ->
  Z.abs (default 0 block) < 2 ^ k -> 0 <= k <= 485 ->
  exists bs, block_size block r chars = Return bs.
Proof.
  unfold block_size. destruct r as [z|y]; simpl; [eauto|]. intros [Hy Hby] Hb Hk.
  unfold int_mul.
  assert (Z.abs (int_or block 0) < 2 ^ k) as Hb'.
  { unfold int_or. destruct (truthy block); [done|].
    pose proof (Z.pow_pos_nonneg 2 k). simpl. lia. }
  destruct (of_int_small _ k Hb' ltac:(lia)) as (x & -> & Hx & Hbx). simpl.
  pose proof (SFmul_small x y Hx Hy ltac:(lia)) as Hfin.
  destruct (SFmul prec emax x y); try done; simpl; eauto.
Qed.


(** ** Correctly rounded quotients of ints *)

Ltac compare_all :=
  repeat match goal with
         | |- context [Z.leb ?x ?y] => destruct (Z.leb_spec x y)
         | |- context [Z.eqb ?x ?y] => destruct (Z.eqb_spec x y)
         end;
  simpl; first [lia | reflexivity | discriminate].

Lemma new_location_places a b :
  0 <= a -> 0 < b ->
  places (shr_record_of_loc (a / b) (new_location b (a mod b))) a b.
Proof.
  intros Ha Hb. pose proof (Z.mod_pos_bound a b Hb) as Hr.
  pose proof (Z.div_mod a b ltac:(lia)) as Hd.
  assert (a - a / b * b = a mod b) as Hrest by lia.
  unfold places, new_location, new_location_even, new_location_odd.
  destruct (Z.even b) eqn:Hev.
  - destruct (Z.eqb_spec (a mod b) 0) as [E|E].
    + simpl. rewrite Hrest. repeat split; try lia; compare_all.
    + destruct (Z.compare_spec (2 * (a mod b)) b) as [C|C|C]; simpl;
        rewrite Hrest; repeat split; try lia; compare_all.
  - assert (2 * (a mod b) <> b) as Hodd.
    { intros E. rewrite <- E, Z.even_mul in Hev. done. }
    destruct (Z.eqb_spec (a mod b) 0) as [E|E].
    + simpl. rewrite Hrest. repeat split; try lia; compare_all.
    + destruct (Z.compare_spec (2 * (a mod b) + 1) b) as [C|C|C]; simpl;
        rewrite Hrest; repeat split; try lia; compare_all.
Qed.

Lemma shr_1_places mrs a b :
  0 <= shr_m mrs -> 0 < b -> places mrs a b -> places (shr_1 mrs) a (2 * b).
Proof.
  destruct mrs as [m r s]. unfold places. simpl. intros Hm Hb (Hrest & Hr & Hs).
  assert (r || s = negb (a - m * b =? 0)) as Hrs.
  { rewrite Hr, Hs. compare_all. }
  destruct m as [|[p|p|]|p]; simpl; try lia; rewrite Hrs;
    (split; [lia|]); split; compare_all.
Qed.

Lemma places_div mrs a b : places mrs a b -> shr_m mrs = a / b.
Proof.
  intros (Hrest & _). apply (Z.div_unique_pos a b _ (a - shr_m mrs * b)); lia.
Qed.

Lemma round_nearest_even_places mrs a b :
  places mrs a b ->
  let m := shr_m mrs in
  let mr := round_nearest_even m (loc_of_shr_record mrs) in
  (mr = m \/ mr = m + 1) /\
  (2 * (a - m * b) < b -> mr = m) /\
  (b < 2 * (a - m * b) -> mr = m + 1).
Proof.
  destruct mrs as [m r s]. unfold places. simpl. intros (Hrest & -> & ->).
  split; [apply round_nearest_even_cases|].
  split; intros H.
  - destruct (Z.leb_spec b (2 * (a - m * b))); [lia|]. simpl.
    by destruct (negb _ && negb _).
  - destruct (Z.leb_spec b (2 * (a - m * b))); [|lia]. simpl.
    destruct (Z.eqb_spec (a - m * b) 0); [lia|].
    destruct (Z.eqb_spec (2 * (a - m * b)) b); [lia|]. done.
Qed.

Lemma shr_fexp_normal m e l :
  0 < m -> -1074 <= e -> 53 <= Zdigits2 m <= 54 ->
  shr_fexp prec emax m e l
  = if Zdigits2 m =? 53 then (shr_record_of_loc m l, e)
    else (shr_1 (shr_record_of_loc m l), e + 1).
Proof.
  intros Hm He Hd. unfold shr_fexp. rewrite fexp_double.
  destruct (Z.eqb_spec (Zdigits2 m) 53) as [E|E].
  - rewrite E. replace (Z.max (53 + e - 53) (-1074) - e) with 0 by lia. done.
  - assert (Zdigits2 m = 54) as -> by lia.
    replace (Z.max (54 + e - 53) (-1074) - e) with 1 by lia. done.
Qed.

Lemma iter_pos_shr_1_places p mrs a b :
  0 <= shr_m mrs -> 0 < b -> places mrs a b ->
  places (SpecFloat.iter_pos shr_1 p mrs) a (b * 2 ^ Z.pos p).
Proof.
  revert mrs b. induction p as [p IH|p IH|]; intros mrs b Hm Hb Hpl;
    cbn [SpecFloat.iter_pos].
  - assert (0 <= shr_m (shr_1 mrs)) as H1
      by (rewrite shr_1_m by done; apply Z.div_pos; lia).
    assert (0 <= shr_m (SpecFloat.iter_pos shr_1 p (shr_1 mrs))) as H2
      by (rewrite iter_pos_shr_1 by done; apply Z.div_pos;
          [done | apply Z.pow_pos_nonneg; lia]).
    assert (0 < 2 ^ Z.pos p) as Hp by (apply Z.pow_pos_nonneg; lia).
    replace (b * 2 ^ Z.pos p~1) with (2 * b * 2 ^ Z.pos p * 2 ^ Z.pos p).
    + apply IH; [done | by apply Z.mul_pos_pos; [lia|] |].
      apply IH; [done | lia |]. by apply shr_1_places.
    + replace (Z.pos p~1) with (1 + Z.pos p + Z.pos p) by lia.
      rewrite !Z.pow_add_r by lia. ring.
  - assert (0 <= shr_m (SpecFloat.iter_pos shr_1 p mrs)) as H2
      by (rewrite iter_pos_shr_1 by done; apply Z.div_pos;
          [done | apply Z.pow_pos_nonneg; lia]).
    assert (0 < 2 ^ Z.pos p) as Hp by (apply Z.pow_pos_nonneg; lia).
    replace (b * 2 ^ Z.pos p~0) with (b * 2 ^ Z.pos p * 2 ^ Z.pos p).
    + apply IH; [done | by apply Z.mul_pos_pos |]. by apply IH.
    + replace (Z.pos p~0) with (Z.pos p + Z.pos p) by lia.
      rewrite !Z.pow_add_r by lia. ring.
  - replace (b * 2 ^ 1) with (2 * b) by lia. by apply shr_1_places.
Qed.

(** Rounding a mantissa of at least 53 bits, placed at the quotient [a / b]:
    the low bits are dropped and the result is the integer nearest to the
    quotient scaled down, with 53 bits again. *)
Lemma binary_round_aux_nearest_bits s q e l a b :
  0 < b -> places (shr_record_of_loc q l) a b ->
  2 ^ 52 <= q -> -1074 <= e -> Zdigits2 q + e <= 1023 ->
  exists n2 m2,
    let n1 := Zdigits2 q - 53 in
    let b1 := b * 2 ^ n1 in
    let m1 := a / b1 in
    let mr := Z.pos m2 * 2 ^ n2 in
    0 <= n1 /\ (n2 = 0 \/ n2 = 1) /\
    2 ^ 52 <= m1 < 2 ^ 53 /\
    2 ^ 52 <= Z.pos m2 < 2 ^ 53 /\
    (mr = m1 \/ mr = m1 + 1) /\
    (2 * (a mod b1) < b1 -> mr = m1) /\
    (b1 < 2 * (a mod b1) -> mr = m1 + 1) /\
    binary_round_aux prec emax s q e l = S754_finite s m2 (e + n1 + n2).
Proof.
  intros Hb Hpl Hq He Hmax.
  pose proof (Zdigits2_ge q 53 ltac:(lia) ltac:(lia)) as Hd.
  set (d := Zdigits2 q) in *. set (n1 := d - 53).
  assert (exists mrs,
            shr_fexp prec emax q e l = (mrs, e + n1) /\
            places mrs a (b * 2 ^ n1) /\ shr_m mrs = q / 2 ^ n1)
    as (mrs & Hshr & Hpl1 & Hm).
  { unfold shr_fexp, shr. rewrite fexp_double. fold d.
    replace (Z.max (d + e - 53) (-1074) - e) with n1 by (unfold n1; lia).
    destruct n1 as [|p|p] eqn:En; [| |lia].
    - eexists. split; [by rewrite Z.add_0_r|].
      rewrite Z.mul_1_r, Z.div_1_r, shr_record_of_loc_m. done.
    - eexists. split; [done|]. split.
      + apply iter_pos_shr_1_places; [rewrite shr_record_of_loc_m; lia|done|done].
      + rewrite iter_pos_shr_1, shr_record_of_loc_m
          by (rewrite shr_record_of_loc_m; lia). done. }
  assert (0 <= n1) as Hn1 by (unfold n1; lia).
  assert (0 < 2 ^ n1) as Hp1 by (apply Z.pow_pos_nonneg; lia).
  assert (2 ^ 52 <= shr_m mrs < 2 ^ 53) as Hm1.
  { rewrite Hm.
    pose proof (Zdigits2_shift q n1 ltac:(lia) Hn1) as Hds. fold d in Hds.
    replace (Z.max 0 (d - n1)) with 53 in Hds by (unfold n1; lia).
    assert (0 < q / 2 ^ n1) as Hpos.
    { destruct (Z.le_gt_cases (q / 2 ^ n1) 0) as [Hle|]; [|done].
      assert (0 <= q / 2 ^ n1) by (apply Z.div_pos; lia).
      assert (q / 2 ^ n1 = 0) as E by lia. by rewrite E in Hds. }
    pose proof (Zdigits2_bounds _ Hpos) as Hbd. rewrite Hds in Hbd. done. }
  assert (0 < b * 2 ^ n1) as Hb1 by (by apply Z.mul_pos_pos).
  pose proof (places_div _ _ _ Hpl1) as Hdiv.
  pose proof (round_nearest_even_places _ _ _ Hpl1) as (Hcases & Hdown & Hup).
  set (mr := round_nearest_even (shr_m mrs) (loc_of_shr_record mrs)) in *.
  assert (a - shr_m mrs * (b * 2 ^ n1) = a mod (b * 2 ^ n1)) as Hrest.
  { rewrite Hdiv. pose proof (Z.div_mod a (b * 2 ^ n1) ltac:(lia)). lia. }
  rewrite Hrest in Hdown, Hup.
  unfold binary_round_aux. rewrite Hshr. fold mr.
  destruct (Z.lt_ge_cases mr (2 ^ 53)) as [Hlt|Hge].
  - rewrite shr_fexp_normal, (Zdigits2_unique mr 53)
      by (rewrite ?(Zdigits2_unique mr 53); lia).
    simpl (53 =? 53). cbv iota. rewrite shr_record_of_loc_m.
    destruct mr as [|p|p] eqn:Emr; [lia| |lia].
    exists 0, p. cbv zeta. fold d. fold n1.
    rewrite <- Hdiv, Z.mul_1_r, Z.add_0_r.
    destruct (Z.leb_spec (e + n1) (emax - prec)) as [_|Hbad];
      [|unfold emax, prec, n1 in Hbad; lia].
    repeat split; auto; lia.
  - assert (mr = 2 ^ 53) as Emr by lia.
    assert (shr_fexp prec emax mr (e + n1) loc_Exact
            = ({| shr_m := 2 ^ 52; shr_r := false; shr_s := false |}, e + n1 + 1))
      as ->.
    { rewrite Emr, shr_fexp_normal by (try done; lia). done. }
    exists 1, (2 ^ 52)%positive. cbv zeta. fold d. fold n1.
    rewrite <- Hdiv. change (Z.pos (2 ^ 52) * 2 ^ 1) with (2 ^ 53).
    rewrite <- Emr. cbn [shr_m].
    destruct (Z.leb_spec (e + n1 + 1) (emax - prec)) as [_|Hbad];
      [|unfold emax, prec, n1 in Hbad; lia].
    change (Z.pow_pos 2 52) with (2 ^ 52).
    repeat split; auto; lia.
Qed.

Lemma binary_round_aux_nearest s q e l a b :
  0 < b -> places (shr_record_of_loc q l) a b ->
  2 ^ 52 <= q < 2 ^ 54 -> -1074 <= e <= 969 ->
  exists n1 n2 m2,
    (n1 = 0 \/ n1 = 1) /\ (n2 = 0 \/ n2 = 1) /\
    let b1 := b * 2 ^ n1 in
    let m1 := a / b1 in
    let mr := Z.pos m2 * 2 ^ n2 in
    2 ^ 52 <= m1 < 2 ^ 53 /\
    (mr = m1 \/ mr = m1 + 1) /\
    (2 * (a mod b1) < b1 -> mr = m1) /\
    (b1 < 2 * (a mod b1) -> mr = m1 + 1) /\
    binary_round_aux prec emax s q e l = S754_finite s m2 (e + n1 + n2).
Proof.
  intros Hb Hpl Hq He.
  pose proof (Zdigits2_ge q 53 ltac:(lia) ltac:(lia)) as Hd1.
  pose proof (Zdigits2_le q 54 ltac:(lia) ltac:(lia)) as Hd2.
  destruct (binary_round_aux_nearest_bits s q e l a b Hb Hpl ltac:(lia)
              ltac:(lia) ltac:(lia)) as (n2 & m2 & H).
  cbv zeta in H. destruct H as (_ & Hn2 & Hm1 & _ & Hcases & Hdown & Hup & Hr).
  exists (Zdigits2 q - 53), n2, m2. cbv zeta.
  split; [lia|]. by do 5 (split; [done|]).
Qed.

Lemma Zdigits2_pos m : 0 < m -> 1 <= Zdigits2 m.
Proof.
  intros Hm. pose proof (Zdigits2_nonneg m). pose proof (Zdigits2_bounds m Hm) as Hb.
  destruct (Z.eq_dec (Zdigits2 m) 0) as [E|]; [|lia].
  rewrite E in Hb. simpl in Hb. lia.
Qed.

Lemma int_true_div_nearest w n :
  1 <= w < 2 ^ 53 -> 1 <= n < 2 ^ 53 ->
  exists sh n1 n2 m2,
    1 <= sh /\ (n1 = 0 \/ n1 = 1) /\ (n2 = 0 \/ n2 = 1) /\
    let a := w * 2 ^ sh in
    let b1 := n * 2 ^ n1 in
    let m1 := a / b1 in
    let mr := Z.pos m2 * 2 ^ n2 in
    2 ^ 52 <= m1 < 2 ^ 53 /\
    (mr = m1 \/ mr = m1 + 1) /\
    (2 * (a mod b1) < b1 -> mr = m1) /\
    (b1 < 2 * (a mod b1) -> mr = m1 + 1) /\
    int_true_div w n = Return (S754_finite false m2 (n1 + n2 - sh)).
Proof.
  intros Hw Hn.
  pose proof (Zdigits2_pos w ltac:(lia)) as Hd1.
  pose proof (Zdigits2_pos n ltac:(lia)) as Hd2.
  pose proof (Zdigits2_le w 53 ltac:(lia) ltac:(lia)) as Hd1'.
  pose proof (Zdigits2_le n 53 ltac:(lia) ltac:(lia)) as Hd2'.
  pose proof (Zdigits2_bounds w ltac:(lia)) as Hbw.
  pose proof (Zdigits2_bounds n ltac:(lia)) as Hbn.
  set (d1 := Zdigits2 w) in *. set (d2 := Zdigits2 n) in *.
  set (sh := 53 + d2 - d1).
  assert (1 <= sh <= 105) as Hsh by (unfold sh; lia).
  assert (2 ^ sh * 2 ^ (d1 - 1) = 2 ^ 53 * 2 ^ (d2 - 1)) as Hpow.
  { rewrite <- !Z.pow_add_r by lia. f_equal. unfold sh. lia. }
  assert (2 ^ d1 = 2 * 2 ^ (d1 - 1)) as Hp1.
  { rewrite <- (Z.pow_succ_r 2 (d1 - 1)) by lia. f_equal. lia. }
  assert (2 ^ d2 = 2 * 2 ^ (d2 - 1)) as Hp2.
  { rewrite <- (Z.pow_succ_r 2 (d2 - 1)) by lia. f_equal. lia. }
  assert (0 < 2 ^ sh) as Hpsh by (apply Z.pow_pos_nonneg; lia).
  assert (0 < 2 ^ (d1 - 1)) as Hpd1 by (apply Z.pow_pos_nonneg; lia).
  assert (0 < 2 ^ (d2 - 1)) as Hpd2 by (apply Z.pow_pos_nonneg; lia).
  set (a := w * 2 ^ sh).
  assert (2 ^ sh * 2 ^ (d1 - 1) <= a < 2 ^ sh * (2 * 2 ^ (d1 - 1))) as Ha.
  { unfold a. rewrite (Z.mul_comm w). split.
    - apply Z.mul_le_mono_nonneg_l; lia.
    - apply Z.mul_lt_mono_pos_l; lia. }
  assert (2 ^ 52 <= a / n < 2 ^ 54) as Hq.
  { split.
    - apply Z.div_le_lower_bound; lia.
    - apply Z.div_lt_upper_bound; lia. }
  destruct (binary_round_aux_nearest false (a / n) (- sh)
              (new_location n (a mod n)) a n)
    as (n1 & n2 & m2 & Hn1 & Hn2 & H); [lia| |done|lia|].
  { apply new_location_places; lia. }
  cbv zeta in H. destruct H as (Hm1 & Hcases & Hdown & Hup & Hround).
  exists sh, n1, n2, m2. do 3 (split; [lia || done|]). cbv zeta. fold a.
  do 4 (split; [done|]).
  unfold int_true_div. destruct (Z.eqb_spec n 0); [lia|].
  destruct w as [|pw|pw]; [lia| |lia]. destruct n as [|pn|pn]; [lia| |lia].
  cbn [exact SFdiv xorb]. unfold SFdiv_core_binary.
  fold d1 d2. rewrite fexp_double.
  replace (Z.min (Z.max (d1 + 0 - (d2 + 0) - 53) (-1074)) (0 - 0)) with (- sh)
    by (unfold sh; lia).
  replace (0 - 0 - - sh) with sh by lia.
  assert (match sh with
          | 0 => Z.pos pw
          | Z.pos _ => Z.shiftl (Z.pos pw) sh
          | Z.neg _ => 0
          end = a) as ->.
  { destruct sh eqn:E; [lia| |lia]. rewrite Z.shiftl_mul_pow2 by lia. done. }
  destruct (Z.div_eucl a (Z.pos pn)) as [q r] eqn:Ediv.
  assert (q = a / Z.pos pn) as -> by (unfold Z.div; by rewrite Ediv).
  assert (r = a mod Z.pos pn) as -> by (unfold Z.modulo; by rewrite Ediv).
  rewrite Hround. simpl. do 2 f_equal. lia.
Qed.

Lemma ceil_div_spec w n :
  0 < n -> (ceil_div w n - 1) * n < w <= ceil_div w n * n.
Proof.
  intros Hn. unfold ceil_div.
  pose proof (Z.div_mod (- w) n ltac:(lia)) as Hd.
  pose proof (Z.mod_pos_bound (- w) n Hn) as Hm.
  set (q := - w / n) in *. set (r := (- w) mod n) in *.
  replace ((- q - 1) * n) with (- (n * q) - n) by ring.
  replace (- q * n) with (- (n * q)) by ring. lia.
Qed.

(** The rounded mantissa is above the floor [q * P] of the scaled quotient,
    when the quotient [w / n] is not whole. *)
Lemma nearest_above q n w P T M m1 rest mr :
  0 < P -> 0 < T -> 0 < n -> 0 < M ->
  q * n < w -> w < 2 * M -> M <= m1 ->
  w * P * T = n * T * m1 + rest -> 0 <= rest < n * T ->
  (mr = m1 \/ mr = m1 + 1) ->
  (n * T < 2 * rest -> mr = m1 + 1) ->
  q * P < mr.
Proof.
  intros HP HT Hn HM Hq Hw Hm1 Hdm Hrest Hcases Hup.
  assert (q * P * (n * T) < w * P * T) as H1.
  { replace (q * P * (n * T)) with (q * n * (P * T)) by ring.
    replace (w * P * T) with (w * (P * T)) by ring.
    apply Z.mul_lt_mono_pos_r; [apply Z.mul_pos_pos|]; done. }
  assert (q * P <= m1) as HQ.
  { apply Z.lt_succ_r. apply (Z.mul_lt_mono_pos_l (n * T)); [by apply Z.mul_pos_pos|].
    replace (n * T * Z.succ m1) with (n * T * m1 + n * T) by ring.
    replace (n * T * (q * P)) with (q * P * (n * T)) by ring. lia. }
  destruct (Z.eq_dec m1 (q * P)) as [E|NE]; [|lia].
  assert (0 < q) as Hq0.
  { destruct (Z.lt_ge_cases 0 q) as [|Hle]; [done|].
    assert (q * P <= 0 * P) by (apply Z.mul_le_mono_nonneg_r; lia). lia. }
  assert (n < 2 * P) as HnP.
  { apply (Z.mul_lt_mono_pos_l q); [done|].
    replace (q * (2 * P)) with (2 * (q * P)) by ring. lia. }
  assert (rest = (w - q * n) * (P * T)) as Erest.
  { rewrite E in Hdm. replace ((w - q * n) * (P * T)) with (w * P * T - n * T * (q * P)) by ring. lia. }
  rewrite Hup; [lia|]. rewrite Erest.
  assert (1 * (P * T) <= (w - q * n) * (P * T)) as H2.
  { apply Z.mul_le_mono_nonneg_r; [|lia]. apply Z.lt_le_incl. by apply Z.mul_pos_pos. }
  assert (n * T < 2 * P * T) as H3 by (apply Z.mul_lt_mono_pos_r; done).
  replace (2 * P * T) with (2 * (1 * (P * T))) in H3 by ring. lia.
Qed.

(** It is at most the ceiling [c * P]. *)
Lemma nearest_below c n w P T m1 rest mr :
  0 < P -> 0 < T -> 0 < n ->
  w <= c * n ->
  w * P * T = n * T * m1 + rest -> 0 <= rest < n * T ->
  (mr = m1 \/ mr = m1 + 1) ->
  (2 * rest < n * T -> mr = m1) ->
  mr <= c * P.
Proof.
  intros HP HT Hn Hc Hdm Hrest Hcases Hdown.
  assert (w * P * T <= c * P * (n * T)) as H1.
  { replace (c * P * (n * T)) with (c * n * (P * T)) by ring.
    replace (w * P * T) with (w * (P * T)) by ring.
    apply Z.mul_le_mono_nonneg_r; [|done]. apply Z.lt_le_incl. by apply Z.mul_pos_pos. }
  assert (m1 <= c * P) as Hle.
  { apply (Z.mul_le_mono_pos_l _ _ (n * T)); [by apply Z.mul_pos_pos|].
    replace (n * T * (c * P)) with (c * P * (n * T)) by ring. lia. }
  destruct (Z.eq_dec m1 (c * P)) as [E|NE]; [|lia].
  assert (rest = 0) as Erest.
  { rewrite E in Hdm. replace (n * T * (c * P)) with (c * P * (n * T)) in Hdm by ring. lia. }
  rewrite Hdown; lia.
Qed.

Lemma ceil_finite m e c :
  (c - 1) * denominator e < numerator m e <= c * denominator e ->
  ceil (S754_finite false m e) = Return c.
Proof.
  intros H. cbn [ceil]. f_equal.
  assert (0 < denominator e) as Hd.
  { unfold denominator. rewrite Z.shiftl_mul_pow2 by lia.
    pose proof (Z.pow_pos_nonneg 2 (Z.max (- e) 0)). lia. }
  enough (- numerator m e / denominator e = - c) by lia.
  symmetry. apply (Z.div_unique_pos _ _ _ (c * denominator e - numerator m e)); lia.
Qed.

Lemma nearest_ceil w n sh n1 mr :
  1 <= w < 2 ^ 53 -> 1 <= n -> 1 <= sh -> (n1 = 0 \/ n1 = 1) ->
  let a := w * 2 ^ sh in
  let b1 := n * 2 ^ n1 in
  let m1 := a / b1 in
  2 ^ 52 <= m1 ->
  (mr = m1 \/ mr = m1 + 1) ->
  (2 * (a mod b1) < b1 -> mr = m1) ->
  (b1 < 2 * (a mod b1) -> mr = m1 + 1) ->
  (ceil_div w n - 1) * 2 ^ sh < mr * 2 ^ n1 <= ceil_div w n * 2 ^ sh.
Proof.
  intros Hw Hn Hsh Hn1 a b1 m1 Hm1 Hcases Hdown Hup.
  pose proof (ceil_div_spec w n ltac:(lia)) as Hc.
  set (c := ceil_div w n) in *.
  set (P := 2 ^ (sh - n1)). set (T := 2 ^ n1) in *.
  assert (2 ^ sh = P * T) as Hpow.
  { unfold P, T. rewrite <- Z.pow_add_r by lia. f_equal. lia. }
  assert (0 < P) as HP by (apply Z.pow_pos_nonneg; lia).
  assert (0 < T) as HT by (apply Z.pow_pos_nonneg; lia).
  assert (0 < b1) as Hb1 by (by apply Z.mul_pos_pos; [lia|]).
  pose proof (Z.div_mod a b1 ltac:(lia)) as Hdm. fold m1 in Hdm.
  pose proof (Z.mod_pos_bound a b1 Hb1) as Hmod.
  set (rest := a mod b1) in *.
  assert (w * P * T = n * T * m1 + rest) as Hdm'.
  { transitivity a; [unfold a; rewrite Hpow; ring | exact Hdm]. }
  rewrite Hpow. split.
  - replace ((c - 1) * (P * T)) with ((c - 1) * P * T) by ring.
    apply Z.mul_lt_mono_pos_r; [done|].
    apply (nearest_above (c - 1) n w P T (2 ^ 52) m1 rest mr); try done; lia.
  - replace (c * (P * T)) with (c * P * T) by ring.
    apply Z.mul_le_mono_nonneg_r; [lia|].
    apply (nearest_below c n w P T m1 rest mr); try done; lia.
Qed.

Lemma scale_between x y z k :
  0 < k -> x * k < y * k <= z * k -> x < y <= z.
Proof.
  intros Hk [H1 H2]. split.
  - by apply (Z.mul_lt_mono_pos_r k).
  - by apply (Z.mul_le_mono_pos_r _ _ k).
Qed.

(** Below [2^53] the ceiling of the double quotient is the ceiling of the
    quotient. *)
Lemma int_true_div_ceil w n :
  1 <= w < 2 ^ 53 -> 1 <= n < 2 ^ 53 ->
  exists q, int_true_div w n = Return q /\ ceil q = Return (ceil_div w n).
Proof.
  intros Hw Hn.
  destruct (int_true_div_nearest w n Hw Hn)
    as (sh & n1 & n2 & m2 & Hsh & Hn1 & Hn2 & H).
  cbv zeta in H. destruct H as (Hm1 & Hcases & Hdown & Hup & ->).
  eexists. split; [done|].
  pose proof (nearest_ceil w n sh n1 (Z.pos m2 * 2 ^ n2) Hw ltac:(lia) Hsh Hn1
                ltac:(lia) Hcases Hdown Hup) as Hc.
  clear Hm1 Hcases Hdown Hup.
  set (c := ceil_div w n) in *.
  apply ceil_finite. unfold numerator, denominator.
  rewrite !Z.shiftl_mul_pow2 by lia. rewrite Z.mul_1_l.
  set (e := n1 + n2 - sh).
  assert (0 < 2 ^ sh) as HS by (apply Z.pow_pos_nonneg; lia).
  assert (0 < 2 ^ n1 * 2 ^ n2) as H12
    by (apply Z.mul_pos_pos; apply Z.pow_pos_nonneg; lia).
  destruct (Z.le_gt_cases 0 e) as [He|He].
  - rewrite (Z.max_l e 0), (Z.max_r (- e) 0) by lia. rewrite Z.pow_0_r.
    assert (2 ^ n1 * 2 ^ n2 = 2 ^ e * 2 ^ sh) as Hpow.
    { rewrite <- !Z.pow_add_r by lia. f_equal. unfold e. lia. }
    apply (scale_between _ _ _ (2 ^ sh)); [done|].
    replace (Z.pos m2 * 2 ^ e * 2 ^ sh) with (Z.pos m2 * (2 ^ e * 2 ^ sh)) by ring.
    rewrite <- Hpow, !Z.mul_1_r.
    replace (Z.pos m2 * (2 ^ n1 * 2 ^ n2)) with (Z.pos m2 * 2 ^ n2 * 2 ^ n1) by ring.
    done.
  - rewrite (Z.max_r e 0), (Z.max_l (- e) 0) by lia. rewrite Z.pow_0_r.
    assert (2 ^ sh = 2 ^ (- e) * (2 ^ n1 * 2 ^ n2)) as Hpow.
    { rewrite <- !Z.pow_add_r by lia. f_equal. unfold e. lia. }
    apply (scale_between _ _ _ (2 ^ n1 * 2 ^ n2)); [done|].
    rewrite Hpow in Hc.
    replace ((c - 1) * 2 ^ (- e) * (2 ^ n1 * 2 ^ n2))
      with ((c - 1) * (2 ^ (- e) * (2 ^ n1 * 2 ^ n2))) by ring.
    replace (c * 2 ^ (- e) * (2 ^ n1 * 2 ^ n2))
      with (c * (2 ^ (- e) * (2 ^ n1 * 2 ^ n2))) by ring.
    replace (Z.pos m2 * 1 * (2 ^ n1 * 2 ^ n2)) with (Z.pos m2 * 2 ^ n2 * 2 ^ n1) by ring.
    done.
Qed.

Lemma each_length_ceil w n :
  1 <= w < 2 ^ 53 -> 1 <= n < 2 ^ 53 ->
  each_length (Some w) n = Return (Some (ceil_div w n)).
Proof.
  intros Hw Hn. destruct (int_true_div_ceil w n Hw Hn) as (q & Hq & Hc).
  unfold each_length.
  assert (truthy (Some w) = true) as -> by (apply truthy_spec; exists w; split; [done|lia]).
  simpl. rewrite Hq. simpl. rewrite Hc. done.
Qed.

(** ** Doubles of small ints *)

(** The nearest integer to a quotient of at least [2^52] is within a
    relative distance of [2^-53] of it. *)
Lemma nearest_relative a b1 mr :
  0 < b1 -> 2 ^ 52 <= a / b1 ->
  (mr = a / b1 \/ mr = a / b1 + 1) ->
  (2 * (a mod b1) < b1 -> mr = a / b1) ->
  (b1 < 2 * (a mod b1) -> mr = a / b1 + 1) ->
  2 ^ 53 * (mr * b1 - a) <= a /\ 2 ^ 53 * (a - mr * b1) <= a.
Proof.
  intros Hb Hm Hcases Hdown Hup.
  pose proof (Z.div_mod a b1 ltac:(lia)) as Hdm.
  pose proof (Z.mod_pos_bound a b1 Hb) as Hmod.
  set (m1 := a / b1) in *. set (rest := a mod b1) in *.
  assert (b1 * 2 ^ 52 <= b1 * m1) as Hlow
    by (apply Z.mul_le_mono_nonneg_l; lia).
  destruct (Z.lt_trichotomy (2 * rest) b1) as [H|[H|H]].
  - rewrite (Hdown H). lia.
  - destruct Hcases as [-> | ->]; lia.
  - rewrite (Hup H). lia.
Qed.

Lemma of_int_normal z :
  0 < z < 2 ^ 53 ->
  exists x, of_int z = Return x /\ normal 52 x /\ scaled x = z * 2 ^ scale.
Proof.
  intros Hz. destruct z as [|p|p]; [lia| |lia].
  unfold of_int, binary_normalize, binary_round.
  rewrite fexp_double.
  pose proof (Zdigits2_bounds (Z.pos p) ltac:(lia)) as [Hlo Hhi].
  pose proof (Zdigits2_le (Z.pos p) 53 ltac:(lia) ltac:(lia)) as Hd53.
  pose proof (Zdigits2_pos (Z.pos p) ltac:(lia)) as Hd1.
  change (Z.pos (digits2_pos p)) with (Zdigits2 (Z.pos p)).
  set (d := Zdigits2 (Z.pos p)) in *.
  replace (Z.max (d + 0 - 53) (-1074)) with (d - 53) by lia.
  unfold shl_align.
  destruct (d - 53 - 0) as [|k|k] eqn:Ek; [| lia |].
  - rewrite binary_round_aux_exact by (fold d; lia).
    eexists. split; [done|]. assert (d = 53) as Ed by lia. rewrite Ed in *.
    split; [simpl; lia|]. simpl. change (0 + scale) with scale. done.
  - assert (Z.pos k = 53 - d) as Hk by lia.
    assert (2 ^ 52 <= Z.pos (Pos.iter xO p k) < 2 ^ 53) as Hbd.
    { rewrite Pos_iter_xO, Hk. split.
      - replace 52 with ((d - 1) + (53 - d)) by lia.
        rewrite Z.pow_add_r by lia. apply Z.mul_le_mono_nonneg_r; [|done].
        apply Z.pow_nonneg; lia.
      - replace 53 with (d + (53 - d)) at 2 by lia.
        rewrite Z.pow_add_r by lia. apply Z.mul_lt_mono_pos_r; [|done].
        apply Z.pow_pos_nonneg; lia. }
    rewrite binary_round_aux_exact
      by (try (apply Zdigits2_unique; lia); lia).
    eexists. split; [done|]. split; [simpl; lia|].
    cbn [scaled]. rewrite Pos_iter_xO, Hk, <- Z.mul_assoc, <- Z.pow_add_r
      by (unfold scale; lia).
    do 2 f_equal. lia.
Qed.

Lemma binary_round_aux_scaled q e l a b :
  0 < b -> 0 <= a -> places (shr_record_of_loc q l) a b ->
  2 ^ 52 <= q -> - scale <= e -> Zdigits2 q + e <= 1023 ->
  exists m2 e2,
    binary_round_aux prec emax false q e l = S754_finite false m2 e2 /\
    2 ^ 52 <= Z.pos m2 < 2 ^ 53 /\
    e + (Zdigits2 q - 53) <= e2 <= e + (Zdigits2 q - 53) + 1 /\
    let y := Z.pos m2 * 2 ^ (e2 + scale) * b in
    let x := a * 2 ^ (e + scale) in
    2 ^ 53 * (y - x) <= x /\ 2 ^ 53 * (x - y) <= x.
Proof.
  intros Hb Ha Hpl Hq He Hmax.
  destruct (binary_round_aux_nearest_bits false q e l a b Hb Hpl Hq
              ltac:(unfold scale in He; lia) Hmax)
    as (n2 & m2 & H).
  cbv zeta in H.
  destruct H as (Hn1 & Hn2 & Hm1 & Hm2 & Hcases & Hdown & Hup & Hround).
  set (n1 := Zdigits2 q - 53) in *.
  exists m2, (e + n1 + n2). split; [done|]. split; [done|]. split; [lia|].
  cbv zeta.
  assert (0 < b * 2 ^ n1) as Hb1
    by (apply Z.mul_pos_pos; [done | apply Z.pow_pos_nonneg; lia]).
  destruct (nearest_relative a (b * 2 ^ n1) (Z.pos m2 * 2 ^ n2) Hb1
              ltac:(lia) Hcases Hdown Hup) as [H1 H2].
  set (S := 2 ^ (e + scale)).
  assert (0 <= S) as HS by (apply Z.pow_nonneg; lia).
  assert (Z.pos m2 * 2 ^ (e + n1 + n2 + scale) * b
          = Z.pos m2 * 2 ^ n2 * (b * 2 ^ n1) * S) as ->.
  { unfold S. replace (e + n1 + n2 + scale) with (n2 + n1 + (e + scale)) by lia.
    rewrite !Z.pow_add_r by (unfold scale in *; lia). ring. }
  set (y := Z.pos m2 * 2 ^ n2 * (b * 2 ^ n1)) in *.
  split.
  - replace (2 ^ 53 * (y * S - a * S)) with (2 ^ 53 * (y - a) * S) by ring.
    by apply Z.mul_le_mono_nonneg_r.
  - replace (2 ^ 53 * (a * S - y * S)) with (2 ^ 53 * (a - y) * S) by ring.
    by apply Z.mul_le_mono_nonneg_r.
Qed.

Lemma SFdiv_normal kx ky x y :
  normal kx x -> normal ky y -> 0 <= kx -> 0 <= ky -> kx + ky + 53 <= scale ->
  normal (kx + ky + 53) (SFdiv prec emax x y) /\
  let r := scaled (SFdiv prec emax x y) * scaled y in
  let v := scaled x * 2 ^ scale in
  2 ^ 53 * (r - v) <= v /\ 2 ^ 53 * (v - r) <= v.
Proof.
  destruct x as [| | |[] mx ex]; try done. destruct y as [| | |[] my ey]; try done.
  intros [Hmx Hex] [Hmy Hey] Hkx Hky Hk.
  cbn [SFdiv xorb]. unfold SFdiv_core_binary.
  rewrite !(Zdigits2_unique _ 53) by lia. rewrite fexp_double.
  replace (Z.min (Z.max (53 + ex - (53 + ey) - 53) (-1074)) (ex - ey))
    with (ex - ey - 53) by (unfold scale in Hk; lia).
  replace (ex - ey - (ex - ey - 53)) with 53 by lia.
  rewrite Z.shiftl_mul_pow2 by lia.
  set (a := Z.pos mx * 2 ^ 53).
  destruct (Z.div_eucl a (Z.pos my)) as [q r] eqn:Ediv.
  assert (q = a / Z.pos my) as -> by (unfold Z.div; by rewrite Ediv).
  assert (r = a mod Z.pos my) as -> by (unfold Z.modulo; by rewrite Ediv).
  assert (2 ^ 52 <= a / Z.pos my < 2 ^ 54) as Hq.
  { split.
    - apply Z.div_le_lower_bound; unfold a; lia.
    - apply Z.div_lt_upper_bound; unfold a; lia. }
  pose proof (Zdigits2_ge (a / Z.pos my) 53 ltac:(lia) ltac:(lia)) as Hd1.
  pose proof (Zdigits2_le (a / Z.pos my) 54 ltac:(lia) ltac:(lia)) as Hd2.
  destruct (binary_round_aux_scaled (a / Z.pos my) (ex - ey - 53)
              (new_location (Z.pos my) (a mod Z.pos my)) a (Z.pos my))
    as (m2 & e2 & -> & Hm2 & He2 & H);
    [lia | unfold a; lia | apply new_location_places; unfold a; lia | lia
    | unfold scale in *; lia | unfold scale in *; lia |].
  cbv zeta in H. destruct H as [H1 H2].
  split; [cbn [normal]; lia|]. cbv zeta. cbn [scaled].
  set (T := 2 ^ (ey + scale)).
  assert (0 <= T) as HT by (apply Z.pow_nonneg; lia).
  assert (a * 2 ^ (ex - ey - 53 + scale) * T
          = Z.pos mx * 2 ^ (ex + scale) * 2 ^ scale) as E.
  { unfold a, T. rewrite <- !Z.mul_assoc, <- !Z.pow_add_r by (unfold scale in *; lia).
    do 2 f_equal. lia. }
  rewrite <- E.
  set (v := a * 2 ^ (ex - ey - 53 + scale)) in *.
  set (R := Z.pos m2 * 2 ^ (e2 + scale)) in *.
  split.
  - replace (2 ^ 53 * (R * (Z.pos my * T) - v * T))
      with (2 ^ 53 * (R * Z.pos my - v) * T) by ring.
    by apply Z.mul_le_mono_nonneg_r.
  - replace (2 ^ 53 * (v * T - R * (Z.pos my * T)))
      with (2 ^ 53 * (v - R * Z.pos my) * T) by ring.
    by apply Z.mul_le_mono_nonneg_r.
Qed.

Lemma SFmul_normal kx ky x y :
  normal kx x -> normal ky y -> 0 <= kx -> 0 <= ky -> kx + ky + 54 <= scale ->
  normal (kx + ky + 54) (SFmul prec emax x y) /\
  let p := scaled (SFmul prec emax x y) * 2 ^ scale in
  let v := scaled x * scaled y in
  2 ^ 53 * (p - v) <= v /\ 2 ^ 53 * (v - p) <= v.
Proof.
  destruct x as [| | |[] mx ex]; try done. destruct y as [| | |[] my ey]; try done.
  intros [Hmx Hex] [Hmy Hey] Hkx Hky Hk.
  cbn [SFmul xorb]. rewrite Pos2Z.inj_mul.
  set (a := Z.pos mx * Z.pos my).
  assert (2 ^ 104 <= a < 2 ^ 106) as Ha.
  { unfold a. split.
    - change (2 ^ 104) with (2 ^ 52 * 2 ^ 52). apply Z.mul_le_mono_nonneg; lia.
    - change (2 ^ 106) with (2 ^ 53 * 2 ^ 53). apply Z.mul_lt_mono_nonneg; lia. }
  pose proof (Zdigits2_ge a 105 ltac:(lia) ltac:(lia)) as Hd1.
  pose proof (Zdigits2_le a 106 ltac:(lia) ltac:(lia)) as Hd2.
  destruct (binary_round_aux_scaled a (ex + ey) loc_Exact a 1)
    as (m2 & e2 & -> & Hm2 & He2 & H);
    [lia | lia | | lia | unfold scale in *; lia | unfold scale in *; lia |].
  { unfold places. cbn [shr_record_of_loc shr_m shr_r shr_s].
    replace (a - a * 1) with 0 by lia. repeat split; lia. }
  cbv zeta in H. destruct H as [H1 H2]. rewrite Z.mul_1_r in H1, H2.
  split; [cbn [normal]; lia|]. cbv zeta. cbn [scaled].
  set (T := 2 ^ scale).
  assert (0 <= T) as HT by (apply Z.pow_nonneg; unfold scale; lia).
  assert (Z.pos mx * 2 ^ (ex + scale) * (Z.pos my * 2 ^ (ey + scale))
          = a * 2 ^ (ex + ey + scale) * T) as ->.
  { unfold a, T.
    rewrite <- (Z.mul_assoc _ _ (2 ^ scale)), <- Z.pow_add_r
      by (unfold scale in *; lia).
    transitivity (Z.pos mx * Z.pos my * (2 ^ (ex + scale) * 2 ^ (ey + scale)));
      [ring|].
    rewrite <- Z.pow_add_r by (unfold scale in *; lia).
    do 2 f_equal. lia. }
  set (v := a * 2 ^ (ex + ey + scale)) in *.
  set (P := Z.pos m2 * 2 ^ (e2 + scale)) in *.
  split.
  - replace (2 ^ 53 * (P * T - v * T)) with (2 ^ 53 * (P - v) * T) by ring.
    by apply Z.mul_le_mono_nonneg_r.
  - replace (2 ^ 53 * (v * T - P * T)) with (2 ^ 53 * (v - P) * T) by ring.
    by apply Z.mul_le_mono_nonneg_r.
Qed.

Lemma trunc_scaled k x :
  normal k x -> k <= scale -> trunc x = Return (scaled x / 2 ^ scale).
Proof.
  destruct x as [| | |[] m e]; try done. intros [Hm He] Hk.
  cbn [trunc scaled]. f_equal. unfold numerator, denominator.
  rewrite !Z.shiftl_mul_pow2 by lia. rewrite Z.mul_1_l.
  destruct (Z.le_gt_cases 0 e) as [H|H].
  - rewrite (Z.max_l e 0), (Z.max_r (- e) 0) by lia.
    rewrite Z.pow_0_r, Z.div_1_r, Z.pow_add_r by (unfold scale; lia).
    rewrite Z.mul_assoc, Z.div_mul; [done|]. unfold scale. lia.
  - rewrite (Z.max_r e 0), (Z.max_l (- e) 0) by lia.
    rewrite Z.pow_0_r, Z.mul_1_r.
    replace (2 ^ scale) with (2 ^ (- e) * 2 ^ (e + scale)).
    + rewrite Z.div_mul_cancel_r; [done | |].
      * apply Z.pow_nonzero; lia.
      * apply Z.pow_nonzero; lia.
    + rewrite <- Z.pow_add_r by lia. f_equal. lia.
Qed.

(** Two roundings away from [w / length]: the integer part is kept when
    the quotient is not whole, and may fall by one when it is. *)
Lemma twice_rounded_floor P U T length w :
  0 < T -> 1 <= length -> 0 <= w <= 2 ^ 51 ->
  2 ^ 53 * (P - U) <= U -> 2 ^ 53 * (U - P) <= U ->
  2 ^ 53 * (U * length - w * T) <= w * T ->
  2 ^ 53 * (w * T - U * length) <= w * T ->
  (w mod length <> 0 -> P / T = w / length) /\
  (w mod length = 0 -> P / T = w / length \/ P / T = w / length - 1).
Proof.
  intros HT Hl Hw Hm1 Hm2 Hd1 Hd2.
  pose proof (Z.div_mod w length ltac:(lia)) as Hdm.
  pose proof (Z.mod_pos_bound w length ltac:(lia)) as Hmod.
  set (N := w / length) in *. set (t := w mod length) in *.
  assert (w * T <= 2 ^ 51 * T) as HwT by (apply Z.mul_le_mono_nonneg_r; lia).
  assert (0 <= w * T) as HwT0 by (apply Z.mul_nonneg_nonneg; lia).
  assert (2 ^ 53 * (P * length) <= (2 ^ 53 + 1) * (U * length)) as H1.
  { replace (2 ^ 53 * (P * length)) with (2 ^ 53 * P * length) by ring.
    replace ((2 ^ 53 + 1) * (U * length)) with ((2 ^ 53 + 1) * U * length) by ring.
    apply Z.mul_le_mono_nonneg_r; lia. }
  assert ((2 ^ 53 - 1) * (U * length) <= 2 ^ 53 * (P * length)) as H2.
  { replace (2 ^ 53 * (P * length)) with (2 ^ 53 * P * length) by ring.
    replace ((2 ^ 53 - 1) * (U * length)) with ((2 ^ 53 - 1) * U * length) by ring.
    apply Z.mul_le_mono_nonneg_r; lia. }
  set (PL := P * length) in *. set (UL := U * length) in *.
  set (WT := w * T) in *.
  assert (PL < WT + T /\ WT - T <= PL /\ (WT - T < PL \/ WT = 0)) as (Hup & Hlow & Hlow').
  { lia. }
  assert (N * length * T = WT - t * T) as HN by (unfold WT; rewrite Hdm; ring).
  assert (P / T < N + 1) as Hlt.
  { apply Z.div_lt_upper_bound; [done|].
    apply (Z.mul_lt_mono_pos_r length); [lia|]. fold PL.
    replace (T * (N + 1) * length) with (N * length * T + length * T) by ring.
    rewrite HN.
    assert (t * T + T <= length * T).
    { replace (t * T + T) with ((t + 1) * T) by ring.
      apply Z.mul_le_mono_nonneg_r; lia. }
    lia. }
  split.
  - intros Ht. assert (N <= P / T); [|lia].
    apply Z.div_le_lower_bound; [done|].
    apply (Z.mul_le_mono_pos_r _ _ length); [lia|]. fold PL.
    replace (T * N * length) with (N * length * T) by ring. rewrite HN.
    assert (1 * T <= t * T) by (apply Z.mul_le_mono_nonneg_r; lia). lia.
  - intros Ht. assert (N - 1 <= P / T); [|lia].
    apply Z.div_le_lower_bound; [done|].
    apply (Z.mul_le_mono_pos_r _ _ length); [lia|]. fold PL.
    replace (T * (N - 1) * length) with (N * length * T - length * T) by ring.
    rewrite HN, Ht.
    assert (1 * T <= length * T) by (apply Z.mul_le_mono_nonneg_r; lia). lia.
Qed.

Lemma cancel_scale a b T : 0 < T -> a * T <= b * T -> a <= b.
Proof. intros HT H. by apply (Z.mul_le_mono_pos_r _ _ T). Qed.

(** A quotient that a double holds is returned as it is. *)
Lemma binary_round_aux_representable q e l a b m' e' :
  0 < b -> 0 <= a -> places (shr_record_of_loc q l) a b ->
  2 ^ 52 <= q -> - scale <= e -> Zdigits2 q + e <= 1023 ->
  2 ^ 52 <= Z.pos m' < 2 ^ 53 -> - scale <= e' ->
  Z.pos m' * 2 ^ (e' + scale) * b = a * 2 ^ (e + scale) ->
  binary_round_aux prec emax false q e l = S754_finite false m' e'.
Proof.
  intros Hb Ha Hpl Hq He Hmax Hm' He' H.
  destruct (binary_round_aux_nearest_bits false q e l a b Hb Hpl Hq
              ltac:(unfold scale in He; lia) Hmax)
    as (n2 & m2 & Hn).
  cbv zeta in Hn.
  destruct Hn as (Hn1 & Hn2 & Hm1 & Hm2 & Hcases & Hdown & Hup & ->).
  set (n1 := Zdigits2 q - 53) in *.
  set (b1 := b * 2 ^ n1) in *.
  assert (0 < 2 ^ n1) as Hp1 by (apply Z.pow_pos_nonneg; lia).
  assert (0 < b1) as Hb1 by (by apply Z.mul_pos_pos).
  set (S := 2 ^ (e + scale)) in *.
  assert (0 < S) as HS by (apply Z.pow_pos_nonneg; lia).
  assert (e' = e + n1 /\ a = Z.pos m' * b1) as [Ee Ea].
  { destruct (Z.lt_trichotomy (e' - e - n1) 0) as [Hd|[Hd|Hd]].
    - exfalso. set (dd := - (e' - e - n1)).
      assert (0 < 2 ^ (e' + scale)) as HS' by (apply Z.pow_pos_nonneg; lia).
      assert (S * 2 ^ n1 = 2 ^ dd * 2 ^ (e' + scale)) as Hpow.
      { unfold S, dd. rewrite <- !Z.pow_add_r by lia. f_equal. lia. }
      assert (Z.pos m' * b1 * 2 ^ (e' + scale) = a * 2 ^ dd * 2 ^ (e' + scale)) as E.
      { transitivity (Z.pos m' * 2 ^ (e' + scale) * b * 2 ^ n1); [unfold b1; ring|].
        rewrite H. transitivity (a * (S * 2 ^ n1)); [ring|]. rewrite Hpow. ring. }
      apply Z.mul_reg_r in E; [|lia].
      assert (2 <= 2 ^ dd) as Hdd.
      { change 2 with (2 ^ 1) at 1. apply Z.pow_le_mono_r; unfold dd; lia. }
      assert (a * 2 <= a * 2 ^ dd) by (apply Z.mul_le_mono_nonneg_l; lia).
      assert (Z.pos m' * b1 < 2 ^ 53 * b1) by (apply Z.mul_lt_mono_pos_r; lia).
      assert (a / b1 < 2 ^ 52); [|lia].
      apply Z.div_lt_upper_bound; lia.
    - split; [lia|].
      assert (2 ^ (e' + scale) = 2 ^ n1 * S) as Hpow.
      { unfold S. rewrite <- Z.pow_add_r by lia. f_equal. lia. }
      rewrite Hpow in H.
      assert (Z.pos m' * b1 * S = a * S) as E by (rewrite <- H; unfold b1; ring).
      apply Z.mul_reg_r in E; lia.
    - exfalso. set (dd := e' - e - n1) in *.
      assert (2 ^ (e' + scale) = 2 ^ dd * 2 ^ n1 * S) as Hpow.
      { unfold S, dd. rewrite <- !Z.pow_add_r by lia. f_equal. lia. }
      rewrite Hpow in H.
      assert (Z.pos m' * 2 ^ dd * b1 * S = a * S) as E by (rewrite <- H; unfold b1; ring).
      apply Z.mul_reg_r in E; [|lia].
      assert (2 <= 2 ^ dd) as Hdd.
      { change 2 with (2 ^ 1) at 1. apply Z.pow_le_mono_r; lia. }
      assert (2 ^ 52 * 2 <= Z.pos m' * 2 ^ dd) by (apply Z.mul_le_mono_nonneg; lia).
      assert (2 ^ 52 * 2 * b1 <= Z.pos m' * 2 ^ dd * b1)
        by (apply Z.mul_le_mono_nonneg_r; lia).
      assert (2 ^ 53 <= a / b1); [|lia].
      apply Z.div_le_lower_bound; lia. }
  assert (a / b1 = Z.pos m') as Ediv by (rewrite Ea; apply Z.div_mul; lia).
  assert (a mod b1 = 0) as Emod by (rewrite Ea; apply Z.mod_mul; lia).
  rewrite Emod, Ediv in Hdown. specialize (Hdown ltac:(lia)).
  destruct Hn2 as [-> | ->].
  - rewrite Z.mul_1_r in Hdown. injection Hdown as ->.
    f_equal. lia.
  - exfalso. lia.
Qed.

Lemma SFdiv_exact kx ky kz x y z :
  normal kx x -> normal ky y -> normal kz z ->
  0 <= kx -> 0 <= ky -> kx + ky + 53 <= scale -> kz <= scale ->
  scaled z * scaled y = scaled x * 2 ^ scale ->
  SFdiv prec emax x y = z.
Proof.
  destruct x as [| | |[] mx ex]; try done. destruct y as [| | |[] my ey]; try done.
  destruct z as [| | |[] mz ez]; try done.
  intros [Hmx Hex] [Hmy Hey] [Hmz Hez] Hkx Hky Hk Hkz H.
  cbn [scaled] in H.
  cbn [SFdiv xorb]. unfold SFdiv_core_binary.
  rewrite !(Zdigits2_unique _ 53) by lia. rewrite fexp_double.
  replace (Z.min (Z.max (53 + ex - (53 + ey) - 53) (-1074)) (ex - ey))
    with (ex - ey - 53) by (unfold scale in Hk; lia).
  replace (ex - ey - (ex - ey - 53)) with 53 by lia.
  rewrite Z.shiftl_mul_pow2 by lia.
  set (a := Z.pos mx * 2 ^ 53) in *.
  destruct (Z.div_eucl a (Z.pos my)) as [q r] eqn:Ediv.
  assert (q = a / Z.pos my) as -> by (unfold Z.div; by rewrite Ediv).
  assert (r = a mod Z.pos my) as -> by (unfold Z.modulo; by rewrite Ediv).
  assert (2 ^ 52 <= a / Z.pos my < 2 ^ 54) as Hq.
  { split.
    - apply Z.div_le_lower_bound; unfold a; lia.
    - apply Z.div_lt_upper_bound; unfold a; lia. }
  pose proof (Zdigits2_le (a / Z.pos my) 54 ltac:(lia) ltac:(lia)) as Hd2.
  apply (binary_round_aux_representable _ _ _ a (Z.pos my));
    [lia | unfold a; lia | apply new_location_places; unfold a; lia | lia
    | unfold scale in *; lia | unfold scale in *; lia | done
    | unfold scale in *; lia |].
  set (T := 2 ^ (ey + scale)) in *.
  assert (0 < T) as HT by (apply Z.pow_pos_nonneg; unfold scale in *; lia).
  assert (a * 2 ^ (ex - ey - 53 + scale) * T
          = Z.pos mx * 2 ^ (ex + scale) * 2 ^ scale) as E.
  { unfold a, T. rewrite <- !Z.mul_assoc, <- !Z.pow_add_r by (unfold scale in *; lia).
    do 2 f_equal. lia. }
  apply (Z.mul_reg_r _ _ T); [lia|]. rewrite E, <- H. ring.
Qed.

Lemma SFmul_exact kx ky kz x y z :
  normal kx x -> normal ky y -> normal kz z ->
  0 <= kx -> 0 <= ky -> kx + ky + 54 <= scale -> kz <= scale ->
  scaled z * 2 ^ scale = scaled x * scaled y ->
  SFmul prec emax x y = z.
Proof.
  destruct x as [| | |[] mx ex]; try done. destruct y as [| | |[] my ey]; try done.
  destruct z as [| | |[] mz ez]; try done.
  intros [Hmx Hex] [Hmy Hey] [Hmz Hez] Hkx Hky Hk Hkz H.
  cbn [scaled] in H.
  cbn [SFmul xorb]. rewrite Pos2Z.inj_mul.
  set (a := Z.pos mx * Z.pos my) in *.
  assert (2 ^ 104 <= a < 2 ^ 106) as Ha.
  { unfold a. split.
    - change (2 ^ 104) with (2 ^ 52 * 2 ^ 52). apply Z.mul_le_mono_nonneg; lia.
    - change (2 ^ 106) with (2 ^ 53 * 2 ^ 53). apply Z.mul_lt_mono_nonneg; lia. }
  pose proof (Zdigits2_le a 106 ltac:(lia) ltac:(lia)) as Hd2.
  apply (binary_round_aux_representable _ _ _ a 1);
    [lia | lia | | lia | unfold scale in *; lia | unfold scale in *; lia | done
    | unfold scale in *; lia |].
  { unfold places. cbn [shr_record_of_loc shr_m shr_r shr_s].
    replace (a - a * 1) with 0 by lia. repeat split; lia. }
  set (T := 2 ^ scale) in *.
  assert (0 < T) as HT by (apply Z.pow_pos_nonneg; unfold scale; lia).
  assert (Z.pos mx * 2 ^ (ex + scale) * (Z.pos my * 2 ^ (ey + scale))
          = a * 2 ^ (ex + ey + scale) * T) as E.
  { unfold a, T.
    rewrite <- (Z.mul_assoc _ _ (2 ^ scale)), <- Z.pow_add_r
      by (unfold scale in *; lia).
    transitivity (Z.pos mx * Z.pos my * (2 ^ (ex + scale) * 2 ^ (ey + scale)));
      [ring|].
    rewrite <- Z.pow_add_r by (unfold scale in *; lia).
    do 2 f_equal. lia. }
  apply (Z.mul_reg_r _ _ T); [lia|]. rewrite <- E, <- H. ring.
Qed.


(** ** The configuration error of scrolling factories *)

(** A repetition of every item of a list fails on the first item, if at
    all. *)
Lemma for_each_times {A} (l : list A) (n : Z) :
  for_each (fun c => times c n) l
  = if index_sized n then Return (map (fun c => replicate (Z.to_nat n) c) l)
    else match l with
         | [] => Return []
         | _ :: _ => Raise OverflowError
         end.
Proof.
  unfold times. destruct (index_sized n).
  - induction l as [|c l IH]; [done|]. cbn [for_each]. rewrite IH. done.
  - by destruct l.
Qed.

Lemma contents_spec chars block right bs :
  contents chars block right bs
  = if truthy block then
      if index_sized bs || bool_decide (chars = [])
      then Return (map (fun c => replicate (Z.to_nat bs) c)
                     (if right then reverse chars else chars))
      else Raise OverflowError
    else Return [chars].
Proof.
  unfold contents. destruct (truthy block); [|done].
  rewrite for_each_times. destruct (index_sized bs); [done|]. simpl.
  destruct chars as [|c chars]; [by destruct right|].
  rewrite bool_decide_eq_false_2 by done.
  destruct right; [|done].
  rewrite reverse_cons. by destruct (reverse chars).
Qed.









(** A block too large to count the repetitions of a character is refused
    too, whatever its sign, although a width is known. *)
Lemma scrolling_repetition_error (block : Z) :
  block = 2 ^ 70 \/ block = - 2 ^ 70 ->
  inner_factory (scrolling_spinner_factory (text "x") (Some 1) (Some block) None
                   true true false) None = Raise OverflowError /\
  inner_factory (scrolling_spinner_factory (text "x") (Some 1) (Some block) None
                   true true false) (Some 1) = Raise OverflowError.
Proof. intros [-> | ->]; split; vm_compute; reflexivity. Qed.

(** ** Scrolling spinners *)

Lemma scroll_at_0 sc : scroll_at sc 0 = sc.
Proof.
  destruct sc as [c [tp b w st p]]. unfold scroll_at, ribbon_at; simpl.
  do 2 f_equal. lia.
Qed.

Lemma scroll_advance_at sc t :
  scroll_advance (scroll_at sc t) = scroll_at sc (t + 1).
Proof.
  unfold scroll_advance, scroll_at, ribbon_at; simpl. do 2 f_equal. lia.
Qed.

Lemma scrolling_player_next sc g :
  0 < scroll_cycles sc ->
  exists g', player_next (ScrollingSpinner sc, g)
             = Some (scroll_fill sc, (ScrollingSpinner (scroll_advance sc), g')).
Proof.
  intros Hc. unfold player_next; simpl. unfold counted.
  destruct (Z.of_nat g <? scroll_cycles sc); simpl; [by eexists|].
  destruct (Z.ltb_spec 0 (scroll_cycles sc)); [by eexists | lia].
Qed.

Lemma scrolling_discard sc g t :
  0 < scroll_cycles sc ->
  exists g', discard t (ScrollingSpinner sc, g)
             = Return (ScrollingSpinner (scroll_at sc (Z.of_nat t)), g').
Proof.
  intros Hc. revert sc g Hc.
  induction t as [|t IH]; intros sc g Hc.
  - exists g. simpl. by rewrite scroll_at_0.
  - destruct (scrolling_player_next sc g Hc) as (g1 & E).
    cbn [discard]. rewrite E.
    destruct (IH (scroll_advance sc) g1 Hc) as (g' & E').
    exists g'. rewrite E'. do 3 f_equal.
    rewrite <- (scroll_at_0 sc) at 1. rewrite scroll_advance_at.
    destruct sc as [c [tp b w st p]]. unfold scroll_at, ribbon_at; simpl.
    do 2 f_equal. lia.
Qed.

(** A restarted scrolling spinner plays its ribbon on. *)
Lemma scrolling_player_frame sc g t :
  0 < scroll_cycles sc ->
  player_frame (ScrollingSpinner sc, g) t
  = Some (ribbon_frame (ribbon_at (infinite_ribbon sc) (Z.of_nat t))).
Proof.
  intros Hc. unfold player_frame.
  destruct (scrolling_discard sc g t Hc) as (g' & ->).
  destruct (scrolling_player_next (scroll_at sc (Z.of_nat t)) g') as (g'' & ->); done.
Qed.

(** The ribbon repeats after as many frames as its tape has cells. *)
Lemma ribbon_frame_period r t :
  ribbon_frame (ribbon_at r (t + len (tape r)))
  = ribbon_frame (ribbon_at r t).
Proof.
  unfold ribbon_frame. simpl. apply map_ext. intros j.
  unfold cell. simpl.
  replace (pos r + (t + len (tape r)) * step r + Z.of_nat j)
    with (pos r + t * step r + Z.of_nat j + step r * len (tape r)) by lia.
  by rewrite Z_mod_plus_full.
Qed.

Lemma scrolling_inner_factory_cycles chars length block background
    (right hiding overlay : bool) length_actual sc :
  scrolling_inner_factory chars length block background right hiding overlay
    length_actual = Return sc ->
  exists r bs,
    ratio length length_actual = Return r /\
    block_size block r chars = Return bs /\
    scroll_cycles sc
    = gap hiding (int_or length_actual (int_or length (len chars))) bs + bs.
Proof.
  unfold scrolling_inner_factory. intros H.
  destruct (truthy block && negb (truthy length_actual || truthy length));
    [done|].
  bind_inv H. bind_inv H. bind_inv H. injection H as <-. simpl. eauto.
Qed.


Lemma scrolling_x_period la :
  la = None \/ la = Some 5 ->
  plays_with_period
    (scrolling_spinner_factory (text "x") (Some 5) None None true true false) la 6.
Proof.
  intros Hla.
  assert (exists sc, inner_factory
            (scrolling_spinner_factory (text "x") (Some 5) None None true true false) la
            = Return (ScrollingSpinner sc) /\ scroll_cycles sc = 6 /\
            len (tape (infinite_ribbon sc)) = 6) as (sc & E & Hc & Ht).
  { destruct Hla as [-> | ->]; eexists; (split; [vm_compute; reflexivity|done]). }
  exists (ScrollingSpinner sc). split; [done|]. split; [done|].
  intros t. eexists. unfold spinner_player.
  rewrite !scrolling_player_frame by lia. split; [done|].
  rewrite Nat2Z.inj_add. change (Z.of_nat 6) with 6. rewrite <- Ht.
  by rewrite ribbon_frame_period.
Qed.

(** C1. A scrolling spinner has [cycles = gap + block_size], where [gap] is
    the bound width when [hiding] and [max(0, width - block_size)] otherwise.
    For [chars="x"], [length=5], hiding, rightward, called at its natural
    width, [cycles] is 6 and the restarted output repeats every 6 frames. *)
Theorem scrolling_cycles :
  (forall chars length block background (right hiding overlay : bool)
          length_actual s,
     inner_factory (scrolling_spinner_factory chars length block background
                      right hiding overlay) length_actual = Return s ->
     exists r bs,
       ratio length length_actual = Return r /\
       block_size block r chars = Return bs /\
       let bound := int_or length_actual (natural
         (scrolling_spinner_factory chars length block background
            right hiding overlay)) in
       let gap := if hiding then bound else Z.max 0 (bound - bs) in
       cycles s = gap + bs) /\
  plays_with_period
    (scrolling_spinner_factory (text "x") (Some 5) None None true true false) None 6 /\
  plays_with_period
    (scrolling_spinner_factory (text "x") (Some 5) None None true true false) (Some 5) 6.
Proof.
  split; [|split; apply scrolling_x_period; auto].
  intros chars length block background right hiding overlay la s H.
  simpl in H. bind_inv H. injection H as <-.
  apply scrolling_inner_factory_cycles in Ha as (r & bs & Hr & Hbs & Hc).
  exists r, bs. by repeat split.
Qed.

Lemma scrolling_cycles_witness :
  exists s r bs,
    inner_factory (scrolling_spinner_factory (text "x") (Some 4) (Some 2) None
                     true false false) (Some 8) = Return s /\
    ratio (Some 4) (Some 8) = Return r /\
    block_size (Some 2) r (text "x") = Return bs /\
    cycles s = Z.max 0 (8 - bs) + bs.
Proof.
  assert (exists s,
            inner_factory (scrolling_spinner_factory (text "x") (Some 4) (Some 2)
                             None true false false) (Some 8) = Return s)
    as [s E] by (eexists; vm_compute; reflexivity).
  exists s.
  destruct (proj1 scrolling_cycles (text "x") (Some 4) (Some 2) None true false false
              (Some 8) s E) as (r & bs & Hr & Hbs & Hc).
  exists r, bs. split; [exact E|]. split; [exact Hr|].
  split; [exact Hbs | exact Hc].
Defined.

(** ** Players *)

Lemma discard_add n m p :
  discard (n + m) p = (p' ← discard n p; discard m p').
Proof.
  revert p. induction n as [|n IH]; intros p; simpl; [done|].
  destruct (player_next p) as [[? p']|]; [apply IH | done].
Qed.

Lemma player_frame_discard n p p' t :
  discard n p = Return p' ->
  player_frame p' t = player_frame p (t + n).
Proof.
  intros H. unfold player_frame.
  rewrite (Nat.add_comm t n), discard_add, H. done.
Qed.

Lemma frame_player_next la frames g :
  let n := List.length frames in
  (0 < n)%nat -> (g <= n)%nat ->
  exists fill, frames !! (g mod n)%nat = Some fill /\
    player_next (FrameSpinner la frames, g)
    = Some (repeating la fill, (FrameSpinner la frames, S (g mod n))).
Proof.
  intros n Hn Hg.
  destruct (lookup_lt_is_Some_2 frames (g mod n)%nat) as [fill Hf].
  { apply Nat.mod_upper_bound. lia. }
  exists fill. split; [done|].
  unfold player_next. cbn [next fst snd]. unfold counted, len. fold n.
  destruct (Z.ltb_spec (Z.of_nat g) (Z.of_nat n)).
  - rewrite Nat.mod_small in Hf |- * by lia. by rewrite Hf.
  - assert (g = n) as -> by lia. rewrite Nat.Div0.mod_same in Hf |- *.
    cbn [negb]. destruct (Z.ltb_spec 0 (Z.of_nat n)); [|lia]. by rewrite Hf.
Qed.

Lemma frame_discard la frames g t :
  let n := List.length frames in
  (0 < n)%nat -> (g <= n)%nat ->
  exists g', discard t (FrameSpinner la frames, g)
             = Return (FrameSpinner la frames, g') /\
    (g' <= n)%nat /\ (g' mod n = (g + t) mod n)%nat.
Proof.
  intros n Hn. revert g. induction t as [|t IH]; intros g Hg.
  - exists g. simpl. by rewrite Nat.add_0_r.
  - destruct (frame_player_next la frames g Hn Hg) as (fill & _ & E).
    fold n in E. cbn [discard]. rewrite E.
    assert (g mod n < n)%nat by (apply Nat.mod_upper_bound; lia).
    destruct (IH (S (g mod n))) as (g' & D & Hle & Hmod); [lia|].
    exists g'. repeat split; [done | done |].
    rewrite Hmod. replace (g + S t)%nat with (g + (1 + t))%nat by lia.
    replace (S (g mod n) + t)%nat with (g mod n + (1 + t))%nat by lia.
    by rewrite Nat.Div0.add_mod_idemp_l.
Qed.

(** A basic spinner replays its frames in order, for ever. *)
Lemma frame_player_frame la frames t :
  frames <> [] ->
  player_frame (spinner_player (FrameSpinner la frames)) t
  = repeating la <$> frames !! (t mod List.length frames)%nat.
Proof.
  intros Hne. assert (0 < List.length frames)%nat as Hn
    by (destruct frames; [done | simpl; lia]).
  unfold player_frame, spinner_player.
  destruct (frame_discard la frames 0 t Hn) as (g' & -> & Hle & Hmod); [lia|].
  destruct (frame_player_next la frames g' Hn Hle) as (fill & Hf & ->).
  simpl in *. by rewrite <- Hmod, Hf.
Qed.

Lemma periodic_mod (p : player) (c : nat) :
  (0 < c)%nat -> periodic p c ->
  forall t, player_frame p t = player_frame p (t mod c).
Proof.
  intros Hc Hp t. induction t as [t IH] using lt_wf_ind.
  destruct (Nat.lt_ge_cases t c) as [Hlt | Hge].
  - by rewrite Nat.mod_small.
  - replace t with ((t - c) + c)%nat at 1 by lia.
    rewrite Hp, IH by lia.
    replace t with ((t - c) + 1 * c)%nat at 2 by lia.
    by rewrite Nat.Div0.mod_add.
Qed.

(** ** Compound spinners *)

Lemma longest_spec spinners l :
  longest spinners = Return l ->
  l ∈ spinners /\ Forall (fun s => cycles s <= cycles l) spinners.
Proof.
  destruct spinners as [|s rest]; [done|]. simpl. intros [= <-].
  set (pick := fun best x : spinner => if cycles best <? cycles x then x else best).
  assert (forall rest s,
            (foldl pick s rest = s \/ foldl pick s rest ∈ rest) /\
            cycles s <= cycles (foldl pick s rest) /\
            Forall (fun x => cycles x <= cycles (foldl pick s rest)) rest) as H.
  { clear. induction rest as [|x rest IH]; intros s; simpl.
    - repeat split; [by left | lia | constructor].
    - destruct (IH (pick s x)) as (Hin & Hle & Hall).
      assert (cycles s <= cycles (pick s x) /\ cycles x <= cycles (pick s x)
              /\ (pick s x = s \/ pick s x = x)) as (Hs & Hx & Hp).
      { unfold pick. destruct (Z.ltb_spec (cycles s) (cycles x)); repeat split; auto; lia. }
      repeat split.
      + destruct Hin as [-> | Hin].
        * destruct Hp as [-> | ->]; [by left | right; left].
        * right. by right.
      + lia.
      + constructor; [lia | done]. }
  destruct (H rest s) as (Hin & Hle & Hall). split.
  - destruct Hin as [-> | Hin]; [left | by right].
  - constructor; [lia | done].
Qed.

Lemma draw_Some ps rs :
  Forall2 (fun p r => player_next p = Some r) ps rs ->
  draw (next true) ps = Some (rs.*1, rs.*2).
Proof.
  induction 1 as [|[s g] [fill [s' g']] ps rs Hp _ IH]; [done|].
  unfold player_next in Hp. simpl in *.
  destruct (next true s g); try done. injection Hp as -> -> ->.
  by rewrite IH.
Qed.

Lemma draw_inv ps fills ps' :
  draw (next true) ps = Some (fills, ps') ->
  Forall2 (fun p r => player_next p = Some r) ps (zip fills ps')
  /\ List.length fills = List.length ps'.
Proof.
  revert fills ps'. induction ps as [|[s g] ps IH]; intros fills ps'; simpl.
  - intros [= <- <-]. split; [constructor | done].
  - intros H. destruct (next true s g) as [fill s' g'| |] eqn:E; try done.
    destruct (draw (next true) ps) as [[fs qs]|]; try done.
    injection H as <- <-. destruct (IH fs qs eq_refl) as [D Hl].
    simpl. split; [|by rewrite Hl].
    constructor; [|done]. unfold player_next. simpl. by rewrite E.
Qed.

Lemma compound_next la c ps rs g :
  Z.of_nat g < c ->
  Forall2 (fun p r => player_next p = Some r) ps rs ->
  next false (CompoundSpinner la c ps) g
  = Yield (repeating la (mjoin rs.*1)) (CompoundSpinner la c rs.*2) (S g).
Proof.
  intros Hg H. simpl. unfold counted.
  destruct (Z.ltb_spec (Z.of_nat g) c); [|lia].
  by rewrite (draw_Some ps rs H).
Qed.

Lemma player_next_restart (p : player) :
  player_next p =
  match next false p.1 p.2 with
  | Yield fill s g => Some (fill, (s, g))
  | StopIteration s =>
      match next false s 0%nat with
      | Yield fill s' g => Some (fill, (s', g))
      | _ => None
      end
  | Stuck => None
  end.
Proof.
  unfold player_next. rewrite next_restart.
  destruct (next false p.1 p.2) as [| s |]; try done.
  by destruct (next false s 0%nat).
Qed.

Lemma compound_inner_factory_Return fs la s :
  compound_inner_factory fs la = Return s ->
  exists each spinners,
    each_length la (len fs) = Return each /\
    Forall2 (fun f sp => f each = Return sp) fs spinners /\
    cycles s ∈ cycles <$> spinners /\
    Forall (fun sp => cycles sp <= cycles s) spinners /\
    s = CompoundSpinner la (cycles s) (spinner_player <$> spinners).
Proof.
  unfold compound_inner_factory. intros H.
  bind_inv H. bind_inv H. bind_inv H. injection H as <-.
  apply for_each_Return in Ha0. apply longest_spec in Ha1 as [Hin Hall].
  exists a, a0. simpl. repeat split; try done.
  by apply list_elem_of_fmap_2.
Qed.

Lemma fit_length n text : List.length (fit n text) = n.
Proof.
  unfold fit. rewrite length_take, length_app, length_replicate. lia.
Qed.

Lemma fit_same text : fit (List.length text) text = text.
Proof.
  unfold fit. destruct text as [|c text]; [done|].
  set (t := c :: text). change (List.length t) with (S (List.length text)).
  cbn [replicate mjoin list_join]. rewrite <- app_assoc.
  rewrite take_app_length'; [done|]. done.
Qed.

Lemma repeating_same la text :
  truthy la = false \/ la = Some (len text) -> repeating la text = text.
Proof.
  unfold repeating. intros [-> | ->]; [done|].
  destruct (truthy _); [|done]. simpl. unfold len.
  by rewrite Nat2Z.id, fit_same.
Qed.

Lemma repeating_length w text :
  0 < w -> len (repeating (Some w) text) = w.
Proof.
  intros Hw. unfold repeating, len. simpl.
  destruct (Z.eqb_spec w 0); [lia|]. simpl. rewrite fit_length. lia.
Qed.

(** C6. A compound spinner calls every factory with the ceiling of the
    double-precision quotient of the width by the number of factories, which
    is the ceiling of the quotient for widths below [2^53]; its [cycles] is
    the greatest [cycles] of the spinners; every tick takes one frame from
    every player in order, joins them and fixes the result to the width; a
    player whose spinner is exhausted starts it again. Over two basic
    factories of 3 and 5 frames, [cycles] is 5 and tick 3 joins frame 0 of
    the first with frame 3 of the second. *)
Theorem compound_spinner :
  (forall fs la s,
     inner_factory (compound_spinner_factory fs) la = Return s ->
     exists each spinners,
       each_length la (len fs) = Return each /\
       Forall2 (fun f sp => inner_factory f each = Return sp) fs spinners /\
       cycles s ∈ cycles <$> spinners /\
       Forall (fun sp => cycles sp <= cycles s) spinners /\
       s = CompoundSpinner la (cycles s) (spinner_player <$> spinners)) /\
  (forall w n, 1 <= w < 2 ^ 53 -> 1 <= n < 2 ^ 53 ->
     each_length (Some w) n = Return (Some (ceil_div w n))) /\
  (forall la c ps rs g,
     Z.of_nat g < c ->
     Forall2 (fun p r => player_next p = Some r) ps rs ->
     next false (CompoundSpinner la c ps) g
     = Yield (repeating la (mjoin rs.*1)) (CompoundSpinner la c rs.*2) (S g)) /\
  (forall la text,
     truthy la = false \/ la = Some (len text) -> repeating la text = text) /\
  (forall p : player,
     player_next p =
     match next false p.1 p.2 with
     | Yield fill s g => Some (fill, (s, g))
     | StopIteration s =>
         match next false s 0%nat with
         | Yield fill s' g => Some (fill, (s', g))
         | _ => None
         end
     | Stuck => None
     end) /\
  (forall a0 a1 a2 b0 b1 b2 b3 b4 fa fb,
     frame_spinner_factory [a0; a1; a2] = Return fa ->
     frame_spinner_factory [b0; b1; b2; b3; b4] = Return fb ->
     exists sa sb s,
       inner_factory fa None = Return sa /\ cycles sa = 3 /\
       inner_factory fb None = Return sb /\ cycles sb = 5 /\
       inner_factory (compound_spinner_factory [fa; fb]) None = Return s /\
       cycles s = 5 /\
       player_frame (spinner_player sa) 0 = Some a0 /\
       player_frame (spinner_player sb) 3 = Some b3 /\
       player_frame (spinner_player s) 3 = Some (a0 ++ b3)).
Proof.
  split; [|split; [|split; [|split; [|split]]]].
  - intros fs la s H. simpl in H.
    apply compound_inner_factory_Return in H
      as (each & spinners & He & Hs & Hin & Hall & Hshape).
    exists each, spinners. unfold len in He |- *. rewrite length_map in He.
    repeat split; try done. by apply Forall2_fmap_l in Hs.
  - apply each_length_ceil.
  - apply compound_next.
  - apply repeating_same.
  - apply player_next_restart.
  - intros a0 a1 a2 b0 b1 b2 b3 b4 fa fb [= <-] [= <-].
    exists (FrameSpinner None [a0; a1; a2]),
      (FrameSpinner None [b0; b1; b2; b3; b4]),
      (CompoundSpinner None 5
         [spinner_player (FrameSpinner None [a0; a1; a2]);
          spinner_player (FrameSpinner None [b0; b1; b2; b3; b4])]).
    repeat split; try reflexivity.
    transitivity (Some (a0 ++ b3 ++ [])); [reflexivity | by rewrite app_nil_r].
Qed.

Lemma compound_spinner_witness :
  let fs := [FrameFactory [text "ab"; text "cd"];
             FrameFactory [text "x"; text "y"; text "z"]] in
  let s := CompoundSpinner (Some 5) 3
             [spinner_player (FrameSpinner (Some 3) [text "ab"; text "cd"]);
              spinner_player (FrameSpinner (Some 3) [text "x"; text "y"; text "z"])] in
  inner_factory (compound_spinner_factory fs) (Some 5) = Return s /\
  (exists each spinners,
     each_length (Some 5) (len fs) = Return each /\
     Forall2 (fun f sp => inner_factory f each = Return sp) fs spinners /\
     cycles s ∈ cycles <$> spinners /\
     Forall (fun sp => cycles sp <= cycles s) spinners /\
     s = CompoundSpinner (Some 5) (cycles s) (spinner_player <$> spinners)) /\
  each_length (Some 5) 2 = Return (Some (ceil_div 5 2)) /\
  next false s 0%nat
  = Yield (text "abaxx")
      (CompoundSpinner (Some 5) 3
         [(FrameSpinner (Some 3) [text "ab"; text "cd"], 1%nat);
          (FrameSpinner (Some 3) [text "x"; text "y"; text "z"], 1%nat)]) 1%nat.
Proof.
  intros fs s.
  assert (inner_factory (compound_spinner_factory fs) (Some 5) = Return s) as E
    by (vm_compute; reflexivity).
  split; [exact E|]. split; [exact (proj1 compound_spinner fs (Some 5) s E)|].
  split; [apply (proj1 (proj2 compound_spinner)); lia|].
  refine (proj1 (proj2 (proj2 compound_spinner)) (Some 5) 3 _
            [(text "aba", (FrameSpinner (Some 3) [text "ab"; text "cd"], 1%nat));
             (text "xxx", (FrameSpinner (Some 3) [text "x"; text "y"; text "z"], 1%nat))]
            0%nat _ _); [lia|].
  repeat constructor.
Defined.

(** Above [2^53] the quotient is no longer exact: a compound spinner over
    one factory, called with [2^53 + 1], calls that factory with [2^53]. *)
Lemma each_length_rounded :
  each_length (Some (2 ^ 53 + 1)) 1 = Return (Some (2 ^ 53)) /\
  ceil_div (2 ^ 53 + 1) 1 = 2 ^ 53 + 1 /\
  inner_factory (compound_spinner_factory [FrameFactory [text "-"]])
    (Some (2 ^ 53 + 1))
  = Return (CompoundSpinner (Some (2 ^ 53 + 1)) 1
              [spinner_player (FrameSpinner (Some (2 ^ 53)) [text "-"])]).
Proof. repeat split; vm_compute; reflexivity. Qed.

(** ** Delayed spinners *)

Lemma enumerate_lookup {A} (l : list A) i j x :
  enumerate l !! i = Some (j, x) <-> j = i /\ l !! i = Some x.
Proof.
  unfold enumerate. rewrite lookup_zip_with_Some. split.
  - intros (a & b & [= -> ->] & Ha & Hb).
    apply lookup_seq in Ha as [-> _]. done.
  - intros [-> Hx]. exists i, x. repeat split; [|done].
    apply lookup_seq. split; [done|]. by apply lookup_lt_Some in Hx.
Qed.

Lemma Forall2_replicate_l {A B} (P : A -> B -> Prop) n x l :
  Forall2 P (replicate n x) l -> List.length l = n /\ Forall (P x) l.
Proof.
  revert l. induction n as [|n IH]; intros l; simpl; inversion 1; subst.
  - by split.
  - destruct (IH _ ltac:(eassumption)) as [<- ?]. split; [done | by constructor].
Qed.

Lemma delayed_inner_factory_Return F nat_ copies offset la s :
  delayed_inner_factory F nat_ copies offset la = Return s ->
  exists n each sub,
    copies_actual nat_ copies la = Return n /\
    each_length la (Z.of_nat (Z.to_nat n)) = Return each /\
    F each = Return sub /\
    cycles s = cycles sub /\
    List.length (players s) = Z.to_nat n /\
    forall i p, players s !! i = Some p ->
      discard (Z.to_nat (Z.of_nat i * offset)) (spinner_player sub) = Return p.
Proof.
  unfold delayed_inner_factory. intros H.
  bind_inv H. bind_inv H. apply times_Return in Ha0 as [_ ->].
  bind_inv H. bind_inv H. injection H as <-.
  apply compound_inner_factory_Return in Ha0
    as (each & spinners & He & Hs & Hin & Hall & Hshape).
  apply Forall2_replicate_l in Hs as [Hlen Hs].
  unfold len in He. rewrite length_replicate in He.
  destruct spinners as [|sub spinners]; [by apply elem_of_nil in Hin|].
  assert (forall sp, sp ∈ sub :: spinners -> sp = sub) as Hsame.
  { intros sp Hsp. rewrite Forall_forall in Hs.
    pose proof (Hs sp Hsp) as E1. pose proof (Hs sub ltac:(left)) as E2.
    rewrite E1 in E2. by injection E2. }
  exists a, each, sub. split; [done|]. split; [done|].
  split; [apply (proj1 (Forall_forall _ _) Hs); left|].
  rewrite Hshape in Ha1 |- *. cbn [with_players players cycles] in *.
  apply for_each_Return in Ha1.
  split.
  { apply list_elem_of_fmap in Hin as (sp & -> & Hsp). by rewrite (Hsame sp Hsp). }
  split.
  { apply Forall2_length in Ha1. rewrite <- Ha1. unfold enumerate.
    rewrite length_zip_with, length_seq, length_fmap. lia. }
  intros i p Hp.
  destruct (Forall2_lookup_r _ _ _ _ _ Ha1 Hp) as ([j q] & Hq & Hd).
  apply enumerate_lookup in Hq as [-> Hq].
  rewrite list_lookup_fmap in Hq.
  destruct ((sub :: spinners) !! i) as [sp|] eqn:Hsp; [|done].
  injection Hq as <-. apply list_elem_of_lookup_2 in Hsp.
  by rewrite (Hsame sp Hsp) in Hd.
Qed.

Lemma frame_periodic la frames :
  frames <> [] ->
  periodic (spinner_player (FrameSpinner la frames)) (List.length frames).
Proof.
  intros Hne t. rewrite !frame_player_frame by done.
  replace (t + List.length frames)%nat with (t + 1 * List.length frames)%nat by lia.
  by rewrite Nat.Div0.mod_add.
Qed.

(** C7. A delayed spinner is a compound spinner over equal copies of one
    spinner, in which player [i] has had [i * offset] frames discarded (none
    when that is negative) when the factory returns. So, for an [offset]
    that is not negative, copy [i] at tick [t] shows what copy 0 shows at
    tick [t + i * offset], which, over a spinner whose output has period
    [c], is tick [(t + i * offset) mod c]. A basic spinner has its number of
    frames as period; with three copies and offset 1 over two frames, copy
    [i] at tick [t] shows copy 0's frame of tick [(t + i) mod 2]. *)
Theorem delayed_spinner :
  (forall f copies offset la s,
     inner_factory (delayed_spinner_factory f copies offset) la = Return s ->
     exists n each sub,
       copies_actual (natural f) copies la = Return n /\
       each_length la (Z.of_nat (Z.to_nat n)) = Return each /\
       inner_factory f each = Return sub /\
       List.length (players s) = Z.to_nat n /\
       forall i p, players s !! i = Some p ->
         discard (Z.to_nat (Z.of_nat i * offset)) (spinner_player sub)
         = Return p /\
         (0 <= offset ->
          (forall t, player_frame p t
                     = player_frame (spinner_player sub)
                         (t + i * Z.to_nat offset)) /\
          (forall c, (0 < c)%nat -> periodic (spinner_player sub) c ->
           forall p0, players s !! 0%nat = Some p0 ->
           forall t, player_frame p t
                     = player_frame p0 ((t + i * Z.to_nat offset) mod c)))) /\
  (forall la frames,
     frames <> [] ->
     periodic (spinner_player (FrameSpinner la frames)) (List.length frames)) /\
  (forall a b fa la s,
     frame_spinner_factory [a; b] = Return fa ->
     inner_factory (delayed_spinner_factory fa 3 1) la = Return s ->
     forall i p p0 t,
       players s !! i = Some p -> players s !! 0%nat = Some p0 ->
       player_frame p t = player_frame p0 ((t + i) mod 2)).
Proof.
  assert (forall f copies offset la s,
     inner_factory (delayed_spinner_factory f copies offset) la = Return s ->
     exists n each sub,
       copies_actual (natural f) copies la = Return n /\
       each_length la (Z.of_nat (Z.to_nat n)) = Return each /\
       inner_factory f each = Return sub /\
       List.length (players s) = Z.to_nat n /\
       forall i p, players s !! i = Some p ->
         discard (Z.to_nat (Z.of_nat i * offset)) (spinner_player sub)
         = Return p /\
         (0 <= offset ->
          (forall t, player_frame p t
                     = player_frame (spinner_player sub)
                         (t + i * Z.to_nat offset)) /\
          (forall c, (0 < c)%nat -> periodic (spinner_player sub) c ->
           forall p0, players s !! 0%nat = Some p0 ->
           forall t, player_frame p t
                     = player_frame p0 ((t + i * Z.to_nat offset) mod c)))) as General.
  { intros f copies offset la s H. simpl in H.
    apply delayed_inner_factory_Return in H
      as (n & each & sub & Hn & He & Hsub & _ & Hlen & Hdisc).
    exists n, each, sub. do 4 (split; [done|]).
    intros i p Hp. apply Hdisc in Hp. split; [done|]. intros Hoff.
    assert (forall t, player_frame p t
                      = player_frame (spinner_player sub)
                          (t + i * Z.to_nat offset)) as Hshift.
    { intros t. rewrite (player_frame_discard _ _ _ t Hp).
      f_equal. rewrite Z2Nat.inj_mul, Nat2Z.id by lia. done. }
    split; [done|]. intros c Hc Hper p0 Hp0 t.
    apply Hdisc in Hp0. simpl in Hp0. injection Hp0 as <-.
    rewrite Hshift. apply periodic_mod; [lia | done]. }
  split; [exact General|]. split; [exact frame_periodic|].
  intros a b fa la s [= <-] H i p p0 t Hp Hp0.
  destruct (General _ _ _ _ _ H) as (n & each & sub & _ & _ & Hsub & _ & Hplay).
  simpl in Hsub. injection Hsub as <-.
  destruct (Hplay i p Hp) as (_ & Hshift).
  assert (0 <= 1) as Hoff by lia. destruct (Hshift Hoff) as [_ Hmod].
  rewrite (Hmod 2%nat ltac:(lia) (frame_periodic each [a; b] ltac:(done)) p0 Hp0 t).
  change (Z.to_nat 1) with 1%nat.
  by rewrite Nat.mul_1_r.
Qed.

Lemma delayed_spinner_witness :
  let f := FrameFactory [text "-"; text "="] in
  let sub := FrameSpinner None [text "-"; text "="] in
  let s := CompoundSpinner None 2
             [(sub, 0%nat); (sub, 2%nat); (sub, 2%nat)] in
  inner_factory (delayed_spinner_factory f 3 2) None = Return s /\
  player_frame (sub, 2%nat) 5 = player_frame (sub, 0%nat) ((5 + 2 * 2) mod 2).
Proof.
  intros f sub s.
  assert (inner_factory (delayed_spinner_factory f 3 2) None = Return s) as E
    by (vm_compute; reflexivity).
  split; [exact E|].
  destruct (proj1 delayed_spinner f 3 2 None s E)
    as (n & each & sub' & Hn & He & Hsub & _ & Hplay).
  injection Hn as <-. injection He as <-. injection Hsub as <-.
  destruct (Hplay 2%nat (sub, 2%nat) eq_refl) as (_ & Hshift).
  assert (0 <= 2) as Hoff by lia. destruct (Hshift Hoff) as [_ Hmod].
  refine (Hmod 2%nat _ _ (sub, 0%nat) eq_refl 5%nat); [lia|].
  exact (proj1 (proj2 delayed_spinner) None [text "-"; text "="] ltac:(done)).
Defined.

(** The shift is by the frames discarded, and wraps at a period of the
    copied spinner. Its [cycles] need not be one: over a compound spinner of
    3 and 5 frames ([cycles] 5, period 15) copy 1 at tick 4 does not show
    what copy 0 shows at tick [(4 + 1) mod 5]. And a negative [offset]
    discards nothing: with offset -1 over two frames copy 1 at tick 0 shows
    copy 0's frame of tick 0, not of tick [(0 - 1) mod 2]. *)
Lemma delayed_shift_limits :
  (exists s p0 p1,
     inner_factory
       (delayed_spinner_factory
          (compound_spinner_factory
             [FrameFactory [text "a"; text "b"; text "c"];
              FrameFactory [text "v"; text "w"; text "x"; text "y"; text "z"]])
          2 1) None = Return s /\
     cycles s = 5 /\
     players s !! 0%nat = Some p0 /\ players s !! 1%nat = Some p1 /\
     player_frame p1 4 = Some (text "cv") /\
     player_frame p0 ((4 + 1 * 1) mod 5) = Some (text "av")) /\
  (exists s p0 p1,
     inner_factory
       (delayed_spinner_factory (FrameFactory [text "a"; text "b"]) 3 (-1))
       None = Return s /\
     players s !! 0%nat = Some p0 /\ players s !! 1%nat = Some p1 /\
     player_frame p1 0 = Some (text "a") /\
     player_frame p0 (Z.to_nat ((0 + 1 * -1) mod 2)) = Some (text "b")).
Proof.
  split.
  - do 3 eexists. split; [vm_compute; reflexivity|].
    repeat split; vm_compute; reflexivity.
  - do 3 eexists. split; [vm_compute; reflexivity|].
    repeat split; vm_compute; reflexivity.
Qed.

(** ** Frames have the bound width *)

Lemma spinner_induction (P : spinner -> Prop) :
  (forall la frames, P (FrameSpinner la frames)) ->
  (forall sc, P (ScrollingSpinner sc)) ->
  (forall la rs ls rds lds, P (BouncingSpinner la rs ls rds lds)) ->
  (forall la c ps, Forall (fun p => P p.1) ps -> P (CompoundSpinner la c ps)) ->
  forall s, P s.
Proof.
  intros HF HS HB HC. fix IH 1.
  intros [la frames|sc|la rs ls rds lds|la c ps];
    [apply HF | apply HS | apply HB |].
  apply HC. revert ps. fix IHps 1.
  intros [|[s g] ps]; constructor; [apply IH | apply IHps].
Qed.

Lemma factory_induction (P : factory -> Prop) :
  (forall frames, P (FrameFactory frames)) ->
  (forall chars length block background right_ hiding overlay,
     P (ScrollingFactory chars length block background right_ hiding overlay)) ->
  (forall right_chars length block left_chars blank hiding,
     P (BouncingFactory right_chars length block left_chars blank hiding)) ->
  (forall fs, Forall P fs -> P (CompoundFactory fs)) ->
  (forall f copies offset, P f -> P (DelayedFactory f copies offset)) ->
  forall f, P f.
Proof.
  intros HF HS HB HC HD. fix IH 1.
  intros [frames|? ? ? ? ? ? ?|? ? ? ? ? ?|fs|f copies offset];
    [apply HF | apply HS | apply HB | | apply HD, IH].
  apply HC. revert fs. fix IHfs 1.
  intros [|f fs]; constructor; [apply IH | apply IHfs].
Qed.

Lemma frame_width_compound la c ps :
  frame_width (CompoundSpinner la c ps)
  = if truthy la then Some (Z.of_nat (Z.to_nat (default 0 la)))
    else total_width ps.
Proof.
  simpl. destruct (truthy la); [done|].
  induction ps as [|[s g] ps IH]; simpl; [done|]. by rewrite IH.
Qed.

Lemma uniform_Some ws W w :
  uniform ws = Some W -> w ∈ ws -> w = W.
Proof.
  destruct ws as [|w0 ws]; [done|]. simpl.
  destruct (forallb (Z.eqb w0) ws) eqn:E; [|done]. intros [= <-].
  rewrite forallb_forall in E. intros [->|Hin]%elem_of_cons; [done|].
  apply list_elem_of_In in Hin. apply E in Hin. by apply Z.eqb_eq in Hin.
Qed.

Lemma ribbon_frame_length r :
  len (ribbon_frame r) = Z.of_nat (Z.to_nat (width r)).
Proof. unfold ribbon_frame, len. by rewrite length_map, length_seq. Qed.

Lemma repeating_len la fill :
  truthy la = true ->
  len (repeating la fill) = Z.of_nat (Z.to_nat (default 0 la)).
Proof. unfold repeating, len. intros ->. by rewrite fit_length. Qed.

Lemma len_mjoin (fills : list str) :
  len (mjoin fills) = foldr (fun fill acc => len fill + acc) 0 fills.
Proof.
  induction fills as [|fill fills IH]; [done|].
  simpl. by rewrite len_app, IH.
Qed.

Lemma bouncing_run_width fuel la rs ls rds lds k W :
  frame_width (BouncingSpinner la rs ls rds lds) = Some W ->
  match bouncing_run fuel la rs ls rds lds k with
  | Yield fill s' _ => len fill = W /\ frame_width s' = Some W
  | StopIteration s' => frame_width s' = Some W
  | Stuck => True
  end.
Proof.
  revert rs ls k. induction fuel as [|fuel IH]; intros rs ls k H; [done|].
  cbn [bouncing_run].
  assert (frame_width (BouncingSpinner la (scroll_advance rs) ls rds lds) = Some W)
    as Hr by done.
  assert (frame_width (BouncingSpinner la rs (scroll_advance ls) rds lds) = Some W)
    as Hl by done.
  assert (forall sc, sc = rs \/ sc = ls ->
            len (repeating (Some la) (scroll_fill sc)) = W) as Hfill.
  { intros sc Hsc. cbn [frame_width] in H. unfold repeating. simpl.
    destruct (Z.eqb_spec la 0); simpl.
    - unfold scroll_fill. simpl. rewrite ribbon_frame_length.
      apply (uniform_Some _ _ _ H). destruct Hsc as [-> | ->]; set_solver.
    - injection H as <-. unfold len. by rewrite fit_length. }
  destruct (k <? Z.to_nat (scroll_cycles rs))%nat.
  - destruct (Z.of_nat k <? rds); [|by apply IH].
    split; [apply Hfill; auto | done].
  - destruct (Z.of_nat (k - Z.to_nat (scroll_cycles rs)) <? lds); [|by apply IH].
    split; [apply Hfill; auto | done].
Qed.

Lemma draw_width ps fills ps' W :
  Forall (fun p => forall W, frame_width p.1 = Some W ->
            forall r g,
              match next r p.1 g with
              | Yield fill s' _ => len fill = W /\ frame_width s' = Some W
              | StopIteration s' => frame_width s' = Some W
              | Stuck => True
              end) ps ->
  total_width ps = Some W ->
  draw (next true) ps = Some (fills, ps') ->
  len (mjoin fills) = W /\ total_width ps' = Some W.
Proof.
  intros HP. revert fills ps' W.
  induction HP as [|[s g] ps Hs _ IH]; intros fills ps' W; simpl.
  - intros [= <-] [= <- <-]. done.
  - destruct (frame_width s) as [w|] eqn:Ew; [|done].
    destruct (total_width ps) as [ws|] eqn:Ews; [|done]. intros [= <-].
    specialize (Hs w Ew true g). simpl in Hs.
    destruct (next true s g) as [fill s' g'| |]; [|done|done].
    destruct (draw (next true) ps) as [[fs qs]|]; [|done]. intros [= <- <-].
    destruct (IH fs qs ws eq_refl eq_refl) as [Hlen Htot]. destruct Hs as [Hf Hs'].
    simpl. rewrite len_app, Hlen, Hf, Hs', Htot. done.
Qed.

(** Every frame a spinner yields, restarted or not, has its frame width,
    and the spinner keeps that width as it runs. *)
Lemma next_frame_width s :
  forall W, frame_width s = Some W ->
  forall r g,
    match next r s g with
    | Yield fill s' _ => len fill = W /\ frame_width s' = Some W
    | StopIteration s' => frame_width s' = Some W
    | Stuck => True
    end.
Proof.
  induction s as [la frames|sc|la rs ls rds lds|la c ps IH] using spinner_induction;
    intros W HW r g.
  - cbn [next]. unfold counted.
    assert (forall i, match frames !! i with
                      | Some fill => len (repeating la fill) = W /\
                                     frame_width (FrameSpinner la frames) = Some W
                      | None => True
                      end) as Hi.
    { intros i. destruct (frames !! i) as [fill|] eqn:E; [|done]. split; [|done].
      apply (uniform_Some _ _ _ HW). apply list_elem_of_fmap.
      exists fill. split; [done|]. by apply list_elem_of_lookup_2 in E. }
    destruct (Z.of_nat g <? len frames).
    { specialize (Hi g). by destruct (frames !! g). }
    destruct r; [|done]. destruct (0 <? len frames); [|done].
    specialize (Hi 0%nat). by destruct (frames !! 0%nat).
  - cbn [next]. unfold counted, scroll_body.
    assert (len (scroll_fill sc) = W /\
            frame_width (ScrollingSpinner (scroll_advance sc)) = Some W) as Hi.
    { cbn [frame_width] in *. injection HW as <-.
      unfold scroll_fill, scroll_advance. simpl.
      by rewrite ribbon_frame_length. }
    destruct (Z.of_nat g <? scroll_cycles sc); [exact Hi|].
    destruct r; [|exact HW]. destruct (0 <? scroll_cycles sc); [exact Hi | exact I].
  - cbn [next]. unfold bouncing_next.
    pose proof (bouncing_run_width
                  (Z.to_nat (scroll_cycles rs) + Z.to_nat (scroll_cycles ls) - g)
                  la rs ls rds lds g W HW) as H1.
    destruct (bouncing_run _ la rs ls rds lds g) as [fill s' g'|s'|] eqn:E; [done| |done].
    apply bouncing_run_stop in E as (rs' & ls' & ->). destruct r; [|done].
    pose proof (bouncing_run_width
                  (Z.to_nat (scroll_cycles rs') + Z.to_nat (scroll_cycles ls') - 0)
                  la rs' ls' rds lds 0%nat W H1) as H2.
    by destruct (bouncing_run _ la rs' ls' rds lds 0%nat).
  - cbn [next]. unfold counted. rewrite frame_width_compound in HW.
    assert (match draw (next true) ps with
            | Some (fills, ps') =>
                len (repeating la (mjoin fills)) = W /\
                frame_width (CompoundSpinner la c ps') = Some W
            | None => True
            end) as Hi.
    { destruct (draw (next true) ps) as [[fills ps']|] eqn:E; [|done].
      rewrite frame_width_compound.
      destruct (truthy la) eqn:Et.
      - injection HW as <-. split; [by apply repeating_len | done].
      - destruct (draw_width ps fills ps' W IH HW E) as [Hl Ht].
        split; [|done]. unfold repeating. by rewrite Et. }
    rewrite <- frame_width_compound with (c := c) in HW.
    destruct (Z.of_nat g <? c).
    { by destruct (draw (next true) ps) as [[fills ps']|]. }
    destruct r; [|exact HW]. destruct (0 <? c); [|exact I].
    by destruct (draw (next true) ps) as [[fills ps']|].
Qed.

Lemma regular_compound fs :
  regular (CompoundFactory fs) <-> fs <> [] /\ Forall regular fs.
Proof.
  simpl. apply and_iff_compat_l.
  induction fs as [|f fs IH]; [by split; [constructor|]|].
  rewrite Forall_cons, IH. done.
Qed.

Lemma natural_compound fs :
  natural (CompoundFactory fs) = foldr (fun f acc => natural f + acc) 0 fs.
Proof. done. Qed.

Lemma regular_natural f : regular f -> 1 <= natural f.
Proof.
  induction f as [frames|chars length block ? ? ? ?|? length ? ? ? ?|fs IH|f copies offset IH]
    using factory_induction; intros Hreg.
  - destruct frames as [|first rest]; [done|]. by destruct Hreg.
  - destruct Hreg as (Hc & Hl & _). simpl. unfold int_or.
    destruct (truthy length) eqn:E.
    + apply truthy_spec in E as (z & -> & Hz). simpl in *. lia.
    + destruct chars; [done|]. unfold len; simpl; lia.
  - done.
  - apply regular_compound in Hreg as [Hne Hall]. rewrite natural_compound.
    destruct fs as [|f fs]; [done|].
    apply Forall_cons in IH as [IHf IH], Hall as [Hf Hall]. simpl.
    assert (0 <= foldr (fun f acc => natural f + acc) 0 fs); [|specialize (IHf Hf); lia].
    clear -IH Hall. induction fs as [|g fs IHfs]; simpl; [lia|].
    apply Forall_cons in IH as [IHg IH], Hall as [Hg Hall].
    specialize (IHg Hg). specialize (IHfs IH Hall). lia.
  - destruct Hreg as [Hf Hc]. specialize (IH Hf). simpl. nia.
Qed.

Lemma uniform_const ws W :
  ws <> [] -> Forall (fun w => w = W) ws -> uniform ws = Some W.
Proof.
  destruct ws as [|w ws]; [done|]. intros _ [-> H]%Forall_cons. simpl.
  assert (forallb (Z.eqb W) ws = true) as ->; [|done].
  apply forallb_forall. intros x Hx%list_elem_of_In.
  rewrite Forall_forall in H. rewrite (H x Hx). apply Z.eqb_refl.
Qed.

Lemma scrolling_inner_factory_width chars length block background
    (right hiding overlay : bool) la sc :
  scrolling_inner_factory chars length block background right hiding overlay la
  = Return sc ->
  width (infinite_ribbon sc) = int_or la (int_or length (len chars)).
Proof.
  unfold scrolling_inner_factory. intros H.
  destruct (truthy block && negb (truthy la || truthy length)); [done|].
  bind_inv H. bind_inv H. bind_inv H. injection H as <-. simpl.
  by destruct overlay.
Qed.

Lemma total_width_players spinners :
  total_width (spinner_player <$> spinners)
  = foldr (fun s acc => w ← frame_width s; ws ← acc; Some (w + ws)) (Some 0) spinners.
Proof.
  induction spinners as [|s spinners IH]; [done|].
  rewrite fmap_cons. unfold spinner_player at 1. cbn [total_width foldr].
  rewrite IH. destruct (frame_width s); [|done]. simpl. by destruct (foldr _ _ _).
Qed.

Lemma total_width_same ps W :
  Forall (fun p => frame_width p.1 = Some W) ps ->
  total_width ps = Some (len ps * W).
Proof.
  induction 1 as [|[s g] ps Hs _ IH]; [done|]. simpl in *.
  rewrite Hs, IH. f_equal. unfold len. simpl. lia.
Qed.

Lemma discard_frame_width n p p' W :
  frame_width p.1 = Some W -> discard n p = Return p' ->
  frame_width p'.1 = Some W.
Proof.
  revert p. induction n as [|n IH]; intros p HW; simpl.
  - by intros [= <-].
  - unfold player_next.
    pose proof (next_frame_width p.1 W HW true p.2) as H.
    destruct (next true p.1 p.2) as [fill s g| |]; [|done|done].
    apply IH. by destruct H.
Qed.

Lemma delayed_inner_factory_shape F nat_ copies offset la s :
  delayed_inner_factory F nat_ copies offset la = Return s ->
  s = CompoundSpinner la (cycles s) (players s).
Proof.
  unfold delayed_inner_factory. intros H.
  bind_inv H. bind_inv H. apply times_Return in Ha0 as [_ ->].
  bind_inv H. bind_inv H. injection H as <-.
  apply compound_inner_factory_Return in Ha0
    as (each & spinners & _ & _ & _ & _ & ->). done.
Qed.

Lemma each_length_falsy la n each :
  truthy la = false -> each_length la n = Return each -> each = la.
Proof. unfold each_length. intros ->. by intros [= <-]. Qed.

Lemma int_or_nonneg la n :
  0 <= default 0 la -> 1 <= n -> 1 <= int_or la n.
Proof.
  unfold int_or. intros Hla Hn. destruct (truthy la) eqn:E; [|done].
  apply truthy_spec in E as (z & -> & Hz). simpl in *. lia.
Qed.

Lemma truthy_bound la n :
  0 <= default 0 la -> truthy la = true ->
  Some (Z.of_nat (Z.to_nat (default 0 la))) = Some (int_or la n).
Proof.
  intros Hla E. unfold int_or. rewrite E.
  apply truthy_spec in E as (z & -> & Hz). simpl in *. f_equal. lia.
Qed.

(** A spinner of a regular factory has at least one cycle and frames of
    the bound width. *)
Lemma inner_factory_regular f :
  regular f -> forall la s,
  0 <= default 0 la ->
  inner_factory f la = Return s ->
  1 <= cycles s /\ frame_width s = Some (bound_width f la).
Proof.
  induction f as [frames|chars length block ? ? ? ?|? length ? ? ? ?|fs IH|f copies offset IH]
    using factory_induction; intros Hreg la s Hla H.
  - simpl in H. injection H as <-.
    destruct frames as [|first rest]; [done|]. destruct Hreg as [H1 Hall].
    split; [unfold cycles, len; simpl; lia|].
    cbn [frame_width]. apply uniform_const; [done|].
    apply Forall_fmap. eapply Forall_impl; [exact Hall|]. intros fill Hf. simpl.
    unfold bound_width, int_or, repeating. simpl.
    destruct (truthy la) eqn:E; [|done].
    apply truthy_spec in E as (z & -> & Hz). simpl in *.
    unfold len. rewrite fit_length. lia.
  - simpl in H. bind_inv H. injection H as <-.
    destruct Hreg as (Hc & Hl & Hb).
    pose proof (scrolling_inner_factory_width _ _ _ _ _ _ _ _ _ Ha) as Hw.
    apply scrolling_inner_factory_cycles in Ha as (r & bs & Hr & Hbs & Hcy).
    pose proof (block_size_pos _ _ _ _ _ _ Hc Hb Hl Hla Hr Hbs) as Hpos.
    assert (1 <= int_or la (int_or length (len chars))) as HW.
    { apply int_or_nonneg; [done|].
      apply (regular_natural (ScrollingFactory chars length block background
                                right_ hiding overlay)). by repeat split. }
    split.
    + cbn [cycles]. rewrite Hcy. unfold gap. destruct hiding; lia.
    + cbn [frame_width]. rewrite Hw. unfold bound_width. simpl. f_equal. lia.
  - by simpl in H.
  - apply regular_compound in Hreg as [Hne Hall]. cbn [inner_factory] in H.
    apply compound_inner_factory_Return in H
      as (each & spinners & He & Hs & Hin & Hmax & ->).
    unfold len in He. rewrite length_map in He.
    pose proof (each_length_nonneg _ _ _ Hla (Nat2Z.is_nonneg _) He) as Heach.
    apply Forall2_fmap_l in Hs.
    assert (Forall2 (fun f sp => 1 <= cycles sp /\
                                 frame_width sp = Some (bound_width f each))
              fs spinners) as Hsub.
    { clear -IH Hall Hs Heach. induction Hs as [|f sp fs spinners Hf _ IHs]; [constructor|].
      apply Forall_cons in IH as [IHf IH], Hall as [Hrf Hall].
      constructor; [by apply IHf | by apply IHs]. }
    split.
    + cbn [cycles] in *. apply list_elem_of_fmap in Hin as (sp & -> & Hsp).
      apply list_elem_of_lookup in Hsp as (i & Hi).
      destruct (Forall2_lookup_r _ _ _ _ _ Hsub Hi) as (f & _ & Hc & _). done.
    + rewrite frame_width_compound. unfold bound_width.
      destruct (truthy la) eqn:E.
      * by apply truthy_bound.
      * rewrite int_or_falsy by done.
        apply (each_length_falsy _ _ _ E) in He as ->.
        rewrite total_width_players, natural_compound. clear -Hsub E.
        induction Hsub as [|f sp fs spinners [_ Hf] _ IHs]; [done|].
        simpl. rewrite Hf, IHs. simpl. unfold bound_width.
        by rewrite int_or_falsy.
  - destruct Hreg as [Hf Hcopies]. cbn [inner_factory] in H.
    pose proof (delayed_inner_factory_shape _ _ _ _ _ _ H) as Hshape.
    apply delayed_inner_factory_Return in H
      as (n & each & sub & Hn & He & Hsub & Hcy & Hlen & Hdisc).
    pose proof (each_length_nonneg _ _ _ Hla (Nat2Z.is_nonneg _) He) as Heach.
    destruct (IH Hf each sub Heach Hsub) as [Hc Hw].
    split; [lia|]. rewrite Hshape, frame_width_compound. unfold bound_width.
    destruct (truthy la) eqn:E.
    + by apply truthy_bound.
    + rewrite int_or_falsy by done.
      apply (each_length_falsy _ _ _ E) in He as ->.
      unfold copies_actual in Hn. rewrite E in Hn. injection Hn as <-.
      rewrite (total_width_same _ (natural f)).
      * unfold len. rewrite Hlen. simpl. f_equal. lia.
      * apply Forall_lookup. intros i p Hp. apply Hdisc in Hp.
        apply (discard_frame_width _ (spinner_player sub) _ _ Hw) in Hp.
        rewrite Hp. unfold bound_width. by rewrite int_or_falsy.
Qed.

Lemma player_frame_width p t fill W :
  frame_width p.1 = Some W -> player_frame p t = Some fill -> len fill = W.
Proof.
  unfold player_frame. intros HW H.
  destruct (discard t p) as [p'| |] eqn:D; [|done|done].
  apply (discard_frame_width _ _ _ _ HW) in D.
  unfold player_next in H.
  pose proof (next_frame_width p'.1 W D true p'.2) as Hn.
  destruct (next true p'.1 p'.2) as [fill' s g| |]; [|done|done].
  simpl in H. injection H as <-. by destruct Hn.
Qed.

(** C8. For a factory built from regular arguments (frames of one non-zero
    length, characters to scroll, no negative [length] or [block], at least
    one factory to combine, at least one copy) and a call with no width or a
    width that is not negative: [natural >= 1], the spinner has
    [cycles >= 1], and every frame it yields, restarted or not, has exactly
    the bound width. *)
Theorem regular_invariants f la s :
  regular f -> 0 <= default 0 la ->
  inner_factory f la = Return s ->
  1 <= cycles s /\ 1 <= natural f /\
  frame_width s = Some (bound_width f la) /\
  (forall t fill,
     player_frame (spinner_player s) t = Some fill ->
     len fill = bound_width f la) /\
  (forall s1, frame_width s1 = Some (bound_width f la) ->
     forall restart g fill s2 g',
       next restart s1 g = Yield fill s2 g' ->
       len fill = bound_width f la /\
       frame_width s2 = Some (bound_width f la)).
Proof.
  intros Hreg Hla H.
  destruct (inner_factory_regular f Hreg la s Hla H) as [Hc Hw].
  split; [done|]. split; [by apply regular_natural|]. split; [done|]. split.
  - intros t fill. by apply player_frame_width.
  - intros s1 H1 restart g fill s2 g' Hn.
    pose proof (next_frame_width s1 _ H1 restart g) as Hs. by rewrite Hn in Hs.
Qed.

Lemma regular_invariants_witness :
  let f := delayed_spinner_factory
             (scrolling_spinner_factory (text "ab") (Some 4) (Some 2) None
                true false false) 2 1 in
  exists s, inner_factory f (Some 9) = Return s /\
    1 <= cycles s /\ 1 <= natural f /\
    forall t fill,
      player_frame (spinner_player s) t = Some fill -> len fill = 9.
Proof.
  intros f.
  destruct (inner_factory f (Some 9)) as [s| |] eqn:E;
    [|by vm_compute in E|by vm_compute in E].
  exists s. split; [done|].
  assert (regular f) as Hreg by (simpl; repeat split; (done || lia)).
  assert (0 <= default 0 (Some 9)) as Hla by (simpl; lia).
  destruct (regular_invariants f (Some 9) s Hreg Hla E) as (Hc & Hn & _ & Hfr & _).
  repeat split; assumption.
Defined.

Lemma invariants_need_regular_arguments :
  ~ (forall f la s,
       inner_factory f la = Return s ->
       1 <= cycles s /\ 1 <= natural f /\
       forall t fill,
         player_frame (spinner_player s) t = Some fill ->
         len fill = bound_width f la).
Proof.
  intros H.
  destruct (H (scrolling_spinner_factory [] None None None true true false)
              None _ eq_refl) as [Hc _].
  vm_compute in Hc. by apply Hc.
Qed.

(** ** Block sizes *)

(** The block size after rescaling, for sizes that a double holds with room
    to spare: the floor of [block * width / length], or one less when that
    quotient is whole, and the full width of [chars] in place of 0. *)
Lemma used_block_size_floor chars length block la :
  1 <= length < 2 ^ 53 -> 1 <= block -> 1 <= la -> block * la <= 2 ^ 51 ->
  exists n,
    used_block_size chars (Some length) (Some block) (Some la)
    = Return (if n =? 0 then len chars else n) /\
    ((block * la) mod length <> 0 -> n = exact_block_size block length la) /\
    ((block * la) mod length = 0 ->
     n = exact_block_size block length la \/
     n = exact_block_size block length la - 1).
Proof.
  intros Hl Hb Hla Hw.
  assert (la <= 2 ^ 51 /\ block <= 2 ^ 51) as [Hla' Hb'] by nia.
  destruct (of_int_normal la ltac:(lia)) as (x & Ex & Hx & Sx).
  destruct (of_int_normal length ltac:(lia)) as (y & Ey & Hy & Sy).
  destruct (of_int_normal block ltac:(lia)) as (b & Eb & Hnb & Sb).
  destruct (SFdiv_normal 52 52 x y Hx Hy ltac:(lia) ltac:(lia)
              ltac:(unfold scale; lia)) as [Hr Hdiv].
  set (r := SFdiv prec emax x y) in *. cbv zeta in Hdiv.
  change (52 + 52 + 53) with 157 in Hr.
  destruct (SFmul_normal 52 157 b r Hnb Hr ltac:(lia) ltac:(lia)
              ltac:(unfold scale; lia)) as [Hp Hmul].
  set (p := SFmul prec emax b r) in *. cbv zeta in Hmul.
  change (52 + 157 + 54) with 263 in Hp.
  pose proof (trunc_scaled 263 p Hp ltac:(unfold scale; lia)) as Htr.
  exists (scaled p / 2 ^ scale). split.
  - unfold used_block_size, ratio.
    assert (truthy (Some length) = true) as ->
      by (apply truthy_spec; exists length; split; [done|lia]).
    assert (truthy (Some la) = true) as ->
      by (apply truthy_spec; exists la; split; [done|lia]).
    cbn [andb]. change (default 0 (Some la)) with la.
    change (default 0 (Some length)) with length.
    rewrite Ex. cbn [mbind result_bind].
    unfold div_int. rewrite Ey. cbn [mbind result_bind].
    assert (match y with
            | S754_zero _ => Raise ZeroDivisionError
            | _ => Return (SFdiv prec emax x y)
            end = Return r) as -> by (by destruct y as [| | |[]]).
    cbn [mbind result_bind]. unfold block_size, int_or.
    assert (truthy (Some block) = true) as ->
      by (apply truthy_spec; exists block; split; [done|lia]).
    change (default 0 (Some block)) with block.
    cbn [int_times]. unfold int_mul. rewrite Eb.
    cbn [mbind result_bind int_of]. fold p. rewrite Htr. done.
  - set (T := 2 ^ scale) in *.
    assert (0 < T) as HT by (apply Z.pow_pos_nonneg; unfold scale; lia).
    rewrite Sx, Sy in Hdiv. rewrite Sb in Hmul.
    destruct Hdiv as [Hd1 Hd2]. destruct Hmul as [Hm1 Hm2].
    set (R := scaled r) in *. set (P := scaled p) in *.
    unfold exact_block_size.
    apply (twice_rounded_floor P (block * R) T length (block * la)); try lia.
    + apply (cancel_scale _ _ T HT).
      replace (2 ^ 53 * (P - block * R) * T)
        with (2 ^ 53 * (P * T - block * T * R)) by ring.
      replace (block * R * T) with (block * T * R) by ring. done.
    + apply (cancel_scale _ _ T HT).
      replace (2 ^ 53 * (block * R - P) * T)
        with (2 ^ 53 * (block * T * R - P * T)) by ring.
      replace (block * R * T) with (block * T * R) by ring. done.
    + apply (cancel_scale _ _ T HT). apply (Z.mul_le_mono_nonneg_l _ _ block) in Hd1; [|lia].
      replace (2 ^ 53 * (block * R * length - block * la * T) * T)
        with (block * (2 ^ 53 * (R * (length * T) - la * T * T))) by ring.
      replace (block * la * T * T) with (block * (la * T * T)) by ring. done.
    + apply (cancel_scale _ _ T HT). apply (Z.mul_le_mono_nonneg_l _ _ block) in Hd2; [|lia].
      replace (2 ^ 53 * (block * la * T - block * R * length) * T)
        with (block * (2 ^ 53 * (la * T * T - R * (length * T)))) by ring.
      replace (block * la * T * T) with (block * (la * T * T)) by ring. done.
Qed.

(** Rescaling by a whole factor is exact. *)
Lemma used_block_size_whole_factor chars length k block :
  1 <= length -> 1 <= k -> 1 <= block ->
  k * length < 2 ^ 53 -> block * k < 2 ^ 53 ->
  used_block_size chars (Some length) (Some block) (Some (k * length))
  = Return (block * k).
Proof.
  intros Hl Hk Hb Hkl Hbk.
  assert (length < 2 ^ 53 /\ k < 2 ^ 53 /\ block < 2 ^ 53) as (Hl' & Hk' & Hb') by nia.
  destruct (of_int_normal (k * length) ltac:(nia)) as (x & Ex & Hx & Sx).
  destruct (of_int_normal length ltac:(lia)) as (y & Ey & Hy & Sy).
  destruct (of_int_normal k ltac:(lia)) as (z & _ & Hz & Sz).
  destruct (of_int_normal block ltac:(lia)) as (b & Eb & Hnb & Sb).
  destruct (of_int_normal (block * k) ltac:(nia)) as (w & _ & Hw & Sw).
  assert (SFdiv prec emax x y = z) as Ediv.
  { apply (SFdiv_exact 52 52 52); try done; try (unfold scale; lia).
    rewrite Sx, Sy, Sz. ring. }
  assert (SFmul prec emax b z = w) as Emul.
  { apply (SFmul_exact 52 52 52); try done; try (unfold scale; lia).
    rewrite Sb, Sz, Sw. ring. }
  pose proof (trunc_scaled 52 w Hw ltac:(unfold scale; lia)) as Htr.
  rewrite Sw, Z.div_mul in Htr by (apply Z.pow_nonzero; unfold scale; lia).
  unfold used_block_size, ratio.
  assert (truthy (Some length) = true) as ->
    by (apply truthy_spec; exists length; split; [done|lia]).
  assert (truthy (Some (k * length)) = true) as ->
    by (apply truthy_spec; exists (k * length); split; [done|nia]).
  cbn [andb]. change (default 0 (Some (k * length))) with (k * length).
  change (default 0 (Some length)) with length.
  rewrite Ex. cbn [mbind result_bind].
  unfold div_int. rewrite Ey. cbn [mbind result_bind].
  assert (match y with
          | S754_zero _ => Raise ZeroDivisionError
          | _ => Return (SFdiv prec emax x y)
          end = Return z) as -> by (rewrite Ediv; by destruct y as [| | |[]]).
  cbn [mbind result_bind]. unfold block_size, int_or.
  assert (truthy (Some block) = true) as ->
    by (apply truthy_spec; exists block; split; [done|lia]).
  change (default 0 (Some block)) with block.
  cbn [int_times]. unfold int_mul. rewrite Eb.
  cbn [mbind result_bind int_of]. rewrite Emul, Htr. cbn [mbind result_bind].
  destruct (Z.eqb_spec (block * k) 0); [nia | done].
Qed.

Lemma trunc_floor x n :
  sign x = false -> trunc x = Return n -> floor x = Some n.
Proof.
  destruct x as [s|s| |s m e]; simpl; try done.
  - by intros _ [= <-].
  - by intros -> [= <-].
Qed.

(** C2. The block size of a scrolling spinner is the full width of [chars]
    when [block] is not set, [block] itself when not both widths are known,
    and otherwise [int(block * ratio)] computed in double precision, with
    [ratio] the double [float(width) / length], unless that is zero, when it
    is the full width of [chars] again. For arguments that are not negative
    [int] is the floor of the double product. With [block * width] up to
    [2^51] this is the floor of [block * width / length], or one less when
    that quotient is whole; rescaling by a whole factor [k] gives
    [block * k] exactly, and [length=10], [block=2] called at width 20
    gives 4. *)
Theorem block_size_used :
  (forall chars length block la r bs,
     ratio length la = Return r ->
     block_size block r chars = Return bs ->
     (truthy block = false -> bs = len chars) /\
     (truthy block = true -> truthy length && truthy la = false ->
      bs = default 0 block) /\
     (truthy block = true -> truthy length && truthy la = true ->
      exists x y p n,
        of_int (default 0 la) = Return x /\
        div_int x (default 0 length) = Return y /\
        r = Float y /\
        int_mul (default 0 block) y = Return p /\
        trunc p = Return n /\
        bs = (if n =? 0 then len chars else n) /\
        (0 <= default 0 block -> 0 <= default 0 length ->
         0 <= default 0 la -> floor p = Some n))) /\
  (forall chars length block la,
     1 <= length < 2 ^ 53 -> 1 <= block -> 1 <= la -> block * la <= 2 ^ 51 ->
     exists n,
       used_block_size chars (Some length) (Some block) (Some la)
       = Return (if n =? 0 then len chars else n) /\
       ((block * la) mod length <> 0 ->
        n = exact_block_size block length la) /\
       ((block * la) mod length = 0 ->
        n = exact_block_size block length la \/
        n = exact_block_size block length la - 1)) /\
  (forall chars length k block,
     1 <= length -> 1 <= k -> 1 <= block ->
     k * length < 2 ^ 53 -> block * k < 2 ^ 53 ->
     used_block_size chars (Some length) (Some block) (Some (k * length))
     = Return (block * k)) /\
  (forall chars, used_block_size chars (Some 10) (Some 2) (Some 20) = Return 4).
Proof.
  split; [|split; [apply used_block_size_floor
                  |split; [apply used_block_size_whole_factor|]]].
  - intros chars length block la r bs Hr Hbs.
    pose proof (ratio_outcome length la) as Hout. rewrite Hr in Hout.
    split; [|split].
    + intros Hb. unfold block_size in Hbs. rewrite (int_or_falsy _ _ Hb) in Hbs.
      destruct r as [z|y].
      * simpl in Hbs. by injection Hbs as <-.
      * destruct Hout as (_ & Hy & _). simpl in Hbs. unfold int_mul in Hbs.
        simpl in Hbs. destruct y; try done; simpl in Hbs; by injection Hbs as <-.
    + intros Hb Hboth. destruct r as [z|y]; [|destruct Hout as [Ht _]; congruence].
      destruct Hout as [-> _]. unfold block_size in Hbs. simpl in Hbs.
      injection Hbs as <-.
      apply truthy_spec in Hb as (b & -> & Hb). unfold int_or. simpl.
      destruct (Z.eqb_spec b 0); [done|]. simpl. rewrite Z.mul_1_r.
      by destruct (Z.eqb_spec b 0).
    + intros Hb Hboth. destruct r as [z|y]; [destruct Hout; congruence|].
      unfold ratio in Hr. rewrite Hboth in Hr.
      destruct (of_int (default 0 la)) as [x| |] eqn:Ex; [|done|done].
      simpl in Hr.
      destruct (div_int x (default 0 length)) as [y'| |] eqn:Ey; [|done|done].
      simpl in Hr. injection Hr as ->.
      assert (int_or block 0 = default 0 block) as Eb.
      { unfold int_or. by rewrite Hb. }
      unfold block_size in Hbs. rewrite Eb in Hbs. simpl in Hbs.
      destruct (int_mul (default 0 block) y) as [p| |] eqn:Ep; [|done|done].
      simpl in Hbs.
      destruct (trunc p) as [n| |] eqn:En; [|done|done].
      simpl in Hbs. injection Hbs as <-.
      exists x, y, p, n. repeat split; try done.
      intros H0b H0l H0la. apply trunc_floor; [|done].
      apply trunc_Return in En as [Hnan _].
      unfold int_mul in Ep.
      destruct (of_int (default 0 block)) as [b'| |] eqn:Eb'; [|done|done].
      simpl in Ep. injection Ep as <-.
      rewrite SFmul_sign by done.
      assert (is_nan b' = false) as Hn1
        by (destruct b'; try done; by rewrite SFmul_nan_l in Hnan).
      assert (is_nan y = false) as Hny
        by (destruct y; try done; by rewrite SFmul_nan_r in Hnan).
      rewrite (of_int_sign _ _ Eb' Hn1).
      unfold div_int in Ey.
      destruct (of_int (default 0 length)) as [l'| |] eqn:El; [|done|done].
      simpl in Ey.
      assert (y = SFdiv prec emax x l') as -> by (destruct l'; by simplify_eq).
      rewrite SFdiv_sign by done.
      assert (is_nan x = false) as Hnx
        by (destruct x; try done; by rewrite SFdiv_nan_l in Hny).
      assert (is_nan l' = false) as Hnl
        by (destruct l'; try done; by rewrite SFdiv_nan_r in Hny).
      rewrite (of_int_sign _ _ Ex Hnx), (of_int_sign _ _ El Hnl).
      destruct (Z.ltb_spec (default 0 block) 0), (Z.ltb_spec (default 0 la) 0),
        (Z.ltb_spec (default 0 length) 0); simpl; try done; lia.
  - intros chars. apply (used_block_size_whole_factor chars 10 2 2); lia.
Qed.

Lemma block_size_used_witness :
  exists r, ratio (Some 10) (Some 25) = Return r /\
    block_size (Some 3) r (text "ab") = Return 7 /\
    exists p, floor p = Some 7.
Proof.
  eexists. split; [vm_compute; reflexivity|]. split; [vm_compute; reflexivity|].
  destruct (proj1 block_size_used (text "ab") (Some 10) (Some 3) (Some 25) _ 7
              eq_refl ltac:(vm_compute; reflexivity))
    as (_ & _ & H).
  destruct (H eq_refl eq_refl) as (x & y & p & n & _ & _ & _ & _ & Hn & Hbs & Hfl).
  exists p. destruct (Z.eqb_spec n 0) as [->|_]; [done|].
  subst n. apply Hfl; simpl; lia.
Defined.

Lemma block_size_not_exact_floor :
  ~ (forall chars length block la bs,
       0 < length -> 0 < block -> 0 < la ->
       used_block_size chars (Some length) (Some block) (Some la) = Return bs ->
       bs = exact_block_size block length la).
Proof.
  intros H.
  assert (used_block_size (text "abc") (Some 10) (Some 1) (Some 5) = Return 3) as E
    by (vm_compute; reflexivity).
  apply H in E; [|lia..]. by vm_compute in E.
Qed.

(** Double rounding also shows: [27 * (13 / 3)] is just below 117. *)
Lemma block_size_rounded_down :
  used_block_size (text "abc") (Some 3) (Some 27) (Some 13) = Return 116 /\
  exact_block_size 27 3 13 = 117.
Proof. split; vm_compute; reflexivity. Qed.

(** ** The leftward characters of a bouncing factory *)

(** C4. A bouncing factory made without [left_chars] (or with empty ones)
    scrolls [right_chars] itself leftward, as given, not reversed; given
    [left_chars] are used as they are. Without [block] both passes scroll
    that one string; with [block] the leftward pass takes the characters in
    order and the rightward pass takes them reversed, each repeated to the
    block size (which must fit an index for a segment to be made). *)
Theorem bouncing_left_chars_default right_chars length block blank hiding :
  bouncing_left_chars
    (bouncing_spinner_factory right_chars length block None blank hiding)
  = Some right_chars /\
  bouncing_left_chars
    (bouncing_spinner_factory right_chars length block (Some []) blank hiding)
  = Some right_chars /\
  (forall c left_chars,
     bouncing_left_chars
       (bouncing_spinner_factory right_chars length block
          (Some (c :: left_chars)) blank hiding)
     = Some (c :: left_chars)) /\
  (forall chars (right : bool) bs,
     contents chars None right bs = Return [chars]) /\
  (forall chars b bs, b <> 0 ->
     contents chars (Some b) false bs
     = (if index_sized bs || bool_decide (chars = [])
        then Return (map (fun c => replicate (Z.to_nat bs) c) chars)
        else Raise OverflowError) /\
     contents chars (Some b) true bs
     = (if index_sized bs || bool_decide (chars = [])
        then Return (map (fun c => replicate (Z.to_nat bs) c) (reverse chars))
        else Raise OverflowError)).
Proof.
  repeat split; try done.
  - rewrite contents_spec. simpl. by destruct (Z.eqb_spec b 0).
  - rewrite contents_spec. simpl. by destruct (Z.eqb_spec b 0).
Qed.

Lemma left_chars_not_mirrored :
  ~ (forall right_chars length block blank hiding,
       bouncing_left_chars
         (bouncing_spinner_factory right_chars length block None blank hiding)
       = Some (reverse right_chars)).
Proof.
  intros H. specialize (H (text "ab") 3 None (text " ") true). done.
Qed.

(** ** Bouncing and empty compound factories *)

Lemma scroll_call_blank chars length block blank right hiding la :
  scroll_call chars length block blank right hiding la = Raise TypeError.
Proof. reflexivity. Qed.

(** C5. Calling the inner factory of a bouncing factory never returns a
    spinner: whatever the arguments, it raises [TypeError], because its first
    statement calls [scrolling_spinner_factory] with the keyword [blank],
    which that function does not have (its parameter is [background]). So no
    bouncing spinner has [cycles], and none plays a frame. *)
Theorem bouncing_inner_factory_raises right_chars length block left_chars blank hiding la :
  inner_factory (bouncing_spinner_factory right_chars length block left_chars blank hiding) la
  = Raise TypeError.
Proof. reflexivity. Qed.

(** C10. A compound factory over no factories has [natural] 0, and calling
    it always raises: [ZeroDivisionError] when the width is truthy (the width
    is divided by the number of factories), otherwise [ValueError] from the
    maximum over no spinners. It never returns a spinner. *)
Theorem compound_of_nothing la :
  natural (compound_spinner_factory []) = 0 /\
  inner_factory (compound_spinner_factory []) la
  = Raise (if truthy la then ZeroDivisionError else ValueError).
Proof.
  split; [done|]. simpl. unfold compound_inner_factory, each_length.
  destruct (truthy la); reflexivity.
Qed.

(** ** Instances do not interfere *)

Lemma instance_induction (P : Heap.instance -> Prop) :
  (forall la frames, P (Heap.FrameInstance la frames)) ->
  (forall sc, P (Heap.ScrollingInstance sc)) ->
  (forall la rs ls rds lds, P (Heap.BouncingInstance la rs ls rds lds)) ->
  (forall la c ps, Forall (fun p => P p.2) ps ->
     P (Heap.CompoundInstance la c ps)) ->
  forall i, P i.
Proof.
  intros HF HS HB HC. fix IH 1.
  intros [la frames|sc|la rs ls rds lds|la c ps];
    [apply HF | apply HS | apply HB |].
  apply HC. revert ps. fix IHps 1.
  intros [|[l i] ps]; constructor; [apply IH | apply IHps].
Qed.

Lemma footprint_compound la c ps :
  Heap.footprint (Heap.CompoundInstance la c ps) = Heap.footprints ps.
Proof.
  induction ps as [|[l i] ps IH]; [done|].
  cbn [Heap.footprints]. rewrite <- IH. done.
Qed.

Lemma spinner_of_compound h la c ps :
  Heap.spinner_of h (Heap.CompoundInstance la c ps)
  = (qs ← Heap.players_of h ps; Some (CompoundSpinner la c qs)).
Proof.
  cbn [Heap.spinner_of]. f_equal.
  induction ps as [|[l i] ps IH]; [done|].
  cbn [Heap.players_of]. rewrite IH. done.
Qed.

(** *** A step changes the objects of its instance only *)

Lemma outside_refl locs h : Heap.outside locs h h.
Proof. by intros l _. Qed.

Lemma outside_trans locs h1 h2 h3 :
  Heap.outside locs h1 h2 -> Heap.outside locs h2 h3 ->
  Heap.outside locs h1 h3.
Proof. intros H12 H23 l Hl. by rewrite H23, H12. Qed.

Lemma outside_mono locs locs' h h' :
  (forall l, l ∈ locs -> l ∈ locs') ->
  Heap.outside locs h h' -> Heap.outside locs' h h'.
Proof. intros Hsub H l Hl. apply H. intros Hin. by apply Hl, Hsub. Qed.

Lemma outside_insert locs l o h :
  l ∈ locs -> Heap.outside locs h (<[l := o]> h).
Proof. intros Hl k Hk. apply lookup_insert_ne. by intros ->. Qed.

Lemma ribbon_step_Some l h fill h' :
  Heap.ribbon_step l h = Some (fill, h') ->
  exists r, h !! l = Some (Heap.Ribbon r) /\
            fill = (ribbon_next r).1 /\
            h' = <[l := Heap.Ribbon (ribbon_next r).2]> h.
Proof.
  unfold Heap.ribbon_step. destruct (h !! l) as [[r|g]|]; try done.
  intros [= <- <-]. by exists r.
Qed.

Lemma ribbon_step_None l h :
  Heap.ribbon_step l h = None ->
  forall r, h !! l <> Some (Heap.Ribbon r).
Proof.
  unfold Heap.ribbon_step. destruct (h !! l) as [[r|g]|]; try done.
Qed.

(** What holds of every way out of a counted loop holds of the loop. *)
Lemma counted_cases (P : Heap.outcome -> Prop) restart limit g body stop :
  (forall k, P (body k)) -> P stop -> P Heap.Sticks ->
  P (Heap.counted restart limit g body stop).
Proof.
  intros Hbody Hstop Hsticks. unfold Heap.counted.
  repeat case_match; auto.
Qed.

Lemma bouncing_run_outside fuel la rs ls rds lds k h :
  keeps [Heap.closure_ribbon rs; Heap.closure_ribbon ls] h
    (Heap.bouncing_run fuel la rs ls rds lds k h).
Proof.
  revert k h. induction fuel as [|fuel IH]; intros k h; cbn [Heap.bouncing_run].
  { apply outside_refl. }
  assert (forall l, l ∈ [Heap.closure_ribbon rs; Heap.closure_ribbon ls] ->
          forall b : bool,
          keeps [Heap.closure_ribbon rs; Heap.closure_ribbon ls] h
            match Heap.ribbon_step l h with
            | Some (fill, h') =>
                if b then Heap.Yields (repeating (Some la) fill) (S k) h'
                else Heap.bouncing_run fuel la rs ls rds lds (S k) h'
            | None => Heap.Sticks
            end) as Hstep.
  { intros l Hl b. destruct (Heap.ribbon_step l h) as [[fill h']|] eqn:E; [|done].
    apply ribbon_step_Some in E as (r & _ & _ & ->).
    destruct b; [by apply outside_insert|].
    specialize (IH (S k) (<[l:=Heap.Ribbon (ribbon_next r).2]> h)).
    destruct (Heap.bouncing_run _ _ _ _ _ _ _ _); cbn [keeps] in *; try done;
      (eapply outside_trans; [by apply outside_insert | done]). }
  destruct (_ <? _)%nat; apply Hstep; set_solver.
Qed.

Lemma draw_outside ps h :
  Forall (fun p => forall r g h,
            keeps (Heap.footprint p.2) h (Heap.next r p.2 g h)) ps ->
  match Heap.draw (Heap.next true) ps h with
  | Some (_, h') => Heap.outside (Heap.footprints ps) h h'
  | None => True
  end.
Proof.
  intros Hps. revert h. induction Hps as [|[l i] ps Hi Hps IH]; intros h.
  { apply outside_refl. }
  cbn [Heap.draw Heap.footprints].
  destruct (h !! l) as [[r|g]|]; try done.
  specialize (Hi true g h). cbn [snd] in Hi.
  destruct (Heap.next true i g h) as [fill g' h1| |]; try done.
  specialize (IH (<[l:=Heap.Player g']> h1)).
  destruct (Heap.draw _ ps _) as [[fills h2]|]; [|done].
  cbn [keeps] in Hi.
  eapply outside_trans; [|eapply outside_trans; [|eapply outside_mono; [|exact IH]]].
  - eapply outside_mono; [|exact Hi]. set_solver.
  - apply outside_insert. set_solver.
  - set_solver.
Qed.

Lemma next_outside i : forall restart g h,
  keeps (Heap.footprint i) h (Heap.next restart i g h).
Proof.
  induction i as [la frames|sc|la rs ls rds lds|la c ps IH]
    using instance_induction; intros restart g h; cbn [Heap.next].
  - apply counted_cases; [|apply outside_refl|done].
    intros k. destruct (frames !! k); [apply outside_refl | done].
  - apply counted_cases; [|apply outside_refl|done].
    intros k. unfold Heap.scroll_body.
    destruct (Heap.ribbon_step _ h) as [[fill h']|] eqn:E; [|done].
    apply ribbon_step_Some in E as (r & _ & _ & ->).
    apply outside_insert. set_solver.
  - unfold Heap.bouncing_next.
    pose proof (bouncing_run_outside
                  (Z.to_nat (Heap.closure_cycles rs)
                   + Z.to_nat (Heap.closure_cycles ls) - g) la rs ls rds lds g h)
      as H1.
    destruct (Heap.bouncing_run _ _ _ _ _ _ g h) as [fill g' h1|h1|]; try done.
    destruct restart; [|done].
    pose proof (bouncing_run_outside
                  (Z.to_nat (Heap.closure_cycles rs)
                   + Z.to_nat (Heap.closure_cycles ls) - 0) la rs ls rds lds
                  0%nat h1) as H2.
    destruct (Heap.bouncing_run _ _ _ _ _ _ 0%nat h1) as [fill g' h2|h2|];
      try done.
    cbn [keeps] in *. by eapply outside_trans.
  - rewrite footprint_compound.
    apply counted_cases; [|apply outside_refl|done].
    intros k. pose proof (draw_outside ps h IH) as Hd.
    by destruct (Heap.draw _ ps h) as [[fills h']|].
Qed.

(** *** An instance is the spinner its objects make *)

Lemma scroll_of_Some h sc s :
  Heap.scroll_of h sc = Some s <->
  exists r, h !! Heap.closure_ribbon sc = Some (Heap.Ribbon r) /\
            s = {| scroll_cycles := Heap.closure_cycles sc;
                   infinite_ribbon := r |}.
Proof.
  unfold Heap.scroll_of.
  destruct (h !! Heap.closure_ribbon sc) as [[r|g]|]; split;
    try done; try (by intros (? & ? & _)).
  - intros [= <-]. by exists r.
  - by intros (r' & [= <-] & ->).
Qed.

Lemma scroll_of_same h h' sc :
  h' !! Heap.closure_ribbon sc = h !! Heap.closure_ribbon sc ->
  Heap.scroll_of h' sc = Heap.scroll_of h sc.
Proof. unfold Heap.scroll_of. by intros ->. Qed.

Lemma players_of_same h h' ps :
  Forall (fun p => (forall l, l ∈ Heap.footprint p.2 -> h' !! l = h !! l) ->
                   Heap.spinner_of h' p.2 = Heap.spinner_of h p.2) ps ->
  (forall l, l ∈ Heap.footprints ps -> h' !! l = h !! l) ->
  Heap.players_of h' ps = Heap.players_of h ps.
Proof.
  induction 1 as [|[l i] ps Hi Hps IH]; intros Hin; [done|].
  cbn [Heap.players_of Heap.footprints snd] in *.
  rewrite (Hin l) by set_solver.
  rewrite Hi by (intros k Hk; apply Hin; set_solver).
  rewrite IH by (intros k Hk; apply Hin; set_solver). done.
Qed.

(** It depends on the objects it refers to, and on no other. *)
Lemma spinner_of_same i h h' :
  (forall l, l ∈ Heap.footprint i -> h' !! l = h !! l) ->
  Heap.spinner_of h' i = Heap.spinner_of h i.
Proof.
  induction i as [la frames|sc|la rs ls rds lds|la c ps IH]
    using instance_induction; intros Hin.
  - done.
  - cbn [Heap.spinner_of]. rewrite (scroll_of_same h h'); [done|].
    apply Hin. set_solver.
  - cbn [Heap.spinner_of].
    rewrite (scroll_of_same h h' rs) by (apply Hin; set_solver).
    rewrite (scroll_of_same h h' ls) by (apply Hin; set_solver). done.
  - rewrite !spinner_of_compound. rewrite footprint_compound in Hin.
    by rewrite (players_of_same h h' ps IH Hin).
Qed.

Lemma spinner_of_outside i locs h h' :
  Heap.outside locs h h' ->
  (forall l, l ∈ Heap.footprint i -> l ∉ locs) ->
  Heap.spinner_of h' i = Heap.spinner_of h i.
Proof. intros Ho Hd. apply spinner_of_same. intros l Hl. by apply Ho, Hd. Qed.

Lemma players_of_outside ps locs h h' :
  Heap.outside locs h h' ->
  (forall l, l ∈ Heap.footprints ps -> l ∉ locs) ->
  Heap.players_of h' ps = Heap.players_of h ps.
Proof.
  intros Ho Hd. apply players_of_same.
  - apply Forall_forall. intros p _. apply spinner_of_same.
  - intros l Hl. by apply Ho, Hd.
Qed.

(** The objects of an instance that is a spinner exist. *)
Lemma players_of_footprints h ps qs :
  Forall (fun p => forall s, Heap.spinner_of h p.2 = Some s ->
            forall l, l ∈ Heap.footprint p.2 -> is_Some (h !! l)) ps ->
  Heap.players_of h ps = Some qs ->
  forall l, l ∈ Heap.footprints ps -> is_Some (h !! l).
Proof.
  intros Hps. revert qs. induction Hps as [|[k i] ps Hi Hps IH]; intros qs H l Hl.
  { by apply elem_of_nil in Hl. }
  cbn [Heap.players_of Heap.footprints snd] in *.
  destruct (h !! k) as [[r|g]|] eqn:Ek; try done.
  destruct (Heap.spinner_of h i) as [s|] eqn:Es; [|done].
  destruct (Heap.players_of h ps) as [rest|] eqn:Er; [|done].
  apply elem_of_cons in Hl as [-> | Hl]; [by rewrite Ek|].
  apply elem_of_app in Hl as [Hl | Hl]; [by eapply Hi | by eapply IH].
Qed.

Lemma spinner_of_footprint i h s :
  Heap.spinner_of h i = Some s ->
  forall l, l ∈ Heap.footprint i -> is_Some (h !! l).
Proof.
  revert s. induction i as [la frames|sc|la rs ls rds lds|la c ps IH]
    using instance_induction; intros s H l Hl; cbn [Heap.footprint] in Hl.
  - by apply elem_of_nil in Hl.
  - cbn [Heap.spinner_of] in H.
    destruct (Heap.scroll_of h sc) as [sc'|] eqn:E; [|done].
    apply scroll_of_Some in E as (r & E & _).
    apply list_elem_of_singleton in Hl as ->. by rewrite E.
  - cbn [Heap.spinner_of] in H.
    destruct (Heap.scroll_of h rs) as [rs'|] eqn:Er; [|done].
    destruct (Heap.scroll_of h ls) as [ls'|] eqn:El; [|done].
    apply scroll_of_Some in Er as (r1 & Er & _).
    apply scroll_of_Some in El as (r2 & El & _).
    apply elem_of_cons in Hl as [-> | Hl]; [by rewrite Er|].
    apply list_elem_of_singleton in Hl as ->. by rewrite El.
  - rewrite spinner_of_compound in H.
    destruct (Heap.players_of h ps) as [qs|] eqn:E; [|done].
    rewrite <- footprint_compound with (la := la) (c := c) in *.
    rewrite footprint_compound in Hl. by eapply players_of_footprints.
Qed.

Lemma spinner_of_subseteq i h h' s :
  h ⊆ h' -> Heap.spinner_of h i = Some s -> Heap.spinner_of h' i = Some s.
Proof.
  intros Hsub H. rewrite <- H. apply spinner_of_same. intros l Hl.
  destruct (spinner_of_footprint i h s H l Hl) as [o Ho].
  rewrite Ho. by eapply lookup_weaken.
Qed.

Lemma cycles_spinner_of i h s :
  Heap.spinner_of h i = Some s -> cycles s = Heap.cycles i.
Proof.
  destruct i as [la frames|sc|la rs ls rds lds|la c ps].
  - by intros [= <-].
  - cbn [Heap.spinner_of]. destruct (Heap.scroll_of h sc) as [sc'|] eqn:E; [|done].
    apply scroll_of_Some in E as (r & _ & ->). by intros [= <-].
  - cbn [Heap.spinner_of].
    destruct (Heap.scroll_of h rs) as [rs'|]; [|done].
    destruct (Heap.scroll_of h ls) as [ls'|]; [|done]. by intros [= <-].
  - rewrite spinner_of_compound.
    destruct (Heap.players_of h ps) as [qs|]; [|done]. by intros [= <-].
Qed.

(** *** A step on an instance is the step on the spinner it is *)

Lemma counted_same i restart limit g body body' stop stop' :
  (forall k, same_outcome i (body k) (body' k)) ->
  same_outcome i stop stop' ->
  same_outcome i (counted restart limit g body stop)
    (Heap.counted restart limit g body' stop').
Proof.
  intros Hbody Hstop. unfold counted, Heap.counted.
  repeat case_match; auto. done.
Qed.

Lemma draw_outside_all ps h :
  match Heap.draw (Heap.next true) ps h with
  | Some (_, h') => Heap.outside (Heap.footprints ps) h h'
  | None => True
  end.
Proof.
  apply draw_outside, Forall_forall. intros p _ r g h'. apply next_outside.
Qed.

Lemma draw_same ps :
  Forall (fun p => forall restart g h s,
            NoDup (Heap.footprint p.2) ->
            Heap.spinner_of h p.2 = Some s ->
            same_outcome p.2 (next restart s g) (Heap.next restart p.2 g h)) ps ->
  forall h qs,
    NoDup (Heap.footprints ps) ->
    Heap.players_of h ps = Some qs ->
    match draw (next true) qs, Heap.draw (Heap.next true) ps h with
    | Some (fills, qs'), Some (fills', h') =>
        fills' = fills /\ Heap.players_of h' ps = Some qs'
    | None, None => True
    | _, _ => False
    end.
Proof.
  induction 1 as [|[l i] ps Hi Hps IH]; intros h qs Hnd Hqs.
  { injection Hqs as <-. done. }
  cbn [Heap.footprints] in Hnd.
  apply NoDup_cons in Hnd as [Hl Hnd].
  apply NoDup_app in Hnd as (Hndi & Hdis & Hndps).
  apply not_elem_of_app in Hl as [Hli Hlps].
  cbn [Heap.players_of] in Hqs.
  destruct (h !! l) as [[r|g]|] eqn:El; try done.
  destruct (Heap.spinner_of h i) as [s|] eqn:Es; [|done].
  destruct (Heap.players_of h ps) as [rest|] eqn:Er; [|done].
  injection Hqs as <-.
  cbn [draw Heap.draw]. rewrite El.
  specialize (Hi true g h s Hndi Es). cbn [snd] in Hi.
  pose proof (next_outside i true g h) as Hout.
  destruct (next true s g) as [fill s' g'|s'|];
    destruct (Heap.next true i g h) as [fill' g'' h1|h1|]; try done.
  destruct Hi as (-> & -> & Es'). cbn [keeps] in Hout.
  set (h2 := <[l:=Heap.Player g']> h1).
  assert (Heap.players_of h2 ps = Some rest) as Er2.
  { rewrite <- Er. apply players_of_same.
    - apply Forall_forall. intros p _. apply spinner_of_same.
    - intros k Hk. unfold h2.
      rewrite lookup_insert_ne by (by intros ->).
      apply Hout. intros Hki. by apply (Hdis k). }
  specialize (IH h2 rest Hndps Er2).
  pose proof (draw_outside_all ps h2) as Hout2.
  destruct (draw (next true) rest) as [[fills rest']|];
    destruct (Heap.draw (Heap.next true) ps h2) as [[fills' h']|]; try done.
  destruct IH as [-> Er']. split; [done|].
  cbn [Heap.players_of].
  rewrite (Hout2 l Hlps). unfold h2 at 1. rewrite lookup_insert_eq.
  rewrite (spinner_of_outside i _ h2 h' Hout2) by (intros k Hk; by apply Hdis).
  assert (Heap.spinner_of h2 i = Some s') as ->.
  { rewrite <- Es'. apply spinner_of_same. intros k Hk. unfold h2.
    apply lookup_insert_ne. by intros ->. }
  cbn. rewrite Er'. done.
Qed.

Lemma bouncing_run_same fuel la rs ls rds lds : forall k h r1 r2,
  Heap.closure_ribbon rs <> Heap.closure_ribbon ls ->
  h !! Heap.closure_ribbon rs = Some (Heap.Ribbon r1) ->
  h !! Heap.closure_ribbon ls = Some (Heap.Ribbon r2) ->
  same_outcome (Heap.BouncingInstance la rs ls rds lds)
    (bouncing_run fuel la
       {| scroll_cycles := Heap.closure_cycles rs; infinite_ribbon := r1 |}
       {| scroll_cycles := Heap.closure_cycles ls; infinite_ribbon := r2 |}
       rds lds k)
    (Heap.bouncing_run fuel la rs ls rds lds k h).
Proof.
  induction fuel as [|fuel IH]; intros k h r1 r2 Hne E1 E2;
    cbn [bouncing_run Heap.bouncing_run scroll_cycles].
  { cbn [same_outcome Heap.spinner_of]. unfold Heap.scroll_of.
    by rewrite E1, E2. }
  unfold Heap.ribbon_step.
  destruct (_ <? _)%nat.
  - rewrite E1. destruct (Z.of_nat k <? rds).
    + cbn [same_outcome Heap.spinner_of]. split; [done|]. split; [done|].
      unfold Heap.scroll_of.
      rewrite lookup_insert_eq, lookup_insert_ne, E2 by done. done.
    + apply IH; [done| |].
      * by rewrite lookup_insert_eq.
      * by rewrite lookup_insert_ne.
  - rewrite E2. destruct (Z.of_nat (k - _) <? lds).
    + cbn [same_outcome Heap.spinner_of]. split; [done|]. split; [done|].
      unfold Heap.scroll_of.
      rewrite lookup_insert_eq, lookup_insert_ne, E1 by done. done.
    + apply IH; [done| |].
      * by rewrite lookup_insert_ne.
      * by rewrite lookup_insert_eq.
Qed.

Lemma bouncing_run_stop_shape fuel la rs ls rds lds k s' :
  bouncing_run fuel la rs ls rds lds k = StopIteration s' ->
  exists rs' ls', s' = BouncingSpinner la rs' ls' rds lds /\
                  scroll_cycles rs' = scroll_cycles rs /\
                  scroll_cycles ls' = scroll_cycles ls.
Proof.
  revert rs ls k. induction fuel as [|fuel IH]; intros rs ls k;
    cbn [bouncing_run].
  { intros [= <-]. by exists rs, ls. }
  repeat case_match; try done; intros Hrun;
    apply IH in Hrun as (rs' & ls' & -> & ? & ?);
    exists rs', ls'; by repeat split.
Qed.

(** Where no object is referred to twice, a step on the instance is the
    step on the spinner. *)
Lemma next_same i : forall restart g h s,
  NoDup (Heap.footprint i) ->
  Heap.spinner_of h i = Some s ->
  same_outcome i (next restart s g) (Heap.next restart i g h).
Proof.
  induction i as [la frames|sc|la rs ls rds lds|la c ps IH]
    using instance_induction; intros restart g h s Hnd Hs.
  - injection Hs as <-. cbn [next Heap.next].
    apply counted_same; [|done].
    intros k. by destruct (frames !! k).
  - cbn [Heap.spinner_of] in Hs.
    destruct (Heap.scroll_of h sc) as [s0|] eqn:E; [|done].
    injection Hs as <-. apply scroll_of_Some in E as (r & E & ->).
    cbn [next Heap.next scroll_cycles].
    apply counted_same.
    + intros k. unfold scroll_body, Heap.scroll_body, Heap.ribbon_step.
      rewrite E. cbn [same_outcome Heap.spinner_of]. split; [done|].
      split; [done|]. unfold Heap.scroll_of. by rewrite lookup_insert_eq.
    + cbn [same_outcome Heap.spinner_of]. unfold Heap.scroll_of. by rewrite E.
  - cbn [Heap.spinner_of Heap.footprint] in Hs, Hnd.
    destruct (Heap.scroll_of h rs) as [rs0|] eqn:Er; [|done].
    destruct (Heap.scroll_of h ls) as [ls0|] eqn:El; [|done].
    injection Hs as <-.
    apply scroll_of_Some in Er as (r1 & Er & ->).
    apply scroll_of_Some in El as (r2 & El & ->).
    assert (Heap.closure_ribbon rs <> Heap.closure_ribbon ls) as Hne.
    { apply NoDup_cons in Hnd as [Hnd _]. set_solver. }
    cbn [next Heap.next]. unfold bouncing_next, Heap.bouncing_next.
    cbn [scroll_cycles].
    set (total := (Z.to_nat (Heap.closure_cycles rs)
                   + Z.to_nat (Heap.closure_cycles ls))%nat).
    pose proof (bouncing_run_same (total - g) la rs ls rds lds g h r1 r2
                  Hne Er El) as H1.
    destruct (bouncing_run (total - g) la _ _ rds lds g)
      as [fill s' g'|s'|] eqn:E1;
      destruct (Heap.bouncing_run (total - g) la rs ls rds lds g h)
        as [fill' g'' h1|h1|]; try done.
    apply bouncing_run_stop_shape in E1 as (rs' & ls' & -> & Hc1 & Hc2).
    cbn [scroll_cycles same_outcome Heap.spinner_of] in *.
    destruct restart; [|done].
    destruct (Heap.scroll_of h1 rs) as [rs1|] eqn:Er1; [|done].
    destruct (Heap.scroll_of h1 ls) as [ls1|] eqn:El1; [|done].
    injection H1 as <- <-.
    apply scroll_of_Some in Er1 as (r1' & Er1 & ->).
    apply scroll_of_Some in El1 as (r2' & El1 & ->).
    cbn [scroll_cycles]. fold total.
    pose proof (bouncing_run_same (total - 0) la rs ls rds lds 0%nat h1 r1' r2'
                  Hne Er1 El1) as H2.
    destruct (bouncing_run (total - 0) la _ _ rds lds 0)
      as [fill s' g'|s'|];
      destruct (Heap.bouncing_run (total - 0) la rs ls rds lds 0 h1)
        as [fill' g'' h2|h2|]; try done.
  - rewrite spinner_of_compound in Hs. rewrite footprint_compound in Hnd.
    destruct (Heap.players_of h ps) as [qs|] eqn:Eq; [|done].
    injection Hs as <-. cbn [next Heap.next].
    apply counted_same.
    + intros k. pose proof (draw_same ps IH h qs Hnd Eq) as Hd.
      destruct (draw (next true) qs) as [[fills qs']|];
        destruct (Heap.draw (Heap.next true) ps h) as [[fills' h']|]; try done.
      destruct Hd as [-> Eq']. cbn [same_outcome]. split; [done|]. split; [done|].
      rewrite spinner_of_compound, Eq'. done.
    + cbn [same_outcome]. rewrite spinner_of_compound, Eq. done.
Qed.

(** *** A call of a factory makes new objects, and is the call above *)

Lemma alloc_spec o h l h' :
  Heap.alloc o h = (l, h') ->
  h !! l = None /\ h' = <[l := o]> h /\ h ⊆ h'.
Proof.
  unfold Heap.alloc. intros [= <- <-].
  assert (h !! fresh (dom h) = None) as Hf.
  { apply not_elem_of_dom, is_fresh. }
  split; [done|]. split; [done|]. by apply insert_subseteq.
Qed.

Lemma lookup_fresh (h h' : Heap.store) l :
  h ⊆ h' -> h' !! l = None -> h !! l = None.
Proof.
  intros Hsub Hl. destruct (h !! l) as [o|] eqn:E; [|done].
  by rewrite (lookup_weaken _ _ _ _ E Hsub) in Hl.
Qed.

Lemma spinner_players_spec spinners : forall h ps h',
  Heap.spinner_players spinners h = (ps, h') ->
  ps.*2 = spinners /\ NoDup ps.*1 /\
  (forall l, l ∈ ps.*1 -> h !! l = None) /\
  (forall l, l ∈ ps.*1 -> h' !! l = Some (Heap.Player 0%nat)) /\
  h ⊆ h'.
Proof.
  induction spinners as [|x spinners IH]; intros h ps h'; cbn [Heap.spinner_players].
  { intros [= <- <-]. repeat split; try done; try constructor;
      intros l Hl; by apply elem_of_nil in Hl. }
  unfold Heap.spinner_player.
  destruct (Heap.alloc (Heap.Player 0%nat) h) as [l h1] eqn:Ea.
  destruct (Heap.spinner_players spinners h1) as [ps' h2] eqn:Ep.
  intros [= <- <-].
  apply alloc_spec in Ea as (Hl & -> & Hsub1).
  apply IH in Ep as (Hi & Hnd & Hfresh & Hnew & Hsub2).
  cbn [fmap list_fmap fst snd]. repeat split.
  - by rewrite <- Hi.
  - constructor; [|done]. intros Hin. apply Hfresh in Hin.
    by rewrite lookup_insert_eq in Hin.
  - intros k [-> | Hk]%elem_of_cons; [done|].
    apply (lookup_fresh _ _ _ Hsub1). by apply Hfresh.
  - intros k [-> | Hk]%elem_of_cons; [|by apply Hnew].
    apply (lookup_weaken _ _ _ _ (lookup_insert_eq _ _ _) Hsub2).
  - by etrans.
Qed.

Lemma footprints_elem_of (ps : list Heap.player) l :
  l ∈ Heap.footprints ps <->
  l ∈ ps.*1 \/ l ∈ mjoin (Heap.footprint <$> ps.*2).
Proof.
  induction ps as [|[k i] ps IH]; cbn.
  - split; [by intros ?%elem_of_nil | by intros [?%elem_of_nil | ?%elem_of_nil]].
  - rewrite !elem_of_cons, !elem_of_app, IH. tauto.
Qed.

Lemma footprints_NoDup (ps : list Heap.player) :
  NoDup ps.*1 ->
  NoDup (mjoin (Heap.footprint <$> ps.*2)) ->
  (forall l, l ∈ ps.*1 -> l ∉ mjoin (Heap.footprint <$> ps.*2)) ->
  NoDup (Heap.footprints ps).
Proof.
  induction ps as [|[k i] ps IH]; cbn; intros Hnd Hc Hd; [constructor|].
  apply NoDup_cons in Hnd as [Hk Hnd].
  apply NoDup_app in Hc as (Hi & Hic & Hc).
  constructor.
  - rewrite elem_of_app, footprints_elem_of. intros [Hki | [Hkp | Hkc]].
    + apply (Hd k); [left | apply elem_of_app; by left].
    + done.
    + apply (Hd k); [left | apply elem_of_app; by right].
  - apply NoDup_app. split; [done|]. split.
    + intros l Hl. rewrite footprints_elem_of. intros [Hlp | Hlc].
      * apply (Hd l); [by right | apply elem_of_app; by left].
      * by apply (Hic l).
    + apply IH; [done | done |].
      intros l Hl Hlc. apply (Hd l); [by right | apply elem_of_app; by right].
Qed.

Lemma players_of_new h (ps : list Heap.player) spinners :
  Forall2 (fun i s => Heap.spinner_of h i = Some s) ps.*2 spinners ->
  (forall l, l ∈ ps.*1 -> h !! l = Some (Heap.Player 0%nat)) ->
  Heap.players_of h ps = Some (map spinner_player spinners).
Proof.
  revert spinners. induction ps as [|[l i] ps IH]; intros spinners; cbn.
  { by inversion 1. }
  inversion 1 as [|? s ? rest Hs Hrest]; subst. intros Hl.
  rewrite (Hl l) by left. rewrite Hs. cbn.
  rewrite (IH rest Hrest) by (intros k Hk; apply Hl; by right). done.
Qed.

Lemma for_each_same Fs Fs' each :
  Forall2 same_factory Fs Fs' ->
  forall h,
    match for_each (fun factory => factory each) Fs,
          Heap.for_each (fun factory => factory each) Fs' h with
    | Return spinners, Return (instances, h') =>
        Forall2 (fun i s => Heap.spinner_of h' i = Some s) instances spinners /\
        NoDup (mjoin (Heap.footprint <$> instances)) /\
        (forall l, l ∈ mjoin (Heap.footprint <$> instances) -> h !! l = None) /\
        h ⊆ h'
    | Raise e, Raise e' => e' = e
    | Hang, Hang => True
    | _, _ => False
    end.
Proof.
  induction 1 as [|F F' Fs Fs' HF HFs IH]; intros h; cbn [for_each Heap.for_each].
  { repeat split; try done; try constructor.
    intros l Hl. by apply elem_of_nil in Hl. }
  specialize (HF each h). unfold same_result in HF.
  destruct (F each) as [s|e|]; destruct (F' each h) as [[i h1]|e'|];
    try done; cbn [mbind result_bind].
  destruct HF as (Hs & Hnd & Hfresh & Hsub).
  specialize (IH h1).
  destruct (for_each _ Fs) as [spinners|e|];
    destruct (Heap.for_each _ Fs' h1) as [[instances h']|e'|];
    try done; cbn [mbind result_bind].
  destruct IH as (Hall & Hnds & Hfreshs & Hsubs).
  split; [|split; [|split]].
  - constructor; [by eapply spinner_of_subseteq | done].
  - cbn. apply NoDup_app. split; [done|]. split; [|done].
    intros l Hl Hlc. apply Hfreshs in Hlc.
    destruct (spinner_of_footprint i h1 s Hs l Hl) as [o Ho]. congruence.
  - cbn. intros l [Hl | Hl]%elem_of_app; [by apply Hfresh|].
    apply (lookup_fresh _ _ _ Hsub). by apply Hfreshs.
  - by etrans.
Qed.

Lemma longest_same h instances spinners :
  Forall2 (fun i s => Heap.spinner_of h i = Some s) instances spinners ->
  match longest spinners, Heap.longest instances with
  | Return s, Return i => Heap.spinner_of h i = Some s
  | Raise e, Raise e' => e' = e
  | _, _ => False
  end.
Proof.
  destruct 1 as [|i s instances spinners Hs Hall]; [done|].
  cbn [longest Heap.longest]. revert i s Hs.
  induction Hall as [|i' s' instances spinners Hs' Hall IH]; intros i s Hs; [done|].
  cbn [foldl].
  rewrite (cycles_spinner_of i h s Hs), (cycles_spinner_of i' h s' Hs').
  destruct (Heap.cycles i <? Heap.cycles i'); by apply IH.
Qed.

Lemma compound_same Fs Fs' :
  Forall2 same_factory Fs Fs' ->
  same_factory (compound_inner_factory Fs) (Heap.compound_inner_factory Fs').
Proof.
  intros HFs la h. unfold compound_inner_factory, Heap.compound_inner_factory.
  assert (len Fs' = len Fs) as ->.
  { unfold len. by rewrite (Forall2_length _ _ _ HFs). }
  destruct (each_length la (len Fs)) as [each|e|]; try done.
  cbn [mbind result_bind].
  pose proof (for_each_same Fs Fs' each HFs h) as Hfe.
  destruct (for_each _ Fs) as [spinners|e|];
    destruct (Heap.for_each _ Fs' h) as [[instances h1]|e'|];
    try done; cbn [mbind result_bind].
  destruct Hfe as (Hall & Hnd & Hfresh & Hsub).
  pose proof (longest_same h1 instances spinners Hall) as Hlong.
  destruct (longest spinners) as [s|e|];
    destruct (Heap.longest instances) as [i|e'|];
    try done; cbn [mbind result_bind].
  destruct (Heap.spinner_players instances h1) as [ps h2] eqn:Ep.
  apply spinner_players_spec in Ep as (Hi & Hndp & Hfreshp & Hnew & Hsub2).
  cbn [same_result]. rewrite footprint_compound, spinner_of_compound.
  assert (forall l, l ∈ mjoin (Heap.footprint <$> instances) ->
                    is_Some (h1 !! l)) as Hdom.
  { intros l (fp & Hl & Hfp)%list_elem_of_join.
    apply list_elem_of_fmap in Hfp as (i0 & -> & Hi0).
    destruct (proj1 (list_elem_of_lookup _ _) Hi0) as [k Hk].
    destruct (Forall2_lookup_l _ _ _ _ _ Hall Hk) as (s0 & _ & Hs0).
    by eapply spinner_of_footprint. }
  split; [|split; [|split]].
  - rewrite (players_of_new h2 ps spinners).
    + cbn. by rewrite (cycles_spinner_of i h1 s Hlong).
    + rewrite Hi. eapply Forall2_impl; [exact Hall|].
      intros i0 s0 Hs0. by eapply spinner_of_subseteq.
    + done.
  - apply footprints_NoDup; rewrite ?Hi; try done.
    intros l Hl Hlc. apply Hfreshp in Hl. destruct (Hdom l Hlc). congruence.
  - intros l [Hl | Hl]%footprints_elem_of.
    + apply (lookup_fresh _ _ _ Hsub). by apply Hfreshp.
    + rewrite Hi in Hl. by apply Hfresh.
  - by etrans.
Qed.

Lemma player_next_same l i h s g :
  NoDup (l :: Heap.footprint i) ->
  h !! l = Some (Heap.Player g) ->
  Heap.spinner_of h i = Some s ->
  match player_next (s, g), Heap.player_next (l, i) h with
  | Some (fill, (s', g')), Some (fill', h') =>
      fill' = fill /\ h' !! l = Some (Heap.Player g') /\
      Heap.spinner_of h' i = Some s' /\
      Heap.outside (l :: Heap.footprint i) h h'
  | None, None => True
  | _, _ => False
  end.
Proof.
  intros [Hl Hnd]%NoDup_cons El Es.
  unfold player_next, Heap.player_next. cbn [fst snd]. rewrite El.
  pose proof (next_same i true g h s Hnd Es) as Hn.
  pose proof (next_outside i true g h) as Hout.
  destruct (next true s g) as [fill s' g'|s'|];
    destruct (Heap.next true i g h) as [fill' g'' h1|h1|]; try done.
  destruct Hn as (-> & -> & Es'). cbn [keeps] in Hout.
  split; [done|]. split; [by rewrite lookup_insert_eq|]. split.
  - rewrite <- Es'. apply spinner_of_same. intros k Hk.
    apply lookup_insert_ne. by intros ->.
  - eapply outside_trans.
    + eapply outside_mono; [|exact Hout]. intros k Hk. by right.
    + apply outside_insert. by left.
Qed.

Lemma discard_same l i n : forall h s g,
  NoDup (l :: Heap.footprint i) ->
  h !! l = Some (Heap.Player g) ->
  Heap.spinner_of h i = Some s ->
  match discard n (s, g), Heap.discard n (l, i) h with
  | Return (s', g'), Return h' =>
      h' !! l = Some (Heap.Player g') /\
      Heap.spinner_of h' i = Some s' /\
      Heap.outside (l :: Heap.footprint i) h h'
  | Hang, Hang => True
  | _, _ => False
  end.
Proof.
  induction n as [|n IH]; intros h s g Hnd El Es; cbn [discard Heap.discard].
  { split; [done|]. split; [done|]. apply outside_refl. }
  pose proof (player_next_same l i h s g Hnd El Es) as Hp.
  destruct (player_next (s, g)) as [[fill [s1 g1]]|];
    destruct (Heap.player_next (l, i) h) as [[fill' h1]|]; try done.
  destruct Hp as (_ & El1 & Es1 & Hout1).
  specialize (IH h1 s1 g1 Hnd El1 Es1).
  destruct (discard n (s1, g1)) as [[s' g']|e|];
    destruct (Heap.discard n (l, i) h1) as [h'|e'|]; try done.
  destruct IH as (El' & Es' & Hout'). split; [done|]. split; [done|].
  by eapply outside_trans.
Qed.

(** The loop that moves the players of a delayed spinner on. *)
Lemma for_players_same (shift : nat -> nat) ps : forall a h qs,
  NoDup (Heap.footprints ps) ->
  Heap.players_of h ps = Some qs ->
  match for_each (fun '(k, q) => discard (shift k) q)
          (zip (seq a (List.length qs)) qs),
        Heap.for_players (fun '(k, p) => Heap.discard (shift k) p)
          (zip (seq a (List.length ps)) ps) h with
  | Return qs', Return h' =>
      Heap.players_of h' ps = Some qs' /\
      Heap.outside (Heap.footprints ps) h h'
  | Hang, Hang => True
  | _, _ => False
  end.
Proof.
  induction ps as [|[l i] ps IH]; intros a h qs Hnd Hqs.
  { injection Hqs as <-. cbn. split; [done | apply outside_refl]. }
  cbn [Heap.footprints] in Hnd.
  pose proof Hnd as Hnd0.
  apply NoDup_cons in Hnd as [Hl Hnd].
  apply NoDup_app in Hnd as (Hndi & Hdis & Hndps).
  apply not_elem_of_app in Hl as [Hli Hlps].
  cbn [Heap.players_of] in Hqs.
  destruct (h !! l) as [[r|g]|] eqn:El; try done.
  destruct (Heap.spinner_of h i) as [s|] eqn:Es; [|done].
  destruct (Heap.players_of h ps) as [rest|] eqn:Er; [|done].
  injection Hqs as <-.
  cbn [List.length seq zip zip_with for_each Heap.for_players].
  assert (NoDup (l :: Heap.footprint i)) as Hndl by (by constructor).
  pose proof (discard_same l i (shift a) h s g Hndl El Es) as Hd.
  destruct (discard (shift a) (s, g)) as [[s' g']|e|];
    destruct (Heap.discard (shift a) (l, i) h) as [h1|e'|]; try done;
    cbn [mbind result_bind].
  destruct Hd as (El1 & Es1 & Hout1).
  assert (Heap.players_of h1 ps = Some rest) as Er1.
  { rewrite <- Er. apply (players_of_outside ps _ h h1 Hout1).
    intros k Hk [-> | Hki]%elem_of_cons; [done | by apply (Hdis k)]. }
  specialize (IH (S a) h1 rest Hndps Er1).
  destruct (for_each _ (zip (seq (S a) (List.length rest)) rest)) as [rest'|e|];
    destruct (Heap.for_players _ (zip (seq (S a) (List.length ps)) ps) h1)
      as [h'|e'|]; try done; cbn [mbind result_bind].
  destruct IH as (Er' & Hout'). split.
  - cbn [Heap.players_of]. rewrite (Hout' l Hlps), El1.
    rewrite (spinner_of_outside i _ h1 h' Hout'), Es1
      by (intros k Hk; by apply Hdis).
    cbn. by rewrite Er'.
  - eapply outside_trans.
    + eapply outside_mono; [|exact Hout1].
      intros k [-> | Hk]%elem_of_cons; [by left|].
      right. apply elem_of_app. by left.
    + eapply outside_mono; [|exact Hout'].
      intros k Hk. right. apply elem_of_app. by right.
Qed.

Lemma players_of_length h ps qs :
  Heap.players_of h ps = Some qs -> List.length qs = List.length ps.
Proof.
  revert qs. induction ps as [|[l i] ps IH]; intros qs; cbn.
  { by intros [= <-]. }
  destruct (h !! l) as [[r|g]|]; try done.
  destruct (Heap.spinner_of h i) as [s|]; [|done].
  destruct (Heap.players_of h ps) as [rest|]; [|done].
  intros [= <-]. cbn. by rewrite (IH rest).
Qed.

Lemma compound_instance_shape Fs' la h i h' :
  Heap.compound_inner_factory Fs' la h = Return (i, h') ->
  exists c ps, i = Heap.CompoundInstance la c ps.
Proof.
  unfold Heap.compound_inner_factory.
  destruct (each_length la (len Fs')) as [each|e|]; try done.
  cbn [mbind result_bind].
  destruct (Heap.for_each _ Fs' h) as [[instances h1]|e|]; try done.
  cbn [mbind result_bind].
  destruct (Heap.longest instances) as [longest|e|]; try done.
  cbn [mbind result_bind].
  destruct (Heap.spinner_players instances h1) as [ps h2].
  intros [= <- <-]. eauto.
Qed.

Lemma delayed_same F F' nat_ copies offset :
  same_factory F F' ->
  same_factory (delayed_inner_factory F nat_ copies offset)
    (Heap.delayed_inner_factory F' nat_ copies offset).
Proof.
  intros HF la h. unfold delayed_inner_factory, Heap.delayed_inner_factory.
  destruct (copies_actual nat_ copies la) as [n|e|]; try done.
  cbn [mbind result_bind]. unfold times.
  destruct (index_sized n); [|done]. cbn [mbind result_bind].
  pose proof (compound_same (replicate (Z.to_nat n) F)
                (replicate (Z.to_nat n) F')
                (Forall2_replicate _ _ _ _ HF) la h) as Hc.
  destruct (compound_inner_factory _ la) as [r|e|];
    destruct (Heap.compound_inner_factory _ la h) as [[i h1]|e'|] eqn:Ei;
    try done; cbn [mbind result_bind].
  apply compound_instance_shape in Ei as (c & ps & ->).
  cbn [same_result] in Hc. rewrite footprint_compound, spinner_of_compound in Hc.
  destruct Hc as (Hs & Hnd & Hfresh & Hsub).
  destruct (Heap.players_of h1 ps) as [qs|] eqn:Eq; [|done].
  injection Hs as <-. cbn [players Heap.players]. unfold enumerate.
  pose proof (for_players_same (fun k => Z.to_nat (Z.of_nat k * offset)) ps
                0%nat h1 qs Hnd Eq) as Hp.
  destruct (for_each _ (zip (seq 0 (List.length qs)) qs)) as [qs'|e|];
    destruct (Heap.for_players _ (zip (seq 0 (List.length ps)) ps) h1)
      as [h'|e'|]; try done; cbn [mbind result_bind].
  destruct Hp as [Eq' Hout].
  cbn [with_players same_result].
  rewrite footprint_compound, spinner_of_compound, Eq'.
  split; [done|]. split; [done|]. split; [done|].
  apply map_subseteq_spec. intros l o Hl.
  rewrite (Hout l).
  - by apply (lookup_weaken _ _ _ _ Hl Hsub).
  - intros Hin. apply Hfresh in Hin. congruence.
Qed.

(** A call of a factory in a store: as the call of the sections above, on
    objects that are all new. *)
Lemma inner_factory_same f :
  same_factory (inner_factory f) (Heap.inner_factory f).
Proof.
  induction f as [frames|chars length block background right_ hiding overlay|
                  right_chars length block left_chars blank hiding|fs IH|
                  f copies offset IH] using factory_induction.
  - intros la h. cbn. repeat split; try done; try constructor.
    intros l Hl. by apply elem_of_nil in Hl.
  - intros la h. cbn [inner_factory Heap.inner_factory Heap.scrolling_bind].
    destruct (scrolling_inner_factory _ _ _ _ _ _ _ _) as [s|e|]; try done.
    cbn [mbind result_bind]. unfold Heap.window.
    destruct (Heap.alloc _ h) as [l h'] eqn:Ea.
    apply alloc_spec in Ea as (Hl & -> & Hsub).
    cbn [same_result Heap.spinner_of Heap.footprint Heap.closure_ribbon].
    unfold Heap.scroll_of. cbn [Heap.closure_ribbon Heap.closure_cycles].
    rewrite lookup_insert_eq. split; [by destruct s|].
    split; [apply NoDup_singleton|]. split; [|done].
    by intros k ->%list_elem_of_singleton.
  - intros la h. reflexivity.
  - cbn [inner_factory Heap.inner_factory]. apply compound_same.
    apply Forall2_fmap, Forall_Forall2_diag. exact IH.
  - cbn [inner_factory Heap.inner_factory]. by apply delayed_same.
Qed.

(** *** Generators of two instances *)

(** Two generators at the same position, of instances that are the same
    spinner, each in a store of its own: the next frame is the same, and they
    stay so. *)
Lemma generator_next_same a b h h' s :
  Heap.restarts a = Heap.restarts b ->
  Heap.position a = Heap.position b ->
  NoDup (Heap.footprint (Heap.of_instance a)) ->
  NoDup (Heap.footprint (Heap.of_instance b)) ->
  Heap.spinner_of h (Heap.of_instance a) = Some s ->
  Heap.spinner_of h' (Heap.of_instance b) = Some s ->
  match Heap.generator_next a h, Heap.generator_next b h' with
  | Some (o, a1, h1), Some (o', b1, h1') =>
      o' = o /\
      Heap.of_instance a1 = Heap.of_instance a /\
      Heap.of_instance b1 = Heap.of_instance b /\
      Heap.restarts a1 = Heap.restarts a /\
      Heap.restarts b1 = Heap.restarts b /\
      Heap.position a1 = Heap.position b1 /\
      (exists s', Heap.spinner_of h1 (Heap.of_instance a) = Some s' /\
                  Heap.spinner_of h1' (Heap.of_instance b) = Some s') /\
      Heap.outside (Heap.footprint (Heap.of_instance a)) h h1 /\
      Heap.outside (Heap.footprint (Heap.of_instance b)) h' h1'
  | None, None => True
  | _, _ => False
  end.
Proof.
  intros Hr Hp Hnda Hndb Ha Hb. unfold Heap.generator_next.
  rewrite <- Hp, <- Hr. destruct (Heap.position a) as [g|] eqn:Epa.
  - pose proof (next_same _ (Heap.restarts a) g h s Hnda Ha) as H1.
    pose proof (next_same _ (Heap.restarts a) g h' s Hndb Hb) as H2.
    pose proof (next_outside (Heap.of_instance a) (Heap.restarts a) g h) as O1.
    pose proof (next_outside (Heap.of_instance b) (Heap.restarts a) g h') as O2.
    destruct (next (Heap.restarts a) s g) as [fill s' g'|s'|];
      destruct (Heap.next _ (Heap.of_instance a) g h) as [f1 g1 h1|h1|];
      destruct (Heap.next _ (Heap.of_instance b) g h') as [f2 g2 h2|h2|];
      try done; cbn [same_outcome keeps Heap.of_instance Heap.restarts
                       Heap.position] in *.
    + destruct H1 as (-> & -> & E1). destruct H2 as (-> & -> & E2).
      repeat split; try done. by exists s'.
    + repeat split; try done. by exists s'.
  - repeat split; try done; try apply outside_refl; try congruence.
    by exists s.
Qed.

Lemma generator_eq (a b : Heap.generator) :
  Heap.of_instance a = Heap.of_instance b ->
  Heap.restarts a = Heap.restarts b ->
  Heap.position a = Heap.position b ->
  a = b.
Proof. destruct a, b; cbn. by intros -> -> ->. Qed.

(** Played alone, the two give the same frames. *)
Lemma play_same n : forall a b a' b' h h' s,
  Heap.restarts a = Heap.restarts b' ->
  Heap.position a = Heap.position b' ->
  NoDup (Heap.footprint (Heap.of_instance a)) ->
  NoDup (Heap.footprint (Heap.of_instance b')) ->
  Heap.spinner_of h (Heap.of_instance a) = Some s ->
  Heap.spinner_of h' (Heap.of_instance b') = Some s ->
  map snd <$> Heap.play (replicate n true) a b h
  = map snd <$> Heap.play (replicate n false) a' b' h'.
Proof.
  induction n as [|n IH]; intros a b a' b' h h' s Hr Hp Hnda Hndb Ha Hb; [done|].
  cbn [replicate Heap.play].
  pose proof (generator_next_same a b' h h' s Hr Hp Hnda Hndb Ha Hb) as Hn.
  destruct (Heap.generator_next a h) as [[[o a1] h1]|];
    destruct (Heap.generator_next b' h') as [[[o' b1] h1']|]; try done.
  destruct Hn as (-> & Ia & Ib & Ra & Rb & Hp1 & (s' & Ha1 & Hb1) & _ & _).
  cbn [mbind option_bind].
  specialize (IH a1 b a' b1 h1 h1' s').
  rewrite Ia, Ib, Ra, Rb in IH. specialize (IH Hr Hp1 Hnda Hndb Ha1 Hb1).
  destruct (Heap.play (replicate n true) a1 b h1) as [log|];
    destruct (Heap.play (replicate n false) a' b1 h1') as [log'|];
    try done; cbn in *.
  by injection IH as ->.
Qed.

(** In an interleaving each gives what it gives alone. *)
Lemma play_alone schedule : forall a b a0 b0 h ha hb sa sb log,
  NoDup (Heap.footprint (Heap.of_instance a)) ->
  NoDup (Heap.footprint (Heap.of_instance b)) ->
  (forall l, l ∈ Heap.footprint (Heap.of_instance a) ->
             l ∉ Heap.footprint (Heap.of_instance b)) ->
  Heap.spinner_of h (Heap.of_instance a) = Some sa ->
  Heap.spinner_of ha (Heap.of_instance a) = Some sa ->
  Heap.spinner_of h (Heap.of_instance b) = Some sb ->
  Heap.spinner_of hb (Heap.of_instance b) = Some sb ->
  Heap.play schedule a b h = Some log ->
  Heap.play (List.filter id schedule) a b0 ha
  = Some (List.filter (fun e => e.1) log) /\
  Heap.play (List.filter negb schedule) a0 b hb
  = Some (List.filter (fun e => negb e.1) log).
Proof.
  induction schedule as [|first schedule IH];
    intros a b a0 b0 h ha hb sa sb log Hnda Hndb Hdis Ha Ha' Hb Hb' Hplay.
  { injection Hplay as <-. done. }
  cbn [Heap.play] in Hplay.
  destruct first; cbn [List.filter id negb Heap.play].
  - pose proof (generator_next_same a a h ha sa eq_refl eq_refl Hnda Hnda Ha Ha')
      as Hn.
    destruct (Heap.generator_next a h) as [[[o a1] h1]|]; [|done].
    destruct (Heap.generator_next a ha) as [[[o' a1'] ha1]|]; [|done].
    destruct Hn as (-> & I1 & I1' & R1 & R1' & P1 & (s' & E1 & E1') & O1 & _).
    assert (a1' = a1) as -> by (apply generator_eq; congruence).
    cbn [mbind option_bind] in *.
    destruct (Heap.play schedule a1 b h1) as [log'|] eqn:Elog; [|done].
    injection Hplay as <-.
    assert (Heap.spinner_of h1 (Heap.of_instance b) = Some sb) as Hb1.
    { rewrite <- Hb. apply (spinner_of_outside _ _ h h1 O1).
      intros l Hl Hla. by apply (Hdis l). }
    rewrite <- I1 in Hnda, Hdis, E1, E1'.
    destruct (IH a1 b a0 b0 h1 ha1 hb s' sb log' Hnda Hndb Hdis E1 E1' Hb1 Hb'
                Elog) as [IHa IHb].
    rewrite IHa. cbn. by rewrite IHb.
  - pose proof (generator_next_same b b h hb sb eq_refl eq_refl Hndb Hndb Hb Hb')
      as Hn.
    destruct (Heap.generator_next b h) as [[[o b1] h1]|]; [|done].
    destruct (Heap.generator_next b hb) as [[[o' b1'] hb1]|]; [|done].
    destruct Hn as (-> & I1 & I1' & R1 & R1' & P1 & (s' & E1 & E1') & O1 & _).
    assert (b1' = b1) as -> by (apply generator_eq; congruence).
    cbn [mbind option_bind] in *.
    destruct (Heap.play schedule a b1 h1) as [log'|] eqn:Elog; [|done].
    injection Hplay as <-.
    assert (Heap.spinner_of h1 (Heap.of_instance a) = Some sa) as Ha1.
    { rewrite <- Ha. apply (spinner_of_outside _ _ h h1 O1).
      intros l Hl Hlb. by apply (Hdis l). }
    rewrite <- I1 in Hndb, Hdis, E1, E1'.
    destruct (IH a b1 a0 b0 h1 ha hb1 sa s' log' Hnda Hndb Hdis Ha1 Ha' E1 E1'
                Elog) as [IHa IHb].
    rewrite IHb. cbn. by rewrite IHa.
Qed.

(** C9. A factory called twice with the same width: the second call
    returns as the first did, and the two instances are the same spinner,
    the one the call returns in the sections above, so that they give the
    same frames. The objects of the second are new: the two instances
    refer to no common object, and in any interleaving of [next] calls on
    a generator of each, either gives the frames it gives when it plays
    alone. *)
Theorem instances_independent f la h i1 h1 :
  Heap.inner_factory f la h = Return (i1, h1) ->
  exists i2 h2 s,
    Heap.inner_factory f la h1 = Return (i2, h2) /\
    inner_factory f la = Return s /\
    Heap.spinner_of h2 i1 = Some s /\
    Heap.spinner_of h2 i2 = Some s /\
    (forall l, l ∈ Heap.footprint i1 -> l ∉ Heap.footprint i2) /\
    (forall restart n,
       let a := Heap.generator_of restart i1 in
       let b := Heap.generator_of restart i2 in
       map snd <$> Heap.play (replicate n true) a b h2
       = map snd <$> Heap.play (replicate n false) a b h2) /\
    (forall r1 r2 schedule log,
       let a := Heap.generator_of r1 i1 in
       let b := Heap.generator_of r2 i2 in
       Heap.play schedule a b h2 = Some log ->
       Heap.play (List.filter id schedule) a b h2
       = Some (List.filter (fun e => e.1) log) /\
       Heap.play (List.filter negb schedule) a b h2
       = Some (List.filter (fun e => negb e.1) log)).
Proof.
  intros H1.
  pose proof (inner_factory_same f la h) as S1.
  pose proof (inner_factory_same f la h1) as S2.
  rewrite H1 in S1.
  destruct (inner_factory f la) as [s|e|]; try done.
  destruct (Heap.inner_factory f la h1) as [[i2 h2]|e|]; try done.
  destruct S1 as (E1 & Hnd1 & Hfresh1 & Hsub1).
  destruct S2 as (E2 & Hnd2 & Hfresh2 & Hsub2).
  pose proof (spinner_of_subseteq i1 h1 h2 s Hsub2 E1) as E1'.
  assert (forall l, l ∈ Heap.footprint i1 -> l ∉ Heap.footprint i2) as Hdis.
  { intros l Hl1 Hl2. apply Hfresh2 in Hl2.
    destruct (spinner_of_footprint i1 h1 s E1 l Hl1). congruence. }
  exists i2, h2, s.
  split; [done|]. split; [done|]. split; [done|]. split; [done|].
  split; [done|]. split.
  - intros restart n a b. by apply (play_same n a b a b h2 h2 s).
  - intros r1 r2 schedule log a b Hplay.
    by apply (play_alone schedule a b a b h2 h2 h2 s s log).
Qed.

Lemma instances_independent_witness :
  let f := compound_spinner_factory
             [scrolling_spinner_factory (text "ab") (Some 3) None None
                true true false;
              FrameFactory [text "x"; text "y"]] in
  exists i1 h1 i2 h2 s,
    Heap.inner_factory f (Some 4) ∅ = Return (i1, h1) /\
    Heap.inner_factory f (Some 4) h1 = Return (i2, h2) /\
    inner_factory f (Some 4) = Return s /\
    Heap.spinner_of h2 i1 = Some s /\
    Heap.spinner_of h2 i2 = Some s /\
    (forall l, l ∈ Heap.footprint i1 -> l ∉ Heap.footprint i2).
Proof.
  intros f.
  assert (exists i1 h1, Heap.inner_factory f (Some 4) ∅ = Return (i1, h1))
    as (i1 & h1 & H1) by (do 2 eexists; vm_compute; reflexivity).
  destruct (instances_independent f (Some 4) ∅ i1 h1 H1)
    as (i2 & h2 & s & H2 & Hs & E1 & E2 & Hd & _).
  exists i1, h1, i2, h2, s. repeat split; assumption.
Defined.

(** Within one instance it is otherwise: its generators work on the same
    objects. Two generators of one compound spinner take their frames from
    the same players, so the second starts where the first has left them. *)
Lemma generators_of_one_instance_share :
  let f := compound_spinner_factory
             [FrameFactory [text "a"; text "b"; text "c"];
              FrameFactory [text "x"; text "y"]] in
  exists i h,
    Heap.inner_factory f None ∅ = Return (i, h) /\
    let a := Heap.generator_of false i in
    let b := Heap.generator_of false i in
    Heap.play [true; false] a b h
    = Some [(true, Some (text "ax")); (false, Some (text "by"))] /\
    Heap.play [false] a b h = Some [(false, Some (text "ax"))].
Proof.
  intros f. do 2 eexists. split; [vm_compute; reflexivity|].
  split; vm_compute; reflexivity.
Qed.

(** So do two generators of one scrolling spinner, on its ribbon. *)
Lemma generators_of_one_scrolling_share :
  let f := scrolling_spinner_factory (text "ab") (Some 3) None None
             true true false in
  exists i h o o',
    Heap.inner_factory f None ∅ = Return (i, h) /\
    let a := Heap.generator_of false i in
    let b := Heap.generator_of false i in
    Heap.play [true; false] a b h = Some [(true, o); (false, o')] /\
    Heap.play [false] a b h = Some [(false, o)] /\
    o' <> o.
Proof.
  intros f. do 4 eexists. split; [vm_compute; reflexivity|].
  split; [vm_compute; reflexivity|]. split; [vm_compute; reflexivity|]. done.
Qed.

(** ** Basic spinners, further *)

(** X1. [frame_spinner_factory] fails exactly when it is given no frame, or
    one empty string: the error is the [IndexError] of [frames[0]]. One
    string that is not empty is one frame per character, so [natural] is 1
    and a spinner has as many [cycles] as the string has characters; several
    frames are kept as they are, the first one giving [natural]. *)
Theorem frame_spinner_factory_outcome frames :
  (frame_spinner_factory frames = Raise IndexError <->
   frames = [] \/ frames = [[]]) /\
  (forall e, frame_spinner_factory frames = Raise e -> e = IndexError) /\
  frame_spinner_factory frames <> Hang /\
  (forall c chars f la s,
     frames = [c :: chars] ->
     frame_spinner_factory frames = Return f ->
     inner_factory f la = Return s ->
     natural f = 1 /\ cycles s = len (c :: chars) /\
     s = FrameSpinner la (map (fun x => [x]) (c :: chars))) /\
  (forall first second rest f la s,
     frames = first :: second :: rest ->
     frame_spinner_factory frames = Return f ->
     inner_factory f la = Return s ->
     natural f = len first /\ cycles s = len frames /\
     s = FrameSpinner la frames).
Proof.
  split; [|split; [|split; [|split]]].
  - destruct frames as [|[|c chars] [|second rest]]; simpl;
      (split; [intros H; try done; auto | intros [H|H]; done]).
  - intros e. destruct frames as [|[|c chars] [|second rest]]; simpl;
      by intros [= <-].
  - by destruct frames as [|[|c chars] [|second rest]].
  - intros c chars f la s -> [= <-] [= <-]. repeat split.
    unfold cycles, len. simpl. by rewrite length_map.
  - intros first second rest f la s -> [= <-] [= <-]. done.
Qed.

Lemma frame_spinner_factory_outcome_witness :
  natural (FrameFactory (map (fun c => [c]) (text "abc"))) = 1 /\
  cycles (FrameSpinner (Some 4) (map (fun c => [c]) (text "abc")))
  = len (text "abc") /\
  FrameSpinner (Some 4) (map (fun c => [c]) (text "abc"))
  = FrameSpinner (Some 4) (map (fun c => [c]) (text "abc")).
Proof.
  exact (proj1 (proj2 (proj2 (proj2 (frame_spinner_factory_outcome [text "abc"]))))
           "a"%char (text "bc") _ (Some 4) _ eq_refl eq_refl eq_refl).
Defined.

(** X2. A spinner of [frame_spinner_factory] plays its frames in the order
    given, for ever: restarted, tick [t] shows frame [t mod cycles], fixed to
    the width of the call, and as it is when there is none. So its output
    repeats every [cycles] frames. *)
Theorem frame_spinner_plays frames f la s :
  frame_spinner_factory frames = Return f ->
  inner_factory f la = Return s ->
  exists played,
    s = FrameSpinner la played /\ played <> [] /\
    cycles s = len played /\
    (played = frames \/ exists chars, frames = [chars] /\
                                  played = map (fun c => [c]) chars) /\
    (forall t, player_frame (spinner_player s) t
               = repeating la <$> played !! (t mod List.length played)%nat) /\
    (truthy la = false ->
     forall t, player_frame (spinner_player s) t
               = played !! (t mod List.length played)%nat) /\
    periodic (spinner_player s) (List.length played).
Proof.
  intros Hf Hs.
  assert (exists played, f = FrameFactory played /\ played <> [] /\
            (played = frames \/ exists chars, frames = [chars] /\
                                          played = map (fun c => [c]) chars))
    as (played & -> & Hne & Hfrom).
  { destruct frames as [|[|c chars] [|second rest]]; simpl in Hf; try done;
      injection Hf as <-; eexists; (split; [done|]); (split; [done|]);
      first [by left | right; by eexists]. }
  cbn [inner_factory] in Hs. injection Hs as <-. exists played.
  do 4 (split; [done|]). split; [|split].
  - intros t. by apply frame_player_frame.
  - intros T t. rewrite frame_player_frame by done.
    unfold repeating. rewrite T. by destruct (played !! _).
  - by apply frame_periodic.
Qed.

Lemma frame_spinner_plays_witness :
  player_frame
    (spinner_player (FrameSpinner None (map (fun c => [c]) (text "abc")))) 4
  = map (fun c => [c]) (text "abc") !! (4 mod 3)%nat.
Proof.
  destruct (frame_spinner_plays [text "abc"]
              (FrameFactory (map (fun c => [c]) (text "abc"))) None
              (FrameSpinner None (map (fun c => [c]) (text "abc")))
              eq_refl eq_refl)
    as (played & Hs & _ & _ & _ & _ & Hplay & _).
  injection Hs as <-. exact (Hplay eq_refl 4%nat).
Defined.

(** ** Scrolling spinners, further *)

(** X3. For a scrolling factory a [length], a [block] or a width of 0 is as
    good as none: every use of the three is a truth test or sits under one. *)
Theorem scrolling_zero_is_none chars length block background
    (right hiding overlay : bool) la :
  let unset (x : option Z) := if truthy x then x else None in
  inner_factory (scrolling_spinner_factory chars (unset length) (unset block)
                   background right hiding overlay) (unset la)
  = inner_factory (scrolling_spinner_factory chars length block background
                     right hiding overlay) la /\
  natural (scrolling_spinner_factory chars (unset length) (unset block)
             background right hiding overlay)
  = natural (scrolling_spinner_factory chars length block background
               right hiding overlay).
Proof.
  destruct length as [[|l|l]|], block as [[|b|b]|], la as [[|w|w]|];
    split; reflexivity.
Qed.

(** X4. The [cycles] of a scrolling spinner is the bound width plus the
    block size when [hiding], and the greater of the two otherwise. It does
    not depend on the direction, on the window kind or on the background:
    with those changed the call returns as well, with the same [cycles]. *)
Theorem scrolling_cycles_shape chars length block background
    (right hiding overlay : bool) la s :
  inner_factory (scrolling_spinner_factory chars length block background
                   right hiding overlay) la = Return s ->
  exists bs,
    used_block_size chars length block la = Return bs /\
    let bound := int_or la (int_or length (len chars)) in
    cycles s = (if hiding then bound + bs else Z.max bound bs) /\
    forall background' (right' overlay' : bool),
    exists s',
      inner_factory (scrolling_spinner_factory chars length block background'
                       right' hiding overlay') la = Return s' /\
      cycles s' = cycles s.
Proof.
  cbn [inner_factory scrolling_spinner_factory]. intros H.
  bind_inv H. injection H as <-.
  unfold scrolling_inner_factory in Ha.
  destruct (truthy block && negb (truthy la || truthy length)) eqn:G; [done|].
  destruct (ratio length la) as [r| |] eqn:Er; [|done|done].
  cbn [mbind result_bind] in Ha.
  destruct (block_size block r chars) as [bs| |] eqn:Ebs; [|done|done].
  cbn [mbind result_bind] in Ha.
  destruct (contents chars block right bs) as [cs| |] eqn:Ec; [|done|done].
  cbn [mbind result_bind] in Ha. injection Ha as <-.
  exists bs. split.
  { unfold used_block_size. rewrite Er. cbn [mbind result_bind]. done. }
  cbv zeta. split.
  { cbn [cycles scroll_cycles]. unfold gap. destruct hiding; lia. }
  intros background' right' overlay'.
  assert (exists cs', contents chars block right' bs = Return cs') as [cs' Ec'].
  { rewrite contents_spec in Ec |- *. destruct (truthy block); [|eauto].
    destruct (index_sized bs || bool_decide (chars = [])); [eauto|done]. }
  eexists. split.
  - unfold scrolling_inner_factory. rewrite G, Er. cbn [mbind result_bind].
    rewrite Ebs. cbn [mbind result_bind]. rewrite Ec'.
    cbn [mbind result_bind]. reflexivity.
  - reflexivity.
Qed.

Lemma scrolling_cycles_shape_witness :
  exists s bs,
    inner_factory (scrolling_spinner_factory (text "abc") (Some 4) (Some 3)
                     None true false false) (Some 8) = Return s /\
    used_block_size (text "abc") (Some 4) (Some 3) (Some 8) = Return bs /\
    cycles s = Z.max 8 bs.
Proof.
  assert (exists s,
            inner_factory (scrolling_spinner_factory (text "abc") (Some 4)
                             (Some 3) None true false false) (Some 8) = Return s)
    as [s E] by (eexists; vm_compute; reflexivity).
  exists s.
  destruct (scrolling_cycles_shape (text "abc") (Some 4) (Some 3) None
              true false false (Some 8) s E) as (bs & Hbs & Hc & _).
  exists bs. split; [exact E|]. split; [exact Hbs | exact Hc].
Defined.

Lemma ratio_same length :
  1 <= length < 2 ^ 53 ->
  exists r, ratio (Some length) (Some length) = Return (Float r) /\
            normal 52 r /\ scaled r = 1 * 2 ^ scale.
Proof.
  intros Hl.
  destruct (of_int_normal length ltac:(lia)) as (x & Ex & Hx & Sx).
  destruct (of_int_normal 1 ltac:(lia)) as (z & _ & Hz & Sz).
  exists z. split; [|done].
  assert (SFdiv prec emax x x = z) as Ediv.
  { apply (SFdiv_exact 52 52 52); try done; try (unfold scale; lia).
    rewrite Sx, Sz. ring. }
  unfold ratio.
  assert (truthy (Some length) = true) as ->
    by (apply truthy_spec; exists length; split; [done|lia]).
  cbn [andb]. change (default 0 (Some length)) with length.
  rewrite Ex. cbn [mbind result_bind]. unfold div_int. rewrite Ex.
  cbn [mbind result_bind]. rewrite Ediv. by destruct x as [| | |[]].
Qed.

Lemma block_size_times_one block r chars :
  normal 52 r -> scaled r = 1 * 2 ^ scale ->
  0 <= default 0 block < 2 ^ 53 ->
  block_size block (Float r) chars = block_size block (Int 1) chars.
Proof.
  intros Hr Sr Hb. unfold block_size, int_or.
  destruct (truthy block) eqn:Tb.
  - apply truthy_spec in Tb as (b & -> & Hb0). simpl in Hb.
    change (default 0 (Some b)) with b.
    destruct (of_int_normal b ltac:(lia)) as (x & Ex & Hx & Sx).
    assert (SFmul prec emax x r = x) as Emul.
    { apply (SFmul_exact 52 52 52); try done; try (unfold scale; lia).
      rewrite Sr. ring. }
    pose proof (trunc_scaled 52 x Hx ltac:(unfold scale; lia)) as Htr.
    rewrite Sx, Z.div_mul in Htr by (apply Z.pow_nonzero; unfold scale; lia).
    cbn [int_times]. unfold int_mul. rewrite Ex. cbn [mbind result_bind int_of].
    rewrite Emul, Htr. cbn [mbind result_bind]. by rewrite Z.mul_1_r.
  - cbn [int_times]. unfold int_mul.
    change (of_int 0) with (Return (S754_zero false) : result spec_float).
    cbn [mbind result_bind int_of].
    destruct r as [| | |[] m e]; try done.
Qed.

(** X5. Called with the [length] it was made with, a scrolling factory
    returns what it returns when called with no width: the ratio is the
    double 1.0, and [int(block * 1.0)] is [block]. *)
Theorem scrolling_at_own_length chars length block background
    (right hiding overlay : bool) :
  1 <= length < 2 ^ 53 -> 0 <= default 0 block < 2 ^ 53 ->
  inner_factory (scrolling_spinner_factory chars (Some length) block
                   background right hiding overlay) (Some length)
  = inner_factory (scrolling_spinner_factory chars (Some length) block
                     background right hiding overlay) None.
Proof.
  intros Hl Hb. cbn [inner_factory scrolling_spinner_factory]. f_equal.
  destruct (ratio_same length Hl) as (r & Er & Hr & Sr).
  assert (truthy (Some length) = true) as Tl
    by (apply truthy_spec; exists length; split; [done|lia]).
  assert (ratio (Some length) None = Return (Int 1)) as Er'
    by (unfold ratio; by rewrite Tl).
  unfold scrolling_inner_factory. rewrite Er, Er', Tl.
  cbn [truthy orb negb]. rewrite !andb_false_r.
  cbn [mbind result_bind].
  rewrite (block_size_times_one block r chars Hr Sr Hb).
  assert (int_or (Some length) (int_or (Some length) (len chars))
          = int_or None (int_or (Some length) (len chars))) as ->; [|done].
  unfold int_or. rewrite Tl. done.
Qed.

Lemma scrolling_at_own_length_witness :
  inner_factory (scrolling_spinner_factory (text "abc") (Some 7) (Some 2)
                   None true false false) (Some 7)
  = inner_factory (scrolling_spinner_factory (text "abc") (Some 7) (Some 2)
                     None true false false) None.
Proof.
  apply (scrolling_at_own_length (text "abc") 7 (Some 2) None true false false);
    simpl; lia.
Defined.

(** ** Compound spinners, further *)

Lemma for_each_Raise {A B} (f : A -> result B) pre x post e :
  Forall (fun y => exists b, f y = Return b) pre ->
  f x = Raise e ->
  for_each f (pre ++ x :: post) = Raise e.
Proof.
  intros Hpre Hx. induction Hpre as [|y pre [b Hy] _ IH]; simpl.
  - by rewrite Hx.
  - by rewrite Hy, IH.
Qed.

Lemma longest_max spinners c :
  c ∈ cycles <$> spinners ->
  Forall (fun sp => cycles sp <= c) spinners ->
  exists l, longest spinners = Return l /\ cycles l = c.
Proof.
  intros Hin Hall. destruct spinners as [|s rest]; [by apply elem_of_nil in Hin|].
  destruct (longest (s :: rest)) as [l| |] eqn:El; [|done|done].
  exists l. split; [done|]. apply longest_spec in El as [Hl Hmax].
  apply list_elem_of_fmap in Hin as (sp & -> & Hsp).
  rewrite Forall_forall in Hall, Hmax.
  specialize (Hall l Hl). specialize (Hmax sp Hsp). lia.
Qed.

(** X6. A compound factory calls its factories in order with the width it
    apportioned. When they all return, it returns the spinner of their
    players, whose [cycles] is the greatest of theirs; when one raises, the
    factories before it having returned, that error is its own. *)
Theorem compound_binding fs la each :
  each_length la (len fs) = Return each ->
  (forall spinners c,
     Forall2 (fun f sp => inner_factory f each = Return sp) fs spinners ->
     c ∈ cycles <$> spinners ->
     Forall (fun sp => cycles sp <= c) spinners ->
     inner_factory (compound_spinner_factory fs) la
     = Return (CompoundSpinner la c (spinner_player <$> spinners))) /\
  (forall pre f post e,
     fs = pre ++ f :: post ->
     Forall (fun g => exists sp, inner_factory g each = Return sp) pre ->
     inner_factory f each = Raise e ->
     inner_factory (compound_spinner_factory fs) la = Raise e).
Proof.
  intros He. cbn [inner_factory compound_spinner_factory].
  unfold compound_inner_factory. unfold len in *. rewrite length_map, He.
  cbn [mbind result_bind]. split.
  - intros spinners c Hall Hin Hmax.
    assert (for_each (fun factory => factory each) (map inner_factory fs)
            = Return spinners) as ->.
    { apply for_each_Return. by apply Forall2_fmap_l. }
    cbn [mbind result_bind].
    destruct (longest_max spinners c Hin Hmax) as (l & -> & <-). done.
  - intros pre f post e -> Hpre Hf. rewrite map_app. cbn [map].
    rewrite (for_each_Raise _ _ _ _ e); [done| |done].
    apply Forall_fmap. eapply Forall_impl; [exact Hpre|].
    intros g [sp Hg]. by exists sp.
Qed.

Lemma compound_binding_witness :
  let fs := [FrameFactory [text "ab"; text "cd"];
             bouncing_spinner_factory (text "o") 3 None None (text " ") true] in
  each_length None (len fs) = Return None /\
  inner_factory (compound_spinner_factory fs) None = Raise TypeError.
Proof.
  intros fs. split; [reflexivity|].
  refine (proj2 (compound_binding fs None None eq_refl)
            [FrameFactory [text "ab"; text "cd"]]
            (bouncing_spinner_factory (text "o") 3 None None (text " ") true)
            [] TypeError eq_refl _ eq_refl).
  repeat constructor. by eexists.
Defined.

(** X7. No factory that has a bouncing factory inside, however deep, ever
    returns a spinner: the [TypeError] of the bouncing factory's call stops
    every compound or delayed factory around it. *)
Theorem no_spinner_with_bouncing f :
  uses_bouncing f = true -> forall la s, inner_factory f la <> Return s.
Proof.
  induction f as [frames|? ? ? ? ? ? ?|? ? ? ? ? ?|fs IH|f copies offset IH]
    using factory_induction; intros Hb la s H; try done.
  - cbn [uses_bouncing] in Hb. apply existsb_exists in Hb as (g & Hg & Hbg).
    cbn [inner_factory] in H.
    apply compound_inner_factory_Return in H
      as (each & spinners & _ & Hall & _).
    apply Forall2_fmap_l in Hall.
    apply list_elem_of_In, list_elem_of_lookup in Hg as [i Hi].
    destruct (Forall2_lookup_l _ _ _ _ _ Hall Hi) as (sp & _ & Hsp).
    rewrite Forall_forall in IH.
    apply (IH g ltac:(by eapply list_elem_of_lookup_2) Hbg each sp Hsp).
  - cbn [uses_bouncing] in Hb. cbn [inner_factory] in H.
    apply delayed_inner_factory_Return in H
      as (n & each & sub & _ & _ & Hsub & _).
    by apply (IH Hb each sub).
Qed.

Lemma no_spinner_with_bouncing_witness :
  inner_factory
    (delayed_spinner_factory
       (compound_spinner_factory
          [FrameFactory [text "ab"];
           bouncing_spinner_factory (text "o") 3 None None (text " ") true])
       2 1) (Some 4) <> Return (FrameSpinner None []).
Proof.
  exact (no_spinner_with_bouncing
           (delayed_spinner_factory
              (compound_spinner_factory
                 [FrameFactory [text "ab"];
                  bouncing_spinner_factory (text "o") 3 None None (text " ") true])
              2 1) eq_refl (Some 4) (FrameSpinner None [])).
Defined.

Lemma player_frame_0 p : player_frame p 0 = fst <$> player_next p.
Proof. done. Qed.

Lemma player_frame_S p t :
  player_frame p (S t) =
  match player_next p with
  | Some (_, p') => player_frame p' t
  | None => None
  end.
Proof.
  unfold player_frame. cbn [discard].
  by destruct (player_next p) as [[fill p']|].
Qed.

Lemma compound_player_next la c ps rs g :
  1 <= c ->
  Forall2 (fun p r => player_next p = Some r) ps rs ->
  exists g', player_next (CompoundSpinner la c ps, g)
             = Some (repeating la (mjoin rs.*1), (CompoundSpinner la c rs.*2, g')).
Proof.
  intros Hc Hrs. rewrite player_next_restart. cbn [fst snd].
  destruct (Z.lt_ge_cases (Z.of_nat g) c) as [Hg|Hg].
  - rewrite (compound_next la c ps rs g Hg Hrs). by eexists.
  - assert (next false (CompoundSpinner la c ps) g
            = StopIteration (CompoundSpinner la c ps)) as ->.
    { cbn [next]. unfold counted. by destruct (Z.ltb_spec (Z.of_nat g) c); [lia|]. }
    rewrite (compound_next la c ps rs 0 ltac:(lia) Hrs). by eexists.
Qed.

Lemma players_step ps fills t :
  Forall2 (fun p fill => player_frame p (S t) = Some fill) ps fills ->
  exists rs, Forall2 (fun p r => player_next p = Some r) ps rs /\
             Forall2 (fun p fill => player_frame p t = Some fill) rs.*2 fills.
Proof.
  induction 1 as [|p fill ps fills Hp _ (rs & H1 & H2)].
  - exists []. split; constructor.
  - rewrite player_frame_S in Hp.
    destruct (player_next p) as [[x p']|] eqn:E; [|done].
    exists ((x, p') :: rs). split; by constructor.
Qed.

Lemma players_first ps fills :
  Forall2 (fun p fill => player_frame p 0 = Some fill) ps fills ->
  exists rs, Forall2 (fun p r => player_next p = Some r) ps rs /\ rs.*1 = fills.
Proof.
  induction 1 as [|p fill ps fills Hp _ (rs & H1 & H2)].
  - by exists [].
  - rewrite player_frame_0 in Hp.
    destruct (player_next p) as [[x p']|] eqn:E; [|done]. injection Hp as ->.
    exists ((fill, p') :: rs). split; [by constructor | by rewrite <- H2].
Qed.

(** X8. The players of a compound spinner advance together, at every tick
    and across its restarts: the frame a player on it yields at tick [t] is
    the join, fixed to the width, of the frames its players yield at their
    own tick [t]. *)
Theorem compound_plays_together la c ps g t fills :
  1 <= c ->
  Forall2 (fun p fill => player_frame p t = Some fill) ps fills ->
  player_frame (CompoundSpinner la c ps, g) t
  = Some (repeating la (mjoin fills)).
Proof.
  intros Hc. revert ps g fills. induction t as [|t IH]; intros ps g fills H.
  - destruct (players_first ps fills H) as (rs & Hrs & <-).
    destruct (compound_player_next la c ps rs g Hc Hrs) as [g' E].
    by rewrite player_frame_0, E.
  - destruct (players_step ps fills t H) as (rs & Hrs & Hnext).
    destruct (compound_player_next la c ps rs g Hc Hrs) as [g' E].
    rewrite player_frame_S, E. by apply IH.
Qed.

Lemma compound_plays_together_witness :
  player_frame
    (CompoundSpinner None 2
       [spinner_player (FrameSpinner None [text "a"; text "b"; text "c"]);
        spinner_player (FrameSpinner None [text "x"; text "y"])], 0%nat) 7
  = Some (repeating None (mjoin [text "b"; text "y"])).
Proof.
  apply compound_plays_together; [lia|]. repeat constructor.
Defined.

Lemma frames_at ps t :
  Forall (fun p => is_Some (player_frame p t)) ps ->
  exists fills, Forall2 (fun p fill => player_frame p t = Some fill) ps fills.
Proof.
  induction 1 as [|p ps [fill Hp] _ [fills IH]].
  - by exists [].
  - exists (fill :: fills). by constructor.
Qed.

Lemma periodic_multiple (p : player) n k :
  periodic p n -> periodic p (k * n).
Proof.
  intros Hp. induction k as [|k IH]; intros t; [by rewrite Nat.add_0_r|].
  replace (t + S k * n)%nat with (t + k * n + n)%nat by lia.
  by rewrite Hp, IH.
Qed.

(** X9. The restarted output of a compound spinner repeats after every
    number of frames that is a multiple of a period of each of its players,
    whatever its [cycles]: over players of periods 3 and 5 it repeats every
    15 frames. *)
Theorem compound_common_period la c ps g m :
  1 <= c ->
  Forall (fun p => forall t, is_Some (player_frame p t)) ps ->
  Forall (fun p => exists n k, m = (k * n)%nat /\ periodic p n) ps ->
  periodic (CompoundSpinner la c ps, g) m.
Proof.
  intros Hc Hlive Hper t.
  destruct (frames_at ps t) as [fills Hfills].
  { eapply Forall_impl; [exact Hlive|]. by intros p Hp. }
  rewrite (compound_plays_together la c ps g t fills Hc Hfills).
  apply compound_plays_together; [done|].
  clear Hlive. induction Hfills as [|p fill ps fills Hp _ IH]; [constructor|].
  apply Forall_cons in Hper as [(n & k & -> & Hn) Hper].
  constructor; [|by apply IH].
  by rewrite (periodic_multiple p n k Hn t).
Qed.

Lemma compound_common_period_witness :
  periodic
    (CompoundSpinner None 5
       [spinner_player (FrameSpinner None [text "a"; text "b"; text "c"]);
        spinner_player (FrameSpinner None
                          [text "v"; text "w"; text "x"; text "y"; text "z"])],
     0%nat) 15.
Proof.
  apply compound_common_period; [lia| |].
  - repeat constructor; intros t; rewrite frame_player_frame by done;
      apply fmap_is_Some, lookup_lt_is_Some_2, Nat.mod_upper_bound; done.
  - repeat constructor.
    + exists 3%nat, 5%nat. split; [done|].
      exact (frame_periodic None [text "a"; text "b"; text "c"] ltac:(done)).
    + exists 5%nat, 3%nat. split; [done|].
      exact (frame_periodic None
               [text "v"; text "w"; text "x"; text "y"; text "z"] ltac:(done)).
Defined.

(** ** Delayed spinners, further *)

Lemma discard_nothing offset (ps : list player) k :
  offset <= 0 ->
  for_each (fun '(i, s) => discard (Z.to_nat (Z.of_nat i * offset)) s)
    (zip (seq k (List.length ps)) ps) = Return ps.
Proof.
  intros Ho. revert k. induction ps as [|p ps IH]; intros k; [done|].
  cbn [List.length seq zip zip_with for_each].
  replace (Z.to_nat (Z.of_nat k * offset)) with 0%nat by nia.
  cbn [discard mbind result_bind]. by rewrite IH.
Qed.

(** X10. With an [offset] that is not positive a delayed factory discards
    nothing: it returns what the compound factory over its copies returns,
    the number of copies being [ceil(width / natural)] when a width is given
    and [copies] otherwise. *)
Theorem delayed_without_shift f copies offset la :
  offset <= 0 ->
  inner_factory (delayed_spinner_factory f copies offset) la
  = (n ← copies_actual (natural f) copies la;
     spinner_factories ← times f n;
     inner_factory (compound_spinner_factory spinner_factories) la).
Proof.
  intros Ho. cbn [inner_factory delayed_spinner_factory compound_spinner_factory].
  unfold delayed_inner_factory.
  destruct (copies_actual (natural f) copies la) as [n| |]; [|done|done].
  cbn [mbind result_bind]. unfold times.
  destruct (index_sized n); [|done]. cbn [mbind result_bind].
  change (map inner_factory (replicate (Z.to_nat n) f))
    with (inner_factory <$> replicate (Z.to_nat n) f).
  rewrite fmap_replicate.
  destruct (compound_inner_factory
              (replicate (Z.to_nat n) (inner_factory f)) la) as [r| |] eqn:Er;
    [|reflexivity|reflexivity].
  cbn [mbind result_bind].
  apply compound_inner_factory_Return in Er as (each & spinners & _ & _ & _ & _ & ->).
  cbn [players]. unfold enumerate. rewrite (discard_nothing offset _ 0%nat Ho).
  done.
Qed.

Lemma delayed_without_shift_witness :
  inner_factory (delayed_spinner_factory (FrameFactory [text "a"; text "b"]) 3 0)
    (Some 2)
  = (n ← copies_actual (natural (FrameFactory [text "a"; text "b"])) 3 (Some 2);
     spinner_factories ← times (FrameFactory [text "a"; text "b"]) n;
     inner_factory (compound_spinner_factory spinner_factories) (Some 2)).
Proof.
  apply (delayed_without_shift (FrameFactory [text "a"; text "b"]) 3 0 (Some 2)).
  lia.
Defined.

Lemma ceil_div_bounds w n :
  1 <= w -> 1 <= n -> 1 <= ceil_div w n <= w.
Proof.
  intros Hw Hn. pose proof (ceil_div_spec w n ltac:(lia)) as [H1 H2].
  set (c := ceil_div w n) in *. split.
  - destruct (Z.lt_ge_cases c 1) as [H|]; [|done].
    assert (c * n <= 0 * n) by (apply Z.mul_le_mono_nonneg_r; lia). lia.
  - destruct (Z.le_gt_cases c w) as [|H]; [done|].
    assert (w * 1 <= (c - 1) * n) by (apply Z.mul_le_mono_nonneg; lia). lia.
Qed.

Lemma ceil_div_twice w n :
  1 <= w -> 1 <= n -> ceil_div w (ceil_div w n) <= n.
Proof.
  intros Hw Hn. pose proof (ceil_div_bounds w n Hw Hn) as Hc.
  pose proof (ceil_div_spec w n ltac:(lia)) as [_ H2].
  set (c := ceil_div w n) in *.
  pose proof (ceil_div_spec w c ltac:(lia)) as [H3 _].
  set (e := ceil_div w c) in *.
  destruct (Z.le_gt_cases e n) as [|H]; [done|].
  assert (n * c <= (e - 1) * c) by (apply Z.mul_le_mono_nonneg_r; lia). lia.
Qed.

(** X11. A delayed spinner has the [cycles] of the spinner it copies. Called
    with no width it has [copies] players, and returns only when that is at
    least one. Called with a width it has [ceil(width / natural)] players
    whatever [copies] says, each made at a width of at most [natural]. *)
Theorem delayed_copies f copies offset la s :
  inner_factory (delayed_spinner_factory f copies offset) la = Return s ->
  exists each sub,
    inner_factory f each = Return sub /\ cycles s = cycles sub /\
    (truthy la = false ->
     1 <= copies /\ len (players s) = copies /\ each = la) /\
    (forall w, la = Some w -> 1 <= w < 2 ^ 53 -> 1 <= natural f < 2 ^ 53 ->
       len (players s) = ceil_div w (natural f) /\
       exists e, each = Some e /\ 1 <= e <= natural f /\
                 e = ceil_div w (len (players s))).
Proof.
  intros H. cbn [inner_factory delayed_spinner_factory] in H.
  pose proof H as H0.
  apply delayed_inner_factory_Return in H
    as (n & each & sub & Hn & He & Hsub & Hc & Hlen & _).
  exists each, sub. split; [done|]. split; [done|].
  assert (1 <= n) as Hn1.
  { destruct (Z.lt_ge_cases n 1) as [Hlt|]; [|done]. exfalso.
    unfold delayed_inner_factory in H0. rewrite Hn in H0.
    cbn [mbind result_bind] in H0. unfold times in H0.
    destruct (index_sized n); [|done]. cbn [mbind result_bind] in H0.
    replace (Z.to_nat n) with 0%nat in H0 by lia.
    cbn [replicate] in H0. unfold compound_inner_factory, each_length in H0.
    destruct (truthy la); simpl in H0; done. }
  split.
  - intros T. unfold copies_actual in Hn. rewrite T in Hn. injection Hn as <-.
    split; [done|]. split; [unfold len; lia|].
    unfold each_length in He. rewrite T in He. by injection He.
  - intros w -> Hw Hnat.
    assert (truthy (Some w) = true) as T
      by (apply truthy_spec; exists w; split; [done|lia]).
    unfold copies_actual in Hn. rewrite T in Hn.
    change (default 0 (Some w)) with w in Hn.
    destruct (int_true_div_ceil w (natural f) Hw Hnat) as (q & Eq & Ec).
    rewrite Eq in Hn. cbn [mbind result_bind] in Hn. rewrite Ec in Hn.
    injection Hn as <-.
    pose proof (ceil_div_bounds w (natural f) ltac:(lia) ltac:(lia)) as Hb.
    split; [unfold len; lia|].
    rewrite Z2Nat.id in He by lia.
    rewrite each_length_ceil in He by lia. injection He as <-.
    eexists. split; [done|]. split.
    + split; [apply ceil_div_bounds; lia | apply ceil_div_twice; lia].
    + unfold len. rewrite Hlen, Z2Nat.id by lia. done.
Qed.

Lemma delayed_copies_witness :
  exists s each sub,
    inner_factory (delayed_spinner_factory (FrameFactory [text "ab"; text "cd"]) 7 1)
      (Some 5) = Return s /\
    inner_factory (FrameFactory [text "ab"; text "cd"]) each = Return sub /\
    cycles s = cycles sub /\ len (players s) = ceil_div 5 2.
Proof.
  destruct (inner_factory
              (delayed_spinner_factory (FrameFactory [text "ab"; text "cd"]) 7 1)
              (Some 5)) as [s| |] eqn:E;
    [|by vm_compute in E|by vm_compute in E].
  destruct (delayed_copies _ _ _ _ _ E) as (each & sub & Hsub & Hc & _ & Hw).
  destruct (Hw 5 eq_refl ltac:(lia) ltac:(simpl; unfold len; simpl; lia)) as [Hn _].
  exists s, each, sub. by repeat split.
Defined.



Lemma delayed_shape F nat_ copies offset la s :
  delayed_inner_factory F nat_ copies offset la = Return s ->
  s = CompoundSpinner la (cycles s) (players s).
Proof.
  unfold delayed_inner_factory. intros H. bind_inv H. bind_inv H.
  apply times_Return in Ha0 as [_ ->]. bind_inv H. bind_inv H.
  injection H as <-.
  by apply compound_inner_factory_Return in Ha0 as (? & ? & _ & _ & _ & _ & ->).
Qed.

(** X13. The wave of a delayed spinner: with an [offset] that is not
    negative, the frame it shows at tick [t] is the join, fixed to the
    width, of the frames the copied spinner shows at ticks [t],
    [t + offset], [t + 2 * offset], ..., one for every copy. *)
Theorem delayed_wave f copies offset la s t fills :
  inner_factory (delayed_spinner_factory f copies offset) la = Return s ->
  0 <= offset -> 1 <= cycles s ->
  exists each sub,
    each_length la (len (players s)) = Return each /\
    inner_factory f each = Return sub /\
    (Forall2 (fun i fill =>
                player_frame (spinner_player sub) (t + i * Z.to_nat offset)
                = Some fill)
       (seq 0 (List.length (players s))) fills ->
     player_frame (spinner_player s) t = Some (repeating la (mjoin fills))).
Proof.
  intros H Ho Hc. cbn [inner_factory delayed_spinner_factory] in H.
  pose proof (delayed_shape _ _ _ _ _ _ H) as Hshape.
  apply delayed_inner_factory_Return in H
    as (n & each & sub & _ & He & Hsub & _ & Hlen & Hdisc).
  exists each, sub. split; [by unfold len; rewrite Hlen|].
  split; [done|]. intros Hfills.
  rewrite Hshape. unfold spinner_player.
  apply compound_plays_together; [done|].
  apply Forall2_same_length_lookup_2.
  - apply Forall2_length in Hfills. by rewrite length_seq in Hfills.
  - intros i p fill Hp Hfill.
    destruct (Forall2_lookup_r _ _ _ _ _ Hfills Hfill) as (j & Hj & Hframe).
    apply lookup_seq in Hj as [-> _]. simpl in Hframe.
    rewrite (player_frame_discard _ _ _ t (Hdisc i p Hp)), <- Hframe.
    f_equal. rewrite Z2Nat.inj_mul, Nat2Z.id by lia. done.
Qed.

Lemma delayed_wave_witness :
  let sub := FrameSpinner None [text "a"; text "b"; text "c"] in
  let s := CompoundSpinner None 3 [(sub, 0%nat); (sub, 1%nat); (sub, 2%nat)] in
  inner_factory
    (delayed_spinner_factory (FrameFactory [text "a"; text "b"; text "c"]) 3 1)
    None = Return s /\
  player_frame (spinner_player s) 5
  = Some (repeating None (mjoin [text "c"; text "a"; text "b"])).
Proof.
  intros sub s.
  assert (inner_factory
            (delayed_spinner_factory
               (FrameFactory [text "a"; text "b"; text "c"]) 3 1) None
          = Return s) as E by (vm_compute; reflexivity).
  split; [exact E|].
  destruct (delayed_wave _ _ _ _ s 5 [text "c"; text "a"; text "b"] E
              ltac:(lia) ltac:(simpl; lia)) as (each & sub' & He & Hsub & Hplay).
  injection He as <-. injection Hsub as <-.
  apply Hplay. repeat constructor.
Defined.

(** ** Spinners of no cycles *)

Lemma inner_factory_not_bouncing f la s :
  inner_factory f la = Return s ->
  match s with BouncingSpinner _ _ _ _ _ => False | _ => True end.
Proof.
  destruct f; cbn [inner_factory]; intros H.
  - by injection H as <-.
  - bind_inv H. by injection H as <-.
  - done.
  - by apply compound_inner_factory_Return in H as (? & ? & _ & _ & _ & _ & ->).
  - unfold delayed_inner_factory in H. bind_inv H. bind_inv H.
    apply times_Return in Ha0 as [_ ->]. bind_inv H. bind_inv H.
    injection H as <-.
    by apply compound_inner_factory_Return in Ha0 as (? & ? & _ & _ & _ & _ & ->).
Qed.

(** X14. A spinner whose [cycles] is not positive yields no frame: each of
    its generators is exhausted at once, and a player on it never yields,
    since it starts the spinner again for ever. A scrolling factory over no
    characters, with no [length], [block] or width, returns such a spinner,
    and its [natural] is 0. *)
Theorem no_cycles_no_frame :
  (forall f la s,
     inner_factory f la = Return s -> cycles s <= 0 ->
     forall g, next false s g = StopIteration s /\ player_next (s, g) = None) /\
  (forall length block background (right hiding overlay : bool) la,
     truthy length = false -> truthy block = false -> truthy la = false ->
     let f := scrolling_spinner_factory [] length block background right
                hiding overlay in
     natural f = 0 /\
     exists s, inner_factory f la = Return s /\ cycles s = 0).
Proof.
  split.
  - intros f la s H Hc g. pose proof (inner_factory_not_bouncing f la s H) as Hs.
    unfold player_next. cbn [fst snd].
    destruct s as [la' frames|sc|?|la' c ps]; [| | done |];
      cbn [cycles] in Hc; cbn [next]; unfold counted;
      repeat match goal with
             | |- context [Z.ltb ?a ?b] =>
                 destruct (Z.ltb_spec a b); [lia|]
             end; try done.
  - intros length block background right hiding overlay la Tl Tb Tla f.
    unfold f. cbn [natural inner_factory scrolling_spinner_factory].
    rewrite (int_or_falsy _ _ Tl). split; [done|].
    unfold scrolling_inner_factory, ratio, block_size, contents.
    rewrite Tl, Tb, Tla, (int_or_falsy _ _ Tb), (int_or_falsy _ _ Tla),
      (int_or_falsy _ _ Tl).
    cbn. eexists. split; [reflexivity|]. cbn. unfold gap. by destruct hiding.
Qed.

Lemma no_cycles_no_frame_witness :
  let s := ScrollingSpinner
             {| scroll_cycles := 0;
                infinite_ribbon :=
                  static_sliding_window_factory [blank_cell] 0 [[]] 0 (-1) 0 |} in
  inner_factory (scrolling_spinner_factory [] None None None true true false)
    None = Return s /\
  next false s 0%nat = StopIteration s /\
  player_next (s, 0%nat) = None.
Proof.
  intros s.
  assert (inner_factory
            (scrolling_spinner_factory [] None None None true true false) None
          = Return s) as E by reflexivity.
  split; [exact E|].
  apply (proj1 no_cycles_no_frame _ _ s E). simpl. lia.
Defined.
